(** * A shallow embedding of the template game shell

    The development follows the TypeScript sources of the repository:

    - integers and rationals of the host language  (module [Js])
    - [app/config/levels.ts]                       (module [Levels])
    - the card engine  (round resolution)          (module [Card])
    - [app/game/runtime/physics2d.ts]              (module [Physics])
    - its vectors on IEEE-754 doubles              (module [Double])
    - [app/game/runtime/rendering.ts], particles   (module [Particles])
    - [app/game/types/puzzle/PuzzleEngine.tsx]     (module [Puzzle])
    - the runner engine (tick loop)                (module [Runner])
    - the input system  (gesture recogniser)       (module [Input])

    The first part holds the definitions, one module per source file; the
    second part holds the statements proved about them. *)

From Stdlib Require Import ZArith QArith Qround Qabs Qminmax Reals Lra Lia.
From Stdlib Require Import List Bool String Ascii Sorted Permutation.
From Stdlib Require Import DecimalString.
From Stdlib Require Lqa.
From Stdlib Require PrimFloat.
Import ListNotations.

(* ===================================================================== *)
(** * Part I: definitions                                                 *)
(* ===================================================================== *)

(** ** Numbers of the host language *)

Module Js.

(** [a < b] on rationals, as a boolean. *)
Definition Qltb (a b : Q) : bool := negb (Qle_bool b a).

(** Template-literal rendering of integers. *)
Definition showNat (n : nat) : string := NilEmpty.string_of_uint (Nat.to_uint n).
Definition showZ (z : Z) : string := NilZero.string_of_int (Z.to_int z).

End Js.

(** ** Level catalogue: [app/config/levels.ts] *)

Module Levels.
Local Open Scope string_scope.
Local Open Scope Z_scope.

Inductive Difficulty : Type := easy | medium | hard.

(** [interface Level]; the numeric fields of the catalogue are integers. *)
Record Level : Type := mkLevel {
  id : Z;
  name : string;
  difficulty : Difficulty;
  timeLimit : Z;
  targetScore : Z;
  obstacles : Z;
  powerUps : Z;
  coinValue : Z;
  background : string;
  isPlayable : bool;
  comingSoon : bool
}.

Definition LEVELS : list Level := [
  mkLevel 1 "Getting Started" easy 60 100 5 3 10 "#87CEEB" true false;
  mkLevel 2 "Level Up" medium 45 200 10 2 15 "#FFB347" true false;
  mkLevel 3 "Expert Challenge" hard 30 300 20 1 20 "#FF6961" true false;
  mkLevel 4 "Advanced Trial" hard 30 400 25 1 25 "#9B59B6" false true;
  mkLevel 5 "Speed Run" hard 20 350 30 1 30 "#E74C3C" false true;
  mkLevel 6 "Master Class" hard 25 500 35 0 35 "#1ABC9C" false true;
  mkLevel 7 "Nightmare Mode" hard 20 600 40 0 40 "#34495E" false true;
  mkLevel 8 "Epic Journey" hard 40 700 45 2 45 "#16A085" false true;
  mkLevel 9 "Ultimate Test" hard 35 800 50 1 50 "#2C3E50" false true;
  mkLevel 10 "Legendary" hard 50 1000 60 2 60 "#8E44AD" false true
].

(** [LEVELS.find(level => level.id === id)]; [undefined] is [None]. *)
Definition getLevelById (i : Z) : option Level :=
  find (fun level => id level =? i) LEVELS.

Definition getNextLevel (currentLevelId : Z) : option Level :=
  find (fun level => id level =? currentLevelId + 1) LEVELS.

Definition getTotalLevels : nat := List.length LEVELS.

Definition getPlayableLevels : list Level :=
  filter (fun level => isPlayable level) LEVELS.

Definition getLockedLevels : list Level :=
  filter (fun level => negb (isPlayable level)) LEVELS.

Definition isLevelPlayable (levelId : Z) : bool :=
  match getLevelById levelId with
  | Some level => isPlayable level
  | None => false
  end.

(** [Array.prototype.includes] on a list of numbers. *)
Definition includes (l : list Z) (x : Z) : bool := existsb (Z.eqb x) l.

Definition isLevelUnlocked (levelId : Z) (completedLevelIds : list Z) : bool :=
  match getLevelById levelId with
  | None => false
  | Some level =>
      if negb (isPlayable level) then false
      else if levelId =? 1 then true
      else includes completedLevelIds (levelId - 1)
  end.

End Levels.

(** ** Card engine: round resolution *)

Module Card.
Local Open Scope Z_scope.

Definition TARGET : Z := 20.
Definition ROUNDS_TO_WIN : Z := 3.

Inductive Side : Type := player | opponent.
Inductive Phase : Type := phase_player | phase_opponent | phase_result.

(** The [useState] cells of the component. *)
Record CardState : Type := mkCard {
  playerScore : Z;
  opponentScore : Z;
  currentCard : Z;
  round : Z;
  gamePhase : Phase;
  wins : Z;
  losses : Z
}.

(** The alert raised at the end of a round: its title side and the two
    numbers of the message "a beats b". *)
Record RoundAlert : Type := mkAlert {
  alert_for : Side;
  alert_first : Z;
  alert_second : Z
}.

(** The [if]/[else if] chain that fills the local [winner] of
    [determineWinner]. *)
Definition winner (pScore oScore : Z) : Side :=
  if pScore >? TARGET then opponent
  else if oScore >? TARGET then player
  else if pScore >? oScore then player
  else opponent.

(** [determineWinner(pScore, oScore)]: the phase becomes 'result', the win
    or loss counter of the round's winner is incremented and the matching
    alert is shown. *)
Definition determineWinner (s : CardState) (pScore oScore : Z)
  : CardState * RoundAlert :=
  let s1 := mkCard (playerScore s) (opponentScore s) (currentCard s)
                   (round s) phase_result (wins s) (losses s) in
  match winner pScore oScore with
  | player =>
      (mkCard (playerScore s1) (opponentScore s1) (currentCard s1)
              (round s1) (gamePhase s1) (wins s1 + 1) (losses s1),
       mkAlert player pScore oScore)
  | opponent =>
      (mkCard (playerScore s1) (opponentScore s1) (currentCard s1)
              (round s1) (gamePhase s1) (wins s1) (losses s1 + 1),
       mkAlert opponent oScore pScore)
  end.

(** The effect on [wins]/[losses]: which terminal callback fires. *)
Inductive Outcome : Type := onWin | onLose.

Definition matchOutcome (s : CardState) : option Outcome :=
  if wins s >=? ROUNDS_TO_WIN then Some onWin
  else if losses s >=? ROUNDS_TO_WIN then Some onLose
  else None.

End Card.

(** ** Vectors and bodies: [app/game/runtime/physics2d.ts]

    JavaScript numbers are read as real numbers: the arithmetic of the
    source is taken exactly (no rounding, no overflow, no NaN).  Statements
    over these definitions are written with the source's own expressions,
    so that they read the same on doubles; where rounding, overflow or
    underflow decide, the vectors are taken on doubles (module [Double]). *)

Module Physics.
Local Open Scope R_scope.

Record Vector2D : Type := mkVector2D { x : R; y : R }.

Definition add (this other : Vector2D) : Vector2D :=
  mkVector2D (x this + x other) (y this + y other).

Definition subtract (this other : Vector2D) : Vector2D :=
  mkVector2D (x this - x other) (y this - y other).

Definition multiply (this : Vector2D) (scalar : R) : Vector2D :=
  mkVector2D (x this * scalar) (y this * scalar).

(** [if (scalar === 0) return new Vector2D(0, 0)] guards the division. *)
Definition divide (this : Vector2D) (scalar : R) : Vector2D :=
  if Req_dec_T scalar 0 then mkVector2D 0 0
  else mkVector2D (x this / scalar) (y this / scalar).

Definition magnitude (this : Vector2D) : R :=
  sqrt (x this * x this + y this * y this).

Definition normalize (this : Vector2D) : Vector2D :=
  let mag := magnitude this in
  if Req_dec_T mag 0 then mkVector2D 0 0
  else divide this mag.

Definition dot (this other : Vector2D) : R :=
  x this * x other + y this * y other.

Record PhysicsBody : Type := mkBody {
  position : Vector2D;
  velocity : Vector2D;
  acceleration : Vector2D;
  mass : R;
  friction : R;
  restitution : R
}.

(** [new PhysicsBody(x, y)] *)
Definition newBody (x0 y0 : R) : PhysicsBody :=
  mkBody (mkVector2D x0 y0) (mkVector2D 0 0) (mkVector2D 0 0) 1 (1/10) (1/2).

(** [applyForce(force)]: a = F/m through the guarded [divide]. *)
Definition applyForce (b : PhysicsBody) (force : Vector2D) : PhysicsBody :=
  let a := divide force (mass b) in
  mkBody (position b) (velocity b) (add (acceleration b) a)
         (mass b) (friction b) (restitution b).

(** [update(deltaTime)]: the four statements of the method, in order; the
    last one, [this.acceleration.set(0, 0)], overwrites both components. *)
Definition update (b : PhysicsBody) (deltaTime : R) : PhysicsBody :=
  let v1 := add (velocity b) (multiply (acceleration b) deltaTime) in
  let v2 := multiply v1 (1 - friction b) in
  let p1 := add (position b) (multiply v2 deltaTime) in
  mkBody p1 v2 (mkVector2D 0 0) (mass b) (friction b) (restitution b).

Definition applyGravity (b : PhysicsBody) (gravity : R) : PhysicsBody :=
  applyForce b (mkVector2D 0 (gravity * mass b)).

End Physics.

(** ** Vectors on doubles

    The numbers of the host language are IEEE-754 binary64 values; here
    they are the primitive floats, whose operations round as the host's do.
    [===] on numbers is the IEEE equality [=?] (0 and -0 are equal, NaN is
    equal to nothing), [Math.sqrt] is [sqrt]. *)

Module Double.
Import PrimFloat.
Local Open Scope float_scope.
#[local] Set Warnings "-inexact-float".

Record Vector2D : Type := mkVector2D { x : float; y : float }.

Definition multiply (this : Vector2D) (scalar : float) : Vector2D :=
  mkVector2D (x this * scalar) (y this * scalar).

Definition divide (this : Vector2D) (scalar : float) : Vector2D :=
  if scalar =? 0 then mkVector2D 0 0
  else mkVector2D (x this / scalar) (y this / scalar).

Definition magnitude (this : Vector2D) : float :=
  sqrt (x this * x this + y this * y this).

Definition normalize (this : Vector2D) : Vector2D :=
  let mag := magnitude this in
  if mag =? 0 then mkVector2D 0 0
  else divide this mag.

(** *** Sample vectors *)




End Double.

(** ** Particle system: [app/game/runtime/rendering.ts]

    Particle coordinates, velocities and lifetimes are rationals; counts
    ([count], [maxParticles]) are integers. *)

Module Particles.
Local Open Scope string_scope.
Local Open Scope Z_scope.

Record Particle : Type := mkParticle {
  x : Q;
  y : Q;
  vx : Q;
  vy : Q;
  life : Q;
  maxLife : Q;
  size : Q;
  color : string
}.

(** The optional fourth argument of [emit]; an absent key is [None]. *)
Record EmitOptions : Type := mkOptions {
  velocityRange : option (Q * Q);
  lifeRange : option (Q * Q);
  sizeRange : option (Q * Q);
  optColor : option string
}.

Definition noOptions : EmitOptions := mkOptions None None None None.

Record ParticleSystem : Type := mkSystem {
  particles : list Particle;
  maxParticles : Z
}.

(** [new ParticleSystem(maxParticles)] *)
Definition newSystem (maxParticles : Z) : ParticleSystem := mkSystem [] maxParticles.

(** The successive results of [Math.random()] seen by one call. *)
Definition Random : Type := nat -> Q.

Definition orDefault {A : Type} (o : option A) (d : A) : A :=
  match o with Some a => a | None => d end.

(** [Math.random() * (range[1] - range[0]) + range[0]] *)
Definition inRange (r : Q) (range : Q * Q) : Q :=
  (r * (snd range - fst range) + fst range)%Q.

(** The body of the [for] loop of [emit]: [n] bounds the iterations left
    ([i < count]), [i] is the loop index, and the second conjunct of the
    loop test, [this.particles.length < this.maxParticles], is re-evaluated
    before every iteration. *)
Fixpoint emit_loop (maxP : Z) (ex ey : Q) (vr lr sr : Q * Q) (col : string)
    (rnd : Random) (n i : nat) (ps : list Particle) : list Particle :=
  match n with
  | O => ps
  | S n' =>
      if Z.of_nat (List.length ps) <? maxP then
        let pvx := inRange (rnd (4 * i)%nat) vr in
        let pvy := inRange (rnd (4 * i + 1)%nat) vr in
        let plife := inRange (rnd (4 * i + 2)%nat) lr in
        let psize := inRange (rnd (4 * i + 3)%nat) sr in
        emit_loop maxP ex ey vr lr sr col rnd n' (S i)
          (ps ++ [mkParticle ex ey pvx pvy plife plife psize col])
      else ps
  end.

Definition emit (s : ParticleSystem) (ex ey : Q) (count : Z)
    (options : EmitOptions) (rnd : Random) : ParticleSystem :=
  let vr := orDefault (velocityRange options) (-100 # 1, 100 # 1)%Q in
  let lr := orDefault (lifeRange options) (500 # 1, 1500 # 1)%Q in
  let sr := orDefault (sizeRange options) (2 # 1, 6 # 1)%Q in
  let col := orDefault (optColor options) "#FFFFFF" in
  mkSystem
    (emit_loop (maxParticles s) ex ey vr lr sr col rnd (Z.to_nat count) 0 (particles s))
    (maxParticles s).

(** One particle of [update]: move, age. *)
Definition age (deltaTime : Q) (p : Particle) : Particle :=
  mkParticle (x p + vx p * deltaTime)%Q (y p + vy p * deltaTime)%Q
             (vx p) (vy p) (life p - deltaTime * (1000 # 1))%Q
             (maxLife p) (size p) (color p).

(** [update(deltaTime)]: the loop runs from the last index down to 0 and
    splices out the particles whose life has run out; the survivors keep
    their order. *)
Definition update (s : ParticleSystem) (deltaTime : Q) : ParticleSystem :=
  mkSystem
    (fold_right
       (fun p rest =>
          let p' := age deltaTime p in
          if Qle_bool (life p') 0 then rest else p' :: rest)
       [] (particles s))
    (maxParticles s).

Definition clear (s : ParticleSystem) : ParticleSystem :=
  mkSystem [] (maxParticles s).

Definition count (s : ParticleSystem) : Z := Z.of_nat (List.length (particles s)).

(** The calls a client can make on a particle system. *)
Inductive Call : Type :=
| CallEmit (ex ey : Q) (count : Z) (options : EmitOptions) (rnd : Random)
| CallUpdate (deltaTime : Q)
| CallClear.

Definition call (s : ParticleSystem) (c : Call) : ParticleSystem :=
  match c with
  | CallEmit ex ey n options rnd => emit s ex ey n options rnd
  | CallUpdate dt => update s dt
  | CallClear => clear s
  end.

Definition run (s : ParticleSystem) (cs : list Call) : ParticleSystem :=
  fold_left call cs s.

End Particles.

(** ** Puzzle engine: [app/game/types/puzzle/PuzzleEngine.tsx] *)

Module Puzzle.
Local Open Scope string_scope.
Local Open Scope list_scope.
Local Open Scope nat_scope.

Definition GRID_SIZE : nat := 6.

Definition COLORS : list string :=
  ["#e8d5b7"; "#b8d4e3"; "#d4e8d4"; "#f4c2c2"; "#e8d4f4"].

Record Tile : Type := mkTile { color : string; id : string }.

Definition Grid : Type := list (list Tile).

(** A grid position [{row, col}]. *)
Definition Cell : Type := (nat * nat)%type.

Definition cell_eqb (a b : Cell) : bool :=
  Nat.eqb (fst a) (fst b) && Nat.eqb (snd a) (snd b).

(** [grid[row][col]]; [None] stands for [undefined]. *)
Definition tileAt (g : Grid) (p : Cell) : option Tile :=
  match nth_error g (fst p) with
  | Some r => nth_error r (snd p)
  | None => None
  end.

(** Failure ([None]) is the [TypeError] that reading [.color] of
    [undefined], or indexing [undefined], raises. *)
Definition bind {A B : Type} (o : option A) (f : A -> option B) : option B :=
  match o with Some a => f a | None => None end.

Notation "x <- e ;; k" := (bind e (fun x => k))
  (at level 61, e at next level, right associativity).

(** [newGrid[row][col].color] *)
Definition colorAt (g : Grid) (p : Cell) : option string :=
  t <- tileAt g p ;; Some (color t).

(** Three cells scanned together by one [if] of [checkMatches]. *)
Definition Window : Type := (Cell * Cell * Cell)%type.

Definition cells (w : Window) : list Cell :=
  let '(a, b, c) := w in [a; b; c].

(** The test [g[a].color === g[b].color && g[a].color === g[c].color];
    the right conjunct is read only when the left one holds. *)
Definition sameColor3 (g : Grid) (w : Window) : option bool :=
  let '(a, b, c) := w in
  ca <- colorAt g a ;;
  cb <- colorAt g b ;;
  if String.eqb ca cb then
    ca' <- colorAt g a ;;
    cc <- colorAt g c ;;
    Some (String.eqb ca' cc)
  else Some false.

(** The index pairs visited by the two nested loops, in visiting order. *)
Definition horizontalWindows : list Window :=
  flat_map (fun row =>
    map (fun col => ((row, col), (row, col + 1), (row, col + 2)))
        (seq 0 (GRID_SIZE - 2)))
    (seq 0 GRID_SIZE).

Definition verticalWindows : list Window :=
  flat_map (fun col =>
    map (fun row => ((row, col), (row + 1, col), (row + 2, col)))
        (seq 0 (GRID_SIZE - 2)))
    (seq 0 GRID_SIZE).

(** The loop body, run over the windows; the accumulator is the pair
    ([toRemove], [matchesFound]). *)
Fixpoint scan (g : Grid) (ws : list Window) (acc : list Cell * bool)
  : option (list Cell * bool) :=
  match ws with
  | [] => Some acc
  | w :: ws' =>
      m <- sameColor3 g w ;;
      scan g ws' (if m then (fst acc ++ cells w, true) else acc)
  end.

(** [Array.from(new Set(keys))]: the first occurrence of every key is kept,
    in insertion order.  The key ["row-col"] and the pair [(row, col)]
    determine each other, so the keys are kept as pairs. *)
Fixpoint uniqueFrom (seen : list Cell) (l : list Cell) : list Cell :=
  match l with
  | [] => []
  | c :: l' =>
      if existsb (cell_eqb c) seen then uniqueFrom seen l'
      else c :: uniqueFrom (c :: seen) l'
  end.

Definition unique (l : list Cell) : list Cell := uniqueFrom [] l.

Definition showNat : nat -> string := Js.showNat.
Definition showZ : Z -> string := Js.showZ.

(** [COLORS[Math.floor(Math.random() * COLORS.length)]] for a draw [r] of
    [Math.random()], which lies in [0, 1). *)
Definition pickColor (r : Q) : string :=
  nth (Z.to_nat (Qfloor (r * inject_Z (Z.of_nat (List.length COLORS))))) COLORS "".

(** The replacement tile: a random colour and the id ["row-col-now"]. *)
Definition newTile (p : Cell) (r : Q) (now : Z) : Tile :=
  mkTile (pickColor r)
         (showNat (fst p) ++ "-" ++ showNat (snd p) ++ "-" ++ showZ now)%string.

Fixpoint setNth {A : Type} (l : list A) (n : nat) (a : A) : list A :=
  match l, n with
  | [], _ => []
  | _ :: l', O => a :: l'
  | b :: l', S n' => b :: setNth l' n' a
  end.

(** [newGrid[row][col] = t] for a position inside the grid (the only
    positions [checkMatches] writes to are ones it has read). *)
Definition setTile (g : Grid) (p : Cell) (t : Tile) : Grid :=
  match nth_error g (fst p) with
  | Some r => setNth g (fst p) (setNth r (snd p) t)
  | None => g
  end.

(** [uniqueMatches.forEach(...)]: the [k]-th replaced cell takes the
    [k]-th draw. *)
Fixpoint replaceAll (g : Grid) (ms : list Cell) (rnd : nat -> Q) (k : nat) (now : Z)
  : Grid :=
  match ms with
  | [] => g
  | p :: ms' => replaceAll (setTile g p (newTile p (rnd k) now)) ms' rnd (S k) now
  end.

(** The state cells of the component. *)
Record PuzzleState : Type := mkPuzzle {
  grid : Grid;
  score : Z;
  selectedTile : option Cell;
  moves : Z
}.

(** Calls made on the host. *)
Inductive Callback : Type :=
| onScoreChange (newScore : Z)
| onWin
| onLose.

(** [checkMatches()]: scan rows, scan columns, and when something matched
    add the points, report the new score and replace the matched tiles. *)
Definition checkMatches (s : PuzzleState) (coinValue : Z) (rnd : nat -> Q) (now : Z)
  : option (PuzzleState * list Callback) :=
  let newGrid := grid s in
  h <- scan newGrid horizontalWindows ([], false) ;;
  v <- scan newGrid verticalWindows h ;;
  let '(toRemove, matchesFound) := v in
  if matchesFound then
    let uniqueMatches := unique toRemove in
    let points := (Z.of_nat (List.length uniqueMatches) * coinValue)%Z in
    let newScore := (score s + points)%Z in
    Some (mkPuzzle (replaceAll newGrid uniqueMatches rnd 0 now) newScore
                   (selectedTile s) (moves s),
          [onScoreChange newScore])
  else Some (s, []).

(** *** Vocabulary of the statements about [checkMatches] *)

(** A 6 x 6 grid. *)
Definition grid6x6 (g : Grid) : Prop :=
  List.length g = GRID_SIZE /\ Forall (fun r => List.length r = GRID_SIZE) g.

(** Three consecutive cells of one row or of one column of the grid. *)
Inductive isRun3 : Window -> Prop :=
| run_horizontal (r c : nat) :
    r < GRID_SIZE -> c + 2 < GRID_SIZE ->
    isRun3 ((r, c), (r, c + 1), (r, c + 2))
| run_vertical (r c : nat) :
    r + 2 < GRID_SIZE -> c < GRID_SIZE ->
    isRun3 ((r, c), (r + 1, c), (r + 2, c)).

(** The three cells carry tiles of one colour. *)
Definition monochrome (g : Grid) (w : Window) : Prop :=
  let '(a, b, c) := w in
  exists ta tb tc,
    tileAt g a = Some ta /\ tileAt g b = Some tb /\ tileAt g c = Some tc
    /\ color ta = color tb /\ color ta = color tc.

(** [w0] is a run of three equal colours and the grid holds no other one
    (so no run of four or more either, which would contain two). *)
Definition onlyRun (g : Grid) (w0 : Window) : Prop :=
  isRun3 w0 /\ monochrome g w0
  /\ forall w, isRun3 w -> w <> w0 -> ~ monochrome g w.

(** What the [if] of the scan answers, when it answers. *)
Definition matchb (g : Grid) (w : Window) : bool :=
  match sameColor3 g w with Some b => b | None => false end.

(** A grid with the single run (1,1),(1,2),(1,3). *)
Definition rowOf (cs : list string) (r : nat) : list Tile :=
  map (fun c => mkTile c (showNat r)) cs.

Definition sampleGrid : Grid :=
  let a := "#e8d5b7" in let b := "#b8d4e3" in let c := "#d4e8d4" in
  [ rowOf [a; b; a; b; a; b] 0;
    rowOf [b; c; c; c; b; a] 1;
    rowOf [a; b; a; b; a; b] 2;
    rowOf [b; a; b; a; b; a] 3;
    rowOf [a; b; a; b; a; b] 4;
    rowOf [b; a; b; a; b; a] 5 ].

End Puzzle.

(** ** Runner engine: the tick of [startGameLoop]

    The engine is a React component; its [useState] cells are the fields of
    [RunnerState].  One firing of the 50 ms interval is [tick]: the queued
    state updates are applied in the order in which the callback issues
    them. *)

Module Runner.
Local Open Scope string_scope.
Local Open Scope list_scope.
Local Open Scope Z_scope.

Definition PLAYER_SIZE : Q := 50 # 1.
Definition LANE_HEIGHT : Z := 100.
Definition NUM_LANES : Z := 3.

Inductive ObjectType : Type := obstacle | coin.

Record GameObject : Type := mkObject {
  id : string;
  x : Q;
  y : Z;
  type : ObjectType;
  lane : Z
}.

Record RunnerState : Type := mkRunner {
  playerLane : Z;
  score : Z;
  lives : Z;
  distance : Z;
  objects : list GameObject;
  objectIdCounter : nat;
  (** [gameLoopRef.current] holds a live interval *)
  looping : bool
}.

(** Calls made on the host. *)
Inductive Callback : Type :=
| onScoreChange (newScore : Z)
| onLivesChange (newLives : Z)
| onWin
| onLose.

(** What the component reads from outside: the level and the window width. *)
Record Env : Type := mkEnv {
  level : Levels.Level;
  SCREEN_WIDTH : Q
}.

(** The values [Math.random()] returns during one tick: the obstacle test,
    the obstacle lane, the coin test, the coin lane (a lane draw is only
    consumed when its test passes). *)
Record Draws : Type := mkDraws {
  rObstacle : Q;
  rObstacleLane : Q;
  rCoin : Q;
  rCoinLane : Q
}.

Definition initial : RunnerState := mkRunner 1 0 5 0 [] 0 true.

Definition targetDistance (e : Env) : Z := Levels.targetScore (level e) * 10.

Definition setScore (s : RunnerState) (v : Z) : RunnerState :=
  mkRunner (playerLane s) v (lives s) (distance s) (objects s)
           (objectIdCounter s) (looping s).

Definition setLives (s : RunnerState) (v : Z) : RunnerState :=
  mkRunner (playerLane s) (score s) v (distance s) (objects s)
           (objectIdCounter s) (looping s).

Definition setDistance (s : RunnerState) (v : Z) : RunnerState :=
  mkRunner (playerLane s) (score s) (lives s) v (objects s)
           (objectIdCounter s) (looping s).

Definition setObjects (s : RunnerState) (v : list GameObject) : RunnerState :=
  mkRunner (playerLane s) (score s) (lives s) (distance s) v
           (objectIdCounter s) (looping s).

Definition stopGameLoop (s : RunnerState) : RunnerState :=
  mkRunner (playerLane s) (score s) (lives s) (distance s) (objects s)
           (objectIdCounter s) false.

(** The updater handed to [setDistance]. *)
Definition advanceDistance (e : Env) (s : RunnerState)
  : RunnerState * list Callback :=
  let newDistance := distance s + 1 in
  let '(s1, log1) :=
    if newDistance mod 10 =? 0 then
      let newScore := newDistance / 10 in
      (setScore s newScore, [onScoreChange newScore])
    else (s, []) in
  let '(s2, log2) :=
    if newDistance >=? targetDistance e then (stopGameLoop s1, [onWin])
    else (s1, []) in
  (setDistance s2 newDistance, log1 ++ log2).

(** [spawnObstacle] / [spawnCoin] for a lane draw [r]. *)
Definition spawn (e : Env) (s : RunnerState) (t : ObjectType) (r : Q) : RunnerState :=
  let l := Qfloor (r * inject_Z NUM_LANES) in
  let prefix := match t with obstacle => "obstacle-" | coin => "coin-" end in
  let o := mkObject (prefix ++ Js.showNat (objectIdCounter s))%string
                    (SCREEN_WIDTH e) (l * LANE_HEIGHT) t l in
  mkRunner (playerLane s) (score s) (lives s) (distance s) (objects s ++ [o])
           (S (objectIdCounter s)) (looping s).

Definition handleObstacleCollision (s : RunnerState) : RunnerState * list Callback :=
  let newLives := Z.max 0 (lives s - 1) in
  let s1 := setLives s newLives in
  if newLives =? 0 then (stopGameLoop s1, [onLivesChange newLives; onLose])
  else (s1, [onLivesChange newLives]).

Definition handleCoinCollection (e : Env) (s : RunnerState)
  : RunnerState * list Callback :=
  let newScore := score s + Levels.coinValue (level e) in
  (setScore s newScore, [onScoreChange newScore]).

(** [obj.x < PLAYER_SIZE + 20 && obj.x > -20 && obj.lane === playerLane] *)
Definition hitsPlayer (pl : Z) (o : GameObject) : bool :=
  Js.Qltb (x o) (PLAYER_SIZE + (20 # 1)) && Js.Qltb (-20 # 1) (x o) && (lane o =? pl).

(** [updated.forEach(...)] of the [setObjects] updater. *)
Fixpoint collide (e : Env) (pl : Z) (os : list GameObject) (s : RunnerState)
  : RunnerState * list Callback :=
  match os with
  | [] => (s, [])
  | o :: os' =>
      let '(s1, log1) :=
        if hitsPlayer pl o then
          match type o with
          | obstacle => handleObstacleCollision s
          | coin => handleCoinCollection e s
          end
        else (s, []) in
      let '(s2, log2) := collide e pl os' s1 in
      (s2, log1 ++ log2)
  end.

Definition moveLeft (o : GameObject) : GameObject :=
  mkObject (id o) (x o - (5 # 1))%Q (y o) (type o) (lane o).

(** The updater handed to [setObjects]: move, drop what left the screen,
    resolve the collisions, keep what did not collide. *)
Definition moveObjects (e : Env) (s : RunnerState) : RunnerState * list Callback :=
  let pl := playerLane s in
  let updated :=
    filter (fun o => Js.Qltb (-100 # 1) (x o)) (map moveLeft (objects s)) in
  let '(s1, log) := collide e pl updated s in
  (setObjects s1 (filter (fun o => negb (hitsPlayer pl o)) updated), log).

(** One firing of the interval callback. *)
Definition tick (e : Env) (d : Draws) (s : RunnerState) : RunnerState * list Callback :=
  let '(s1, log1) := advanceDistance e s in
  let s2 :=
    if Js.Qltb (rObstacle d) (inject_Z (Levels.obstacles (level e)) * (2 # 10000))
    then spawn e s1 obstacle (rObstacleLane d) else s1 in
  let s3 :=
    if Js.Qltb (rCoin d) (15 # 1000) then spawn e s2 coin (rCoinLane d) else s2 in
  let '(s4, log4) := moveObjects e s3 in
  (s4, log1 ++ log4).

(** The interval fires only while it is installed. *)
Definition step (e : Env) (d : Draws) (s : RunnerState) : RunnerState * list Callback :=
  if looping s then tick e d s else (s, []).

Fixpoint run (e : Env) (ds : list Draws) (s : RunnerState)
  : RunnerState * list Callback :=
  match ds with
  | [] => (s, [])
  | d :: ds' =>
      let '(s1, log1) := step e d s in
      let '(s2, log2) := run e ds' s1 in
      (s2, log1 ++ log2)
  end.

(** [moveLane(direction)]; the effect that depends on [playerLane]
    reinstalls the interval. *)
Inductive Direction : Type := up | down.

Definition moveLane (s : RunnerState) (dir : Direction) : RunnerState :=
  let pl :=
    match dir with
    | up => if playerLane s >? 0 then playerLane s - 1 else playerLane s
    | down => if playerLane s <? NUM_LANES - 1 then playerLane s + 1 else playerLane s
    end in
  mkRunner pl (score s) (lives s) (distance s) (objects s) (objectIdCounter s)
           (if pl =? playerLane s then looping s else true).

(** *** A concrete session: level 1 on a 400-wide window *)

Definition level1 : Levels.Level :=
  Levels.mkLevel 1 "Getting Started" Levels.easy 60 100 5 3 10 "#87CEEB" true false.

Definition env400 : Env := mkEnv level1 (400 # 1).

(** Nothing spawns. *)
Definition quiet : Draws := mkDraws (1 # 2) (1 # 2) (1 # 2) (1 # 2).
(** A coin spawns in the middle lane, the player's. *)
Definition coinAhead : Draws := mkDraws (1 # 2) (1 # 2) (1 # 100) (1 # 2).

(** A coin spawns on the first tick, then [n] quiet ticks follow. *)
Definition session (n : nat) : list Draws := coinAhead :: repeat quiet n.

End Runner.

(** ** Input system: the gesture recogniser [InputManager]

    Touch coordinates and distance thresholds are rationals, timestamps
    ([Date.now()]) are integer milliseconds and are handed to every handler
    by the caller.  A comparison of [Math.sqrt(dx*dx + dy*dy)] with a
    threshold is decided on the squares, as over the reals.

    The timers of the host ([setTimeout]/[clearTimeout]) are a table of
    pending entries next to the manager; a timer handle is a positive
    number.  Every call of the private [emit] is recorded as an output of
    the handler that made it. *)

Module Input.
Local Open Scope list_scope.
Local Open Scope Z_scope.

Inductive InputEventType : Type :=
| tap | double_tap | long_press
| swipe_up | swipe_down | swipe_left | swipe_right
| drag_start | drag_move | drag_end.

Record InputEvent : Type := mkEvent {
  type : InputEventType;
  position : Q * Q;
  timestamp : Z;
  deltaX : option Q;
  deltaY : option Q;
  duration : option Z
}.

Record InputConfig : Type := mkConfig {
  doubleTapThreshold : Z;
  longPressThreshold : Z;
  swipeThreshold : Q;
  swipeVelocityThreshold : Q;
  dragThreshold : Q
}.

Definition DEFAULT_INPUT_CONFIG : InputConfig :=
  mkConfig 300 500 (50 # 1) (3 # 10) (10 # 1).

Record TouchState : Type := mkTouch {
  startX : Q;
  startY : Q;
  currentX : Q;
  currentY : Q;
  startTime : Z;
  lastTapTime : Z;
  isDragging : bool;
  longPressTriggered : bool;
  longPressTimer : option nat
}.

(** A pending long-press timer: its handle, the [x], [y] its callback
    closes over, and the time from which it may fire. *)
Record Timer : Type := mkTimer {
  handle : nat;
  timerX : Q;
  timerY : Q;
  due : Z
}.

(** The manager ([config], [touchState], [listeners]) together with the
    timer table of the host. *)
Record World : Type := mkWorld {
  config : InputConfig;
  touchState : option TouchState;
  listeners : list (InputEventType * nat);
  timers : list Timer;
  nextHandle : nat
}.

(** [new InputManager(config)] on a host with no timer pending. *)
Definition newWorld (c : InputConfig) : World := mkWorld c None [] [] 1.

Definition eventType_eqb (a b : InputEventType) : bool :=
  match a, b with
  | tap, tap | double_tap, double_tap | long_press, long_press
  | swipe_up, swipe_up | swipe_down, swipe_down
  | swipe_left, swipe_left | swipe_right, swipe_right
  | drag_start, drag_start | drag_move, drag_move | drag_end, drag_end => true
  | _, _ => false
  end.

(** [on] / [off]: a callback is known by a number; the listeners of a type
    form a set. *)
Definition sameListener (a b : InputEventType * nat) : bool :=
  eventType_eqb (fst a) (fst b) && Nat.eqb (snd a) (snd b).

Definition on (w : World) (t : InputEventType) (cb : nat) : World :=
  mkWorld (config w) (touchState w)
          (if existsb (sameListener (t, cb)) (listeners w) then listeners w
           else listeners w ++ [(t, cb)])
          (timers w) (nextHandle w).

Definition off (w : World) (t : InputEventType) (cb : nat) : World :=
  mkWorld (config w) (touchState w)
          (filter (fun l => negb (sameListener (t, cb) l)) (listeners w))
          (timers w) (nextHandle w).

(** Truthiness of [touchState?.longPressTimer]: [null] and 0 are falsy. *)
Definition truthy (t : option nat) : bool :=
  match t with
  | Some (S _) => true
  | _ => false
  end.

Definition clearTimeout (ts : list Timer) (h : nat) : list Timer :=
  filter (fun t => negb (Nat.eqb (handle t) h)) ts.

(** [Math.sqrt(dx*dx + dy*dy) > t] *)
Definition distGt (dx dy t : Q) : bool :=
  if Js.Qltb t 0 then true else Js.Qltb (t * t) (dx * dx + dy * dy).

(** [Math.sqrt(dx*dx + dy*dy) < t] *)
Definition distLt (dx dy t : Q) : bool :=
  if Qle_bool t 0 then false else Js.Qltb (dx * dx + dy * dy) (t * t).

(** [distance / duration > v]: for a positive duration the division is
    moved to the other side; a zero duration divides to +Infinity (to NaN
    when the distance is 0 as well); a negative duration flips the
    comparison. *)
Definition velocityGt (dx dy : Q) (duration : Z) (v : Q) : bool :=
  if 0 <? duration then distGt dx dy (v * inject_Z duration)
  else if duration =? 0 then Js.Qltb 0 (dx * dx + dy * dy)
  else distLt dx dy (v * inject_Z duration).

Definition Qabs_lt (a b : Q) : bool := Js.Qltb (Qabs a) (Qabs b).

Definition detectSwipeDirection (dX dY : Q) : InputEventType :=
  if Qabs_lt dY dX then (if Js.Qltb 0 dX then swipe_right else swipe_left)
  else (if Js.Qltb 0 dY then swipe_down else swipe_up).

(** [handleTouchStart(x, y)] *)
Definition handleTouchStart (w : World) (x y : Q) (now : Z)
  : World * list InputEvent :=
  let stale := match touchState w with Some ts => longPressTimer ts | None => None end in
  let timers1 :=
    match stale with
    | Some h => if truthy stale then clearTimeout (timers w) h else timers w
    | None => timers w
    end in
  let lastTap :=
    match touchState w with
    | Some ts => if lastTapTime ts =? 0 then 0 else lastTapTime ts
    | None => 0
    end in
  let h := nextHandle w in
  let ts := mkTouch x y x y now lastTap false false (Some h) in
  (mkWorld (config w) (Some ts) (listeners w)
           (timers1 ++ [mkTimer h x y (now + longPressThreshold (config w))])
           (S h),
   []).

(** The callback of the long-press timer with handle [h], run by the host
    at time [now]; a handle that is not pending (or not yet due) does
    nothing. *)
Definition fireTimer (w : World) (h : nat) (now : Z) : World * list InputEvent :=
  match find (fun t => Nat.eqb (handle t) h) (timers w) with
  | None => (w, [])
  | Some t =>
      if now <? due t then (w, [])
      else
        let timers1 := clearTimeout (timers w) h in
        match touchState w with
        | Some ts =>
            if negb (isDragging ts) then
              let ts1 := mkTouch (startX ts) (startY ts) (currentX ts) (currentY ts)
                                 (startTime ts) (lastTapTime ts) (isDragging ts)
                                 true (longPressTimer ts) in
              (mkWorld (config w) (Some ts1) (listeners w) timers1 (nextHandle w),
               [mkEvent long_press (timerX t, timerY t) now None None
                        (Some (now - startTime ts))])
            else (mkWorld (config w) (Some ts) (listeners w) timers1 (nextHandle w), [])
        | None => (mkWorld (config w) None (listeners w) timers1 (nextHandle w), [])
        end
  end.

(** [handleTouchMove(x, y)] *)
Definition handleTouchMove (w : World) (x y : Q) (now : Z)
  : World * list InputEvent :=
  match touchState w with
  | None => (w, [])
  | Some ts =>
      let dX := (x - currentX ts)%Q in
      let dY := (y - currentY ts)%Q in
      let totalDeltaX := (x - startX ts)%Q in
      let totalDeltaY := (y - startY ts)%Q in
      let ts1 := mkTouch (startX ts) (startY ts) x y (startTime ts) (lastTapTime ts)
                         (isDragging ts) (longPressTriggered ts) (longPressTimer ts) in
      let '(ts2, timers2, out2) :=
        if negb (isDragging ts1)
           && distGt totalDeltaX totalDeltaY (dragThreshold (config w)) then
          let '(timer3, timers3) :=
            match longPressTimer ts1 with
            | Some h => if truthy (longPressTimer ts1)
                        then (None, clearTimeout (timers w) h)
                        else (longPressTimer ts1, timers w)
            | None => (None, timers w)
            end in
          (mkTouch (startX ts1) (startY ts1) (currentX ts1) (currentY ts1)
                   (startTime ts1) (lastTapTime ts1) true (longPressTriggered ts1)
                   timer3,
           timers3,
           [mkEvent drag_start (x, y) now (Some totalDeltaX) (Some totalDeltaY) None])
        else (ts1, timers w, []) in
      let out3 :=
        if isDragging ts2
        then [mkEvent drag_move (x, y) now (Some dX) (Some dY) None]
        else [] in
      (mkWorld (config w) (Some ts2) (listeners w) timers2 (nextHandle w),
       out2 ++ out3)
  end.

(** The body of [handleTouchEnd] up to its last statement: the timer
    field is nulled, one branch of the [if]/[else if] chain runs, and the
    tap branches write [lastTapTime] into the TouchState. *)
Definition endGesture (c : InputConfig) (ts : TouchState) (x y : Q) (now : Z)
  : TouchState * list InputEvent :=
  let dur := now - startTime ts in
  let dX := (x - startX ts)%Q in
  let dY := (y - startY ts)%Q in
  let ts1 := mkTouch (startX ts) (startY ts) (currentX ts) (currentY ts)
                     (startTime ts) (lastTapTime ts) (isDragging ts)
                     (longPressTriggered ts)
                     (if truthy (longPressTimer ts) then None else longPressTimer ts) in
  let withLastTap (v : Z) :=
    mkTouch (startX ts1) (startY ts1) (currentX ts1) (currentY ts1)
            (startTime ts1) v (isDragging ts1) (longPressTriggered ts1)
            (longPressTimer ts1) in
  if isDragging ts1 then
    (ts1, [mkEvent drag_end (x, y) now (Some dX) (Some dY) None])
  else if distGt dX dY (swipeThreshold c) && (dur <? 500) then
    if velocityGt dX dY dur (swipeVelocityThreshold c) then
      (ts1, [mkEvent (detectSwipeDirection dX dY) (x, y) now (Some dX) (Some dY) None])
    else (ts1, [])
  else if negb (longPressTriggered ts1) && distLt dX dY (dragThreshold c) then
    let timeSinceLastTap := now - lastTapTime ts1 in
    if timeSinceLastTap <? doubleTapThreshold c then
      (withLastTap 0, [mkEvent double_tap (x, y) now None None None])
    else
      (withLastTap now, [mkEvent tap (x, y) now None None None])
  else (ts1, []).

(** [handleTouchEnd(x, y)]: the pending timer is cleared, the gesture is
    classified, and the last statement, [this.touchState = null], drops the
    TouchState that [endGesture] has just updated. *)
Definition handleTouchEnd (w : World) (x y : Q) (now : Z)
  : World * list InputEvent :=
  match touchState w with
  | None => (w, [])
  | Some ts =>
      let timers1 :=
        match longPressTimer ts with
        | Some h => if truthy (longPressTimer ts) then clearTimeout (timers w) h
                    else timers w
        | None => timers w
        end in
      let '(_, out) := endGesture (config w) ts x y now in
      (mkWorld (config w) None (listeners w) timers1 (nextHandle w), out)
  end.

(** [clear()] *)
Definition clear (w : World) : World * list InputEvent :=
  let timers1 :=
    match touchState w with
    | Some ts =>
        match longPressTimer ts with
        | Some h => if truthy (longPressTimer ts) then clearTimeout (timers w) h
                    else timers w
        | None => timers w
        end
    | None => timers w
    end in
  (mkWorld (config w) None [] timers1 (nextHandle w), []).

(** What can happen to a manager: the calls of its client and the firing
    of a timer by the host. *)
Inductive Action : Type :=
| TouchStart (x y : Q) (now : Z)
| TouchMove (x y : Q) (now : Z)
| TouchEnd (x y : Q) (now : Z)
| TimerFires (h : nat) (now : Z)
| Clear
| On (t : InputEventType) (cb : nat)
| Off (t : InputEventType) (cb : nat).

Definition step (w : World) (a : Action) : World * list InputEvent :=
  match a with
  | TouchStart x y now => handleTouchStart w x y now
  | TouchMove x y now => handleTouchMove w x y now
  | TouchEnd x y now => handleTouchEnd w x y now
  | TimerFires h now => fireTimer w h now
  | Clear => clear w
  | On t cb => (on w t cb, [])
  | Off t cb => (off w t cb, [])
  end.

Fixpoint run (w : World) (acts : list Action) : World * list InputEvent :=
  match acts with
  | [] => (w, [])
  | a :: acts' =>
      let '(w1, out1) := step w a in
      let '(w2, out2) := run w1 acts' in
      (w2, out1 ++ out2)
  end.

(** The event types a sequence of actions emits, in order. *)
Definition emits (w : World) (acts : list Action) : list InputEventType :=
  map type (snd (run w acts)).

(** *** Vocabulary of the statements *)

(** The handle [h] is pending on the host. *)
Definition pending (w : World) (h : nat) : Prop :=
  exists t, In t (timers w) /\ handle t = h.

(** The action drops the current TouchState object. *)
Definition discards (a : Action) : bool :=
  match a with
  | TouchStart _ _ _ | TouchEnd _ _ _ | Clear => true
  | _ => false
  end.

(** The point (x, y) lies farther than [t] from (x0, y0). *)
Definition fartherThan (t x0 y0 x y : Q) : Prop :=
  (t < 0 \/ t * t < (x - x0) * (x - x0) + (y - y0) * (y - y0))%Q.

(** The point (x, y) lies nearer than [t] to (x0, y0). *)
Definition nearerThan (t x0 y0 x y : Q) : Prop :=
  (0 < t /\ (x - x0) * (x - x0) + (y - y0) * (y - y0) < t * t)%Q.

(** A finger is down at a TouchState started at (x0, y0), not dragging. *)
Definition pressedAt (w : World) (x0 y0 : Q) : Prop :=
  exists ts, touchState w = Some ts /\ isDragging ts = false
             /\ startX ts = x0 /\ startY ts = y0.

(** A finger is down and the drag has begun. *)
Definition dragging (w : World) : Prop :=
  exists ts, touchState w = Some ts /\ isDragging ts = true.

(** Every pending timer is the long-press timer of the live TouchState,
    which has not begun to drag; handles are positive and below the next
    one the host will hand out. *)
Definition timersOwned (w : World) : Prop :=
  (1 <= nextHandle w)%nat
  /\ (forall ts h, touchState w = Some ts -> longPressTimer ts = Some h ->
        (1 <= h < nextHandle w)%nat)
  /\ (forall t, In t (timers w) ->
        exists ts, touchState w = Some ts
                   /\ longPressTimer ts = Some (handle t)
                   /\ isDragging ts = false).

(** The times at which the fingers of a sequence of actions are lifted. *)
Fixpoint liftTimes (acts : list Action) : list Z :=
  match acts with
  | [] => []
  | TouchEnd _ _ now :: acts' => now :: liftTimes acts'
  | _ :: acts' => liftTimes acts'
  end.

(** Between touch start and touch end the client moves the finger and
    the host may run timer callbacks. *)
Definition duringTouch (a : Action) : bool :=
  match a with
  | TouchMove _ _ _ | TimerFires _ _ => true
  | _ => false
  end.

(** The action is a move to a point farther than [t] from (x0, y0). *)
Definition farMove (t x0 y0 : Q) (a : Action) : Prop :=
  match a with
  | TouchMove x y _ => fartherThan t x0 y0 x y
  | _ => False
  end.

Definition notLongPress (t : InputEventType) : bool :=
  negb (eventType_eqb t long_press).

Definition moveOf (m : Q * Q * Z) : Action :=
  let '(x, y, now) := m in TouchMove x y now.

(** Three moves from (100, 100): 5 px away, then 20 px, then farther. *)
Definition sampleMoves : list (Q * Q * Z) :=
  [(105 # 1, 100 # 1, 1010); (120 # 1, 100 # 1, 1020); (130 # 1, 110 # 1, 1030)].

(** A quick tap at (x, y): down at [t], up 40 ms later, no move. *)
Definition quickTap (x y : Q) (t : Z) : list Action :=
  [TouchStart x y t; TouchEnd x y (t + 40)].

End Input.

(** ** Collision and numeric helpers: [app/game/runtime/physics2d.ts]

    As in [Physics], numbers are read as reals.  A quotient is meaningful
    when its divisor is not 0 (the host language then yields an infinity or
    NaN, which are not real numbers). *)

Module Geometry.
Local Open Scope R_scope.

Definition Rltb (a b : R) : bool := if Rlt_dec a b then true else false.
Definition Rleb (a b : R) : bool := if Rle_dec a b then true else false.

(** [interface AABB]: top-left corner and size. *)
Record AABB : Type := mkAABB { x : R; y : R; width : R; height : R }.

(** [interface Circle]: centre ([x], [y] in the source) and radius. *)
Record Circle : Type := mkCircle { cx : R; cy : R; radius : R }.

Definition checkAABBCollision (a b : AABB) : bool :=
  Rltb (x a) (x b + width b) && Rltb (x b) (x a + width a)
  && Rltb (y a) (y b + height b) && Rltb (y b) (y a + height a).

Definition checkCircleCollision (a b : Circle) : bool :=
  let dx := cx a - cx b in
  let dy := cy a - cy b in
  let distance := sqrt (dx * dx + dy * dy) in
  Rltb distance (radius a + radius b).

Definition checkCircleAABBCollision (circle : Circle) (box : AABB) : bool :=
  let closestX := Rmax (x box) (Rmin (cx circle) (x box + width box)) in
  let closestY := Rmax (y box) (Rmin (cy circle) (y box + height box)) in
  let dx := cx circle - closestX in
  let dy := cy circle - closestY in
  let distance := sqrt (dx * dx + dy * dy) in
  Rltb distance (radius circle).

Definition pointInAABB (px py : R) (box : AABB) : bool :=
  Rleb (x box) px && Rleb px (x box + width box)
  && Rleb (y box) py && Rleb py (y box + height box).

Definition pointInCircle (px py : R) (circle : Circle) : bool :=
  let dx := px - cx circle in
  let dy := py - cy circle in
  let distance := sqrt (dx * dx + dy * dy) in
  Rleb distance (radius circle).

Definition getAABBCenter (box : AABB) : Physics.Vector2D :=
  Physics.mkVector2D (x box + width box / 2) (y box + height box / 2).

Definition moveAABB (box : AABB) (velocity : Physics.Vector2D) (deltaTime : R) : AABB :=
  mkAABB (x box + Physics.x velocity * deltaTime)
         (y box + Physics.y velocity * deltaTime)
         (width box) (height box).

Definition clampAABB (box bounds : AABB) : AABB :=
  mkAABB (Rmax (x bounds) (Rmin (x box) (x bounds + width bounds - width box)))
         (Rmax (y bounds) (Rmin (y box) (y bounds + height bounds - height box)))
         (width box) (height box).

(** [PhysicsBody.bounceOffBoundary(bounds)]: the x pass, then the y pass. *)
Definition bounceOffBoundary (b : Physics.PhysicsBody) (bounds : AABB)
  : Physics.PhysicsBody :=
  let px := Physics.x (Physics.position b) in
  let py := Physics.y (Physics.position b) in
  let vx := Physics.x (Physics.velocity b) in
  let vy := Physics.y (Physics.velocity b) in
  let '(px1, vx1) :=
    if Rltb px (x bounds) || Rltb (x bounds + width bounds) px
    then (Rmax (x bounds) (Rmin px (x bounds + width bounds)),
          vx * - Physics.restitution b)
    else (px, vx) in
  let '(py1, vy1) :=
    if Rltb py (y bounds) || Rltb (y bounds + height bounds) py
    then (Rmax (y bounds) (Rmin py (y bounds + height bounds)),
          vy * - Physics.restitution b)
    else (py, vy) in
  Physics.mkBody (Physics.mkVector2D px1 py1) (Physics.mkVector2D vx1 vy1)
                 (Physics.acceleration b) (Physics.mass b) (Physics.friction b)
                 (Physics.restitution b).

(** [Vector2D.distanceTo], [Vector2D.lerp] *)
Definition distanceTo (this other : Physics.Vector2D) : R :=
  let dx := Physics.x this - Physics.x other in
  let dy := Physics.y this - Physics.y other in
  sqrt (dx * dx + dy * dy).

Definition vlerp (a b : Physics.Vector2D) (t : R) : Physics.Vector2D :=
  Physics.mkVector2D (Physics.x a + (Physics.x b - Physics.x a) * t)
                     (Physics.y a + (Physics.y b - Physics.y a) * t).

Definition clamp (value min max : R) : R := Rmax min (Rmin value max).

Definition lerp (a b t : R) : R := a + (b - a) * t.

Definition map (value inMin inMax outMin outMax : R) : R :=
  ((value - inMin) * (outMax - outMin)) / (inMax - inMin) + outMin.

Definition toRadians (degrees : R) : R := degrees * (PI / 180).

Definition toDegrees (radians : R) : R := radians * (180 / PI).

Definition distance (x1 y1 x2 y2 : R) : R :=
  let dx := x2 - x1 in
  let dy := y2 - y1 in
  sqrt (dx * dx + dy * dy).

(** [randomInt(min, max)] for a draw [r] of [Math.random()] and integer
    bounds: [Math.floor(r * (max - min + 1)) + min]. *)
Definition randomInt (r : Q) (min max : Z) : Z :=
  (Qfloor (r * inject_Z (max - min + 1)) + min)%Z.

End Geometry.

(** ** Render queue: [app/game/runtime/rendering.ts]

    The queue keeps its items in a [Map] keyed by id, which iterates in
    insertion order; it is a list of (key, item) pairs with distinct
    keys.  [getSorted] sorts a copy with [Array.prototype.sort], a stable
    sort, under the comparator of the source. *)

Module RenderQueue.
Local Open Scope string_scope.
Local Open Scope list_scope.

Inductive RenderLayer : Type := BACKGROUND | GAME | FOREGROUND | UI.

(** The numeric value of the [enum] member. *)
Definition layerValue (l : RenderLayer) : Q :=
  match l with
  | BACKGROUND => 0
  | GAME => 1
  | FOREGROUND => 2
  | UI => 3
  end.

Inductive ShapeType : Type := rect | circle | line.
Inductive Align : Type := align_left | align_center | align_right.

(** What distinguishes a [Sprite], a [Shape] and a [TextElement]. *)
Inductive Content : Type :=
| SpriteContent (width height : Q) (rotation : option Q)
| ShapeContent (type : ShapeType) (width height radius : option Q)
               (color : string) (rotation : option Q)
| TextContent (text : string) (fontSize : option Q)
              (color fontFamily : option string) (align : option Align).

(** [RenderableItem]: the fields common to the three kinds, then the
    rest; an optional field that is absent is [None]. *)
Record RenderableItem : Type := mkItem {
  id : string;
  x : Q;
  y : Q;
  opacity : option Q;
  layer : option RenderLayer;
  zIndex : option Q;
  content : Content
}.

Definition Queue : Type := list (string * RenderableItem).

Definition empty : Queue := [].

(** [Map.prototype.set]: an existing key keeps its place and takes the new
    value; a new key goes last. *)
Fixpoint mapSet (q : Queue) (k : string) (v : RenderableItem) : Queue :=
  match q with
  | [] => [(k, v)]
  | (k', v') :: q' =>
      if String.eqb k' k then (k, v) :: q' else (k', v') :: mapSet q' k v
  end.

Definition mapGet (q : Queue) (k : string) : option RenderableItem :=
  match find (fun kv => String.eqb (fst kv) k) q with
  | Some kv => Some (snd kv)
  | None => None
  end.

Definition add (q : Queue) (item : RenderableItem) : Queue := mapSet q (id item) item.

Definition remove (q : Queue) (k : string) : Queue :=
  filter (fun kv => negb (String.eqb (fst kv) k)) q.

Definition clear (q : Queue) : Queue := [].

Definition count (q : Queue) : nat := List.length q.

Definition values (q : Queue) : list RenderableItem := List.map snd q.

(** [(a as any).layer ?? RenderLayer.GAME], [(a as any).zIndex ?? 0] *)
Definition layerOf (a : RenderableItem) : Q :=
  layerValue (match layer a with Some l => l | None => GAME end).

Definition zIndexOf (a : RenderableItem) : Q :=
  match zIndex a with Some z => z | None => 0 end.

(** The comparator handed to [sort]. *)
Definition compareItems (a b : RenderableItem) : Q :=
  let layerA := layerOf a in
  let layerB := layerOf b in
  if negb (Qeq_bool layerA layerB) then layerA - layerB
  else zIndexOf a - zIndexOf b.

(** A stable sort under a comparator: every item goes in front of the
    first item it does not come after. *)
Fixpoint insertItem (a : RenderableItem) (l : list RenderableItem)
  : list RenderableItem :=
  match l with
  | [] => [a]
  | b :: l' =>
      if Qle_bool (compareItems a b) 0 then a :: b :: l'
      else b :: insertItem a l'
  end.

Fixpoint sortItems (l : list RenderableItem) : list RenderableItem :=
  match l with
  | [] => []
  | a :: l' => insertItem a (sortItems l')
  end.

Definition getSorted (q : Queue) : list RenderableItem := sortItems (values q).

(** *** Vocabulary of the statements *)

(** [a] may stand before [b]: lower layer, or same layer and a z-index
    that is not higher. *)
Definition ordered (a b : RenderableItem) : Prop :=
  (layerOf a < layerOf b \/ (layerOf a == layerOf b /\ zIndexOf a <= zIndexOf b))%Q.

(** The items drawn at layer value [l] and z-index [z]. *)
Definition drawnAt (l z : Q) (a : RenderableItem) : bool :=
  Qeq_bool (layerOf a) l && Qeq_bool (zIndexOf a) z.

(** The calls a client can make. *)
Inductive Call : Type :=
| CallAdd (item : RenderableItem)
| CallRemove (k : string)
| CallClear.

Definition call (q : Queue) (c : Call) : Queue :=
  match c with
  | CallAdd item => add q item
  | CallRemove k => remove q k
  | CallClear => clear q
  end.

Definition run (cs : list Call) : Queue := fold_left call cs empty.

End RenderQueue.

(** ** Easing functions: [Easing] of [app/game/runtime/rendering.ts]

    Over the rationals; the decimal constants of [bounce] (7.5625, 2.75,
    ...) are taken exactly. *)

Module Easing.
Local Open Scope Q_scope.

Definition linear (t : Q) : Q := t.
Definition easeIn (t : Q) : Q := t * t.
Definition easeOut (t : Q) : Q := t * (2 - t).
Definition easeInOut (t : Q) : Q :=
  if Js.Qltb t (1 # 2) then 2 * t * t else -(1) + (4 - 2 * t) * t.
Definition easeInCubic (t : Q) : Q := t * t * t.
(** [(--t) * t * t + 1] *)
Definition easeOutCubic (t : Q) : Q := let t1 := t - 1 in t1 * t1 * t1 + 1.
Definition easeInOutCubic (t : Q) : Q :=
  if Js.Qltb t (1 # 2) then 4 * t * t * t
  else (t - 1) * (2 * t - 2) * (2 * t - 2) + 1.
(** In each branch [t -= c] updates [t] before the second factor reads it. *)
Definition bounce (t : Q) : Q :=
  if Js.Qltb t (1 / (275 # 100)) then (75625 # 10000) * t * t
  else if Js.Qltb t (2 / (275 # 100)) then
    let t1 := t - (15 # 10) / (275 # 100) in (75625 # 10000) * t1 * t1 + (75 # 100)
  else if Js.Qltb t ((25 # 10) / (275 # 100)) then
    let t1 := t - (225 # 100) / (275 # 100) in (75625 # 10000) * t1 * t1 + (9375 # 10000)
  else
    let t1 := t - (2625 # 1000) / (275 # 100) in
    (75625 # 10000) * t1 * t1 + (984375 # 1000000).

(** The eight members of [Easing]. *)
Definition all : list (Q -> Q) :=
  [linear; easeIn; easeOut; easeInOut; easeInCubic; easeOutCubic;
   easeInOutCubic; bounce].

(** What an animation needs from an easing function: it starts at 0, ends
    at 1 and stays between the two in between. *)
Definition unitEasing (f : Q -> Q) : Prop :=
  f 0 == 0 /\ f 1 == 1 /\ forall t, 0 <= t -> t <= 1 -> 0 <= f t /\ f t <= 1.

End Easing.

(** ** Animation controller: [Animation] of [app/game/runtime/rendering.ts]

    [Date.now()] is passed in.  The two callbacks are recorded as calls. *)

Module Animation.
Local Open Scope list_scope.
Local Open Scope Q_scope.

Record Animation : Type := mkAnimation {
  startValue : Q;
  endValue : Q;
  duration : Q;
  startTime : Z;
  easingFunction : Q -> Q;
  (** whether the optional [onComplete] was given *)
  hasOnComplete : bool;
  isRunning : bool
}.

Inductive Call : Type :=
| onUpdate (value : Q)
| onComplete.

(** The constructor. *)
Definition create (startValue endValue duration : Q) (easing : Q -> Q)
    (hasOnComplete : bool) : Animation :=
  mkAnimation startValue endValue duration 0 easing hasOnComplete false.

Definition start (a : Animation) (now : Z) : Animation :=
  mkAnimation (startValue a) (endValue a) (duration a) now (easingFunction a)
              (hasOnComplete a) true.

Definition stop (a : Animation) : Animation :=
  mkAnimation (startValue a) (endValue a) (duration a) (startTime a)
              (easingFunction a) (hasOnComplete a) false.

Definition running (a : Animation) : bool := isRunning a.

(** [Math.min(1, elapsed / duration)].  With a zero duration the quotient
    is +Infinity for a positive [elapsed], so the minimum is 1; for
    [elapsed <= 0] it is NaN or -Infinity, which no rational stands for
    ([None]). *)
Definition progress (elapsed : Z) (duration : Q) : option Q :=
  if Qeq_bool duration 0 then
    if (0 <? elapsed)%Z then Some 1 else None
  else Some (Qmin 1 (inject_Z elapsed / duration)).

(** [update()] at time [now]: the animation afterwards, the callbacks it
    called, and its result. *)
Definition update (a : Animation) (now : Z)
  : option (Animation * list Call * bool) :=
  if negb (isRunning a) then Some (a, [], false)
  else
    let elapsed := (now - startTime a)%Z in
    match progress elapsed (duration a) with
    | None => None
    | Some t =>
        let easedT := easingFunction a t in
        let currentValue := startValue a + (endValue a - startValue a) * easedT in
        if Qle_bool 1 t then
          Some (stop a,
                onUpdate currentValue :: (if hasOnComplete a then [onComplete] else []),
                false)
        else Some (a, [onUpdate currentValue], true)
    end.

End Animation.

(** ** Camera: [Camera] of [app/game/runtime/rendering.ts]

    Over the reals, like the vectors it returns. *)

Module Camera.
Local Open Scope R_scope.

Record Camera : Type := mkCamera {
  x : R;
  y : R;
  width : R;
  height : R;
  zoom : R
}.

(** [new Camera(width, height)] *)
Definition create (width height : R) : Camera := mkCamera 0 0 width height 1.

Definition follow (c : Camera) (targetX targetY smoothing : R) : Camera :=
  let targetCameraX := targetX - width c / 2 in
  let targetCameraY := targetY - height c / 2 in
  mkCamera (x c + (targetCameraX - x c) * smoothing)
           (y c + (targetCameraY - y c) * smoothing)
           (width c) (height c) (zoom c).

Definition clampToBounds (c : Camera) (minX minY maxX maxY : R) : Camera :=
  mkCamera (Rmax minX (Rmin (x c) (maxX - width c)))
           (Rmax minY (Rmin (y c) (maxY - height c)))
           (width c) (height c) (zoom c).

Definition worldToScreen (c : Camera) (worldX worldY : R) : Physics.Vector2D :=
  Physics.mkVector2D ((worldX - x c) * zoom c) ((worldY - y c) * zoom c).

Definition screenToWorld (c : Camera) (screenX screenY : R) : Physics.Vector2D :=
  Physics.mkVector2D (screenX / zoom c + x c) (screenY / zoom c + y c).

Definition isVisible (c : Camera) (px py margin : R) : bool :=
  Geometry.Rleb (x c - margin) px && Geometry.Rleb px (x c + width c + margin)
  && Geometry.Rleb (y c - margin) py && Geometry.Rleb py (y c + height c + margin).

Definition isAABBVisible (c : Camera) (box : Geometry.AABB) (margin : R) : bool :=
  negb (Geometry.Rltb (Geometry.x box + Geometry.width box) (x c - margin)
        || Geometry.Rltb (x c + width c + margin) (Geometry.x box)
        || Geometry.Rltb (Geometry.y box + Geometry.height box) (y c - margin)
        || Geometry.Rltb (y c + height c + margin) (Geometry.y box)).

End Camera.

(** ** Vocabulary for the life of particles *)

Module ParticleLife.
Local Open Scope Q_scope.

(** Every draw of [Math.random()] lies in [0, 1). *)
Definition unitDraws (rnd : Particles.Random) : Prop :=
  forall i, 0 <= rnd i /\ rnd i < 1.

(** [v] lies in the range [lo, hi]. *)
Definition within (range : Q * Q) (v : Q) : Prop :=
  fst range <= v /\ v <= snd range.

(** The ranges and colour an [emit] call works with, defaults filled in. *)
Definition velocityRangeOf (o : Particles.EmitOptions) : Q * Q :=
  Particles.orDefault (Particles.velocityRange o) (-100 # 1, 100 # 1).
Definition lifeRangeOf (o : Particles.EmitOptions) : Q * Q :=
  Particles.orDefault (Particles.lifeRange o) (500 # 1, 1500 # 1).
Definition sizeRangeOf (o : Particles.EmitOptions) : Q * Q :=
  Particles.orDefault (Particles.sizeRange o) (2 # 1, 6 # 1).
Definition colorOf (o : Particles.EmitOptions) : string :=
  Particles.orDefault (Particles.optColor o) "#FFFFFF"%string.

(** A particle as [emit(ex, ey, _, o)] makes it. *)
Definition freshAt (ex ey : Q) (o : Particles.EmitOptions) (p : Particles.Particle)
  : Prop :=
  Particles.x p = ex /\ Particles.y p = ey
  /\ Particles.maxLife p = Particles.life p
  /\ Particles.color p = colorOf o
  /\ within (velocityRangeOf o) (Particles.vx p)
  /\ within (velocityRangeOf o) (Particles.vy p)
  /\ within (lifeRangeOf o) (Particles.life p)
  /\ within (sizeRangeOf o) (Particles.size p).

(** Time does not run backwards in the [update] calls. *)
Definition forwardInTime (cs : list Particles.Call) : Prop :=
  Forall (fun c => match c with
                   | Particles.CallUpdate dt => 0 <= dt
                   | _ => True
                   end) cs.

End ParticleLife.

(** ** Virtual buttons: [VirtualButtonManager] of the input system

    The three containers of the manager are a [Map] of buttons by id, a
    [Set] of pressed ids and a [Map] from id to a [Set] of callbacks; they
    are lists in insertion order.  A press callback is known by a number,
    and every call of one is recorded as (button id, callback). *)

Module Buttons.
Local Open Scope string_scope.
Local Open Scope list_scope.

Record VirtualButton : Type := mkButton {
  id : string;
  x : Q;
  y : Q;
  width : Q;
  height : Q;
  label : option string;
  isPressed : bool
}.

Record Manager : Type := mkManager {
  buttons : list (string * VirtualButton);
  pressedButtons : list string;
  callbacks : list (string * list nat)
}.

Definition newManager : Manager := mkManager [] [] [].

(** [Set.prototype.has], [add], [delete] on ids. *)
Definition has (s : list string) (k : string) : bool := existsb (String.eqb k) s.
Definition setAdd (s : list string) (k : string) : list string :=
  if has s k then s else s ++ [k].
Definition setDelete (s : list string) (k : string) : list string :=
  filter (fun k' => negb (String.eqb k k')) s.

(** [Map.prototype.set] on the buttons. *)
Fixpoint setButton (bs : list (string * VirtualButton)) (k : string) (b : VirtualButton)
  : list (string * VirtualButton) :=
  match bs with
  | [] => [(k, b)]
  | (k', b') :: bs' =>
      if String.eqb k' k then (k, b) :: bs' else (k', b') :: setButton bs' k b
  end.

Definition addButton (m : Manager) (button : VirtualButton) : Manager :=
  mkManager (setButton (buttons m) (id button) button) (pressedButtons m) (callbacks m).

Definition removeButton (m : Manager) (k : string) : Manager :=
  mkManager (filter (fun kb => negb (String.eqb (fst kb) k)) (buttons m))
            (setDelete (pressedButtons m) k)
            (filter (fun kc => negb (String.eqb (fst kc) k)) (callbacks m)).

(** The callbacks registered for a button, in registration order. *)
Definition callbacksOf (cbs : list (string * list nat)) (k : string) : list nat :=
  match find (fun kc => String.eqb (fst kc) k) cbs with
  | Some kc => snd kc
  | None => []
  end.

Fixpoint addCallback (cbs : list (string * list nat)) (k : string) (cb : nat)
  : list (string * list nat) :=
  match cbs with
  | [] => [(k, [cb])]
  | (k', l) :: cbs' =>
      if String.eqb k' k
      then (k', if existsb (Nat.eqb cb) l then l else l ++ [cb]) :: cbs'
      else (k', l) :: addCallback cbs' k cb
  end.

Definition onButtonPress (m : Manager) (buttonId : string) (cb : nat) : Manager :=
  mkManager (buttons m) (pressedButtons m) (addCallback (callbacks m) buttonId cb).

Definition isPointInButton (px py : Q) (button : VirtualButton) : bool :=
  Qle_bool (x button) px && Qle_bool px (x button + width button)
  && Qle_bool (y button) py && Qle_bool py (y button + height button).

Definition setPressed (b : VirtualButton) (v : bool) : VirtualButton :=
  mkButton (id b) (x b) (y b) (width b) (height b) (label b) v.

(** The [for ... of this.buttons.entries()] loop of [handleTouch]: the
    buttons as the loop leaves them, the pressed set, and the callbacks it
    called. *)
Fixpoint touchLoop (cbs : list (string * list nat)) (px py : Q) (pressed : bool)
    (bs : list (string * VirtualButton)) (down : list string)
  : list (string * VirtualButton) * list string * list (string * nat) :=
  match bs with
  | [] => ([], down, [])
  | (k, button) :: bs' =>
      let hit := isPointInButton px py button in
      let '(button1, down1, fired1) :=
        if hit && pressed && negb (has down k) then
          (setPressed button true, setAdd down k,
           List.map (fun cb => (k, cb)) (callbacksOf cbs k))
        else if negb pressed && has down k then
          (setPressed button false, setDelete down k, [])
        else (button, down, []) in
      let '(bs2, down2, fired2) := touchLoop cbs px py pressed bs' down1 in
      ((k, button1) :: bs2, down2, fired1 ++ fired2)
  end.

Definition handleTouch (m : Manager) (px py : Q) (pressed : bool)
  : Manager * list (string * nat) :=
  let '(bs, down, fired) :=
    touchLoop (callbacks m) px py pressed (buttons m) (pressedButtons m) in
  (mkManager bs down (callbacks m), fired).

Definition isButtonPressed (m : Manager) (k : string) : bool :=
  has (pressedButtons m) k.

Definition getButtons (m : Manager) : list VirtualButton := List.map snd (buttons m).

Definition clear (m : Manager) : Manager := newManager.

(** *** Vocabulary of the statements *)

(** The button registered under [k] is under the point. *)
Definition hitAt (px py : Q) (kb : string * VirtualButton) : bool :=
  isPointInButton px py (snd kb).

(** A manager with two buttons side by side and a callback on each. *)
Definition sampleManager : Manager :=
  onButtonPress
    (onButtonPress
      (addButton (addButton newManager (mkButton "jump" 0 0 50 50 None false))
                 (mkButton "fire" 60 0 50 50 None false))
      "jump" 1)
    "fire" 2.

End Buttons.

(** ** Vocabulary for sessions of the runner *)

Module RunnerSession.

Definition isOnWin (c : Runner.Callback) : bool :=
  match c with Runner.onWin => true | _ => false end.

(** How many times [onWin] was called. *)
Definition winCalls (log : list Runner.Callback) : nat :=
  List.length (filter isOnWin log).

(** No tick of the session spawns a coin. *)
Definition noCoinSpawns (ds : list Runner.Draws) : Prop :=
  Forall (fun d => (15 # 1000 <= Runner.rCoin d)%Q) ds.

Definition isObstacle (o : Runner.GameObject) : Prop :=
  Runner.type o = Runner.obstacle.

End RunnerSession.

(** ** Card engine: the opponent's turn

    The cards the opponent will draw are given as the draws of
    [Math.random()] behind them.  The interval callback of [opponentTurn]
    is run until it clears itself; a turn that would need more draws than
    are given has no result. *)

Module CardRound.
Local Open Scope list_scope.
Local Open Scope Z_scope.

(** [Math.floor(Math.random() * 10) + 1] *)
Definition drawCard (r : Q) : Z := Qfloor (r * (10 # 1)) + 1.

(** The local [targetScore] of [opponentTurn]. *)
Definition aiTarget (playerScore : Z) : Z :=
  if playerScore >? Card.TARGET then Card.TARGET
  else Z.min (playerScore + 1) Card.TARGET.

Definition setOpponentScore (s : Card.CardState) (v : Z) : Card.CardState :=
  Card.mkCard (Card.playerScore s) v (Card.currentCard s) (Card.round s)
              (Card.gamePhase s) (Card.wins s) (Card.losses s).

Definition setGamePhase (s : Card.CardState) (p : Card.Phase) : Card.CardState :=
  Card.mkCard (Card.playerScore s) (Card.opponentScore s) (Card.currentCard s)
              (Card.round s) p (Card.wins s) (Card.losses s).

(** The firings of the one-second interval: while
    [aiScore < targetScore && aiScore < TARGET] a card is drawn, added and
    shown; the first firing that finds the test false ends the turn with
    the local [aiScore]. *)
Fixpoint opponentLoop (targetScore : Z) (draws : list Q) (aiScore : Z)
    (s : Card.CardState) : option (Z * Card.CardState) :=
  let continue := (aiScore <? targetScore) && (aiScore <? Card.TARGET) in
  match draws with
  | [] => if continue then None else Some (aiScore, s)
  | r :: draws' =>
      if continue then
        let card := drawCard r in
        opponentLoop targetScore draws' (aiScore + card)
                     (setOpponentScore s (aiScore + card))
      else Some (aiScore, s)
  end.

(** [opponentTurn()] in a closure in which [playerScore] is
    [playerScore], followed by the [determineWinner(playerScore, aiScore)]
    it schedules. *)
Definition opponentTurn (s : Card.CardState) (playerScore : Z) (draws : list Q)
  : option (Card.CardState * Card.RoundAlert) :=
  match opponentLoop (aiTarget playerScore) draws 0
                     (setGamePhase s Card.phase_opponent) with
  | None => None
  | Some (aiScore, s1) => Some (Card.determineWinner s1 playerScore aiScore)
  end.

(** [handleStand()]; nothing happens when paused or out of turn. *)
Definition handleStand (s : Card.CardState) (isPaused : bool) (draws : list Q)
  : option (Card.CardState * option Card.RoundAlert) :=
  match isPaused, Card.gamePhase s with
  | false, Card.phase_player =>
      match opponentTurn s (Card.playerScore s) draws with
      | None => None
      | Some (s1, alert) => Some (s1, Some alert)
      end
  | _, _ => Some (s, None)
  end.

(** [startNextRound()] for the draw behind the new current card. *)
Definition startNextRound (s : Card.CardState) (r : Q) : Card.CardState :=
  Card.mkCard 0 0 (drawCard r) (Card.round s + 1) Card.phase_player
              (Card.wins s) (Card.losses s).

(** *** Vocabulary of the statements *)

(** Every draw lies in [0, 1). *)
Definition unitDraws (draws : list Q) : Prop :=
  Forall (fun r => (0 <= r)%Q /\ (r < 1)%Q) draws.

End CardRound.

(** ** Puzzle engine: the board and the player's moves *)

Module PuzzleMoves.
Local Open Scope list_scope.
Local Open Scope nat_scope.

(** [initializeGrid()]: six rows of six new tiles; the tile of (row, col)
    is the tile number row * 6 + col and takes the draw and the clock
    reading ([Math.random()], [Date.now()]) of that number. *)
Definition initializeGrid (rnd : nat -> Q) (clock : nat -> Z) : Puzzle.Grid :=
  List.map (fun row =>
    List.map (fun col =>
      Puzzle.newTile (row, col) (rnd (row * Puzzle.GRID_SIZE + col))
                     (clock (row * Puzzle.GRID_SIZE + col)))
      (seq 0 Puzzle.GRID_SIZE))
    (seq 0 Puzzle.GRID_SIZE).

(** [useState(level.powerUps * 10 || 30)] *)
Definition initialMoves (level : Levels.Level) : Z :=
  (if Levels.powerUps level * 10 =? 0 then 30 else Levels.powerUps level * 10)%Z.

(** The component once its mount effect has run. *)
Definition mounted (level : Levels.Level) (rnd : nat -> Q) (clock : nat -> Z)
  : Puzzle.PuzzleState :=
  Puzzle.mkPuzzle (initializeGrid rnd clock) 0 None (initialMoves level).

(** [swapTiles(row1, col1, row2, col2)] on a copy of the grid.  The
    handler is attached to rendered tiles only, so both positions lie
    inside the grid; the model covers those positions and is [None]
    elsewhere. *)
Definition swapTiles (g : Puzzle.Grid) (a b : Puzzle.Cell) : option Puzzle.Grid :=
  match Puzzle.tileAt g a, Puzzle.tileAt g b with
  | Some ta, Some tb => Some (Puzzle.setTile (Puzzle.setTile g a tb) b ta)
  | _, _ => None
  end.

(** The test [isAdjacent] of [handleTilePress]. *)
Definition isAdjacent (sel p : Puzzle.Cell) : bool :=
  ((Z.abs (Z.of_nat (fst sel) - Z.of_nat (fst p)) =? 1)%Z && Nat.eqb (snd sel) (snd p))
  || ((Z.abs (Z.of_nat (snd sel) - Z.of_nat (snd p)) =? 1)%Z && Nat.eqb (fst sel) (fst p)).

(** [handleTilePress(row, col)]: the state afterwards, and whether a
    [checkMatches] has been scheduled. *)
Definition handleTilePress (s : Puzzle.PuzzleState) (isPaused : bool) (p : Puzzle.Cell)
  : option (Puzzle.PuzzleState * bool) :=
  if isPaused then Some (s, false)
  else
    match Puzzle.selectedTile s with
    | None =>
        Some (Puzzle.mkPuzzle (Puzzle.grid s) (Puzzle.score s) (Some p) (Puzzle.moves s),
              false)
    | Some sel =>
        if isAdjacent sel p then
          match swapTiles (Puzzle.grid s) sel p with
          | Some g =>
              Some (Puzzle.mkPuzzle g (Puzzle.score s) None (Puzzle.moves s - 1)%Z, true)
          | None => None
          end
        else
          Some (Puzzle.mkPuzzle (Puzzle.grid s) (Puzzle.score s) None (Puzzle.moves s),
                false)
    end.

(** *** Vocabulary of the statements *)

(** The cell belongs to a run of three equal colours. *)
Definition matched (g : Puzzle.Grid) (p : Puzzle.Cell) : Prop :=
  exists w, Puzzle.isRun3 w /\ Puzzle.monochrome g w /\ In p (Puzzle.cells w).

Definition inGrid (p : Puzzle.Cell) : Prop :=
  fst p < Puzzle.GRID_SIZE /\ snd p < Puzzle.GRID_SIZE.

(** One step up, down, left or right. *)
Definition neighbours (a b : Puzzle.Cell) : Prop :=
  (snd a = snd b /\ (fst a = S (fst b) \/ fst b = S (fst a)))
  \/ (fst a = fst b /\ (snd a = S (snd b) \/ snd b = S (snd a))).

Definition unitDraws (rnd : nat -> Q) : Prop :=
  forall i, (0 <= rnd i)%Q /\ (rnd i < 1)%Q.

End PuzzleMoves.

(** ** The App component: screens, coins and unlocked levels *)

Module App.
Local Open Scope list_scope.
Local Open Scope Z_scope.

Inductive Screen : Type := menu | game | shop.

(** [interface GameState]; the object [highScores] as an association
    list from level ids to scores. *)
Record GameState : Type := mkGameState {
  coins : Z;
  highScores : list (Z * Z);
  unlockedLevels : list Z
}.

Record AppState : Type := mkApp {
  currentScreen : Screen;
  currentLevelId : Z;
  gameState : GameState
}.

(** The three [useState] initialisers. *)
Definition initial : AppState := mkApp menu 1 (mkGameState 0 [] [1]).

(** [saveGameState(newState)] once its promise has settled: the state is
    replaced when [AsyncStorage.setItem] succeeded ([stored]) and kept
    when it threw. *)
Definition saveGameState (a : AppState) (newState : GameState) (stored : bool)
  : AppState :=
  if stored then mkApp (currentScreen a) (currentLevelId a) newState else a.

Definition setCurrentScreen (a : AppState) (s : Screen) : AppState :=
  mkApp s (currentLevelId a) (gameState a).

Definition handleStartGame (a : AppState) (level : Z) : AppState :=
  mkApp game level (gameState a).

Definition handleOpenShop (a : AppState) : AppState := setCurrentScreen a shop.

(** The [newState] of [handleLevelComplete]. *)
Definition completed (g : GameState) (levelId : Z) : GameState :=
  let coinsEarned := levelId * 10 in
  let nextLevel := levelId + 1 in
  mkGameState (coins g + coinsEarned)
              (highScores g)
              (if Levels.includes (unlockedLevels g) nextLevel
               then unlockedLevels g
               else unlockedLevels g ++ [nextLevel]).

Definition handleLevelComplete (a : AppState) (stored : bool) : AppState :=
  setCurrentScreen (saveGameState a (completed (gameState a) (currentLevelId a)) stored)
                   menu.

Definition handleGameOver (a : AppState) : AppState := setCurrentScreen a menu.
Definition handleExit (a : AppState) : AppState := setCurrentScreen a menu.
Definition handleCloseShop (a : AppState) : AppState := setCurrentScreen a menu.

(** *** Vocabulary of the statements *)

(** Start the level from the menu and complete it, the save succeeding. *)
Definition play (a : AppState) (level : Z) : AppState :=
  handleLevelComplete (handleStartGame a level) true.

Definition sum (l : list Z) : Z := fold_right Z.add 0 l.

End App.

(* ===================================================================== *)
(** * Part II: statements                                                 *)
(* ===================================================================== *)

Section LevelsFacts.
Import Levels.
Local Open Scope Z_scope.

Lemma includes_In (l : list Z) (x : Z) : includes l x = true <-> In x l.
Proof.
  unfold includes. rewrite existsb_exists. split.
  - intros [y [Hy Heq]]. apply Z.eqb_eq in Heq. now subst.
  - intros H. exists x. split; [assumption | apply Z.eqb_refl].
Qed.

(** Unlocking, as a closed formula: a level is unlocked exactly when it is
    a playable catalogue entry and either it is level 1 or its predecessor
    is among the completed ids. *)
Lemma isLevelUnlocked_char (levelId : Z) (completed : list Z) :
  isLevelUnlocked levelId completed
  = isLevelPlayable levelId && ((levelId =? 1) || includes completed (levelId - 1)).
Proof.
  unfold isLevelUnlocked, isLevelPlayable.
  destruct (getLevelById levelId) as [lv|]; [|reflexivity].
  destruct (isPlayable lv); simpl; [|reflexivity].
  destruct (levelId =? 1); reflexivity.
Qed.

(** C8. On the stock ten-level catalogue: [getPlayableLevels()] is the
    levels with ids 1, 2, 3 in that order; [isLevelUnlocked(2, [])] is false
    and [isLevelUnlocked(2, [1])] is true; level 1 is always unlocked; a
    playable level with id > 1 is unlocked iff the completed ids contain
    id - 1; and [getNextLevel(10)] is undefined. *)
Theorem levels_catalog_scenario :
  List.length LEVELS = 10%nat
  /\ map id getPlayableLevels = [1; 2; 3]
  /\ getPlayableLevels = firstn 3 LEVELS
  /\ isLevelUnlocked 2 [] = false
  /\ isLevelUnlocked 2 [1] = true
  /\ (forall completed, isLevelUnlocked 1 completed = true)
  /\ (forall levelId completed,
        isLevelPlayable levelId = true -> levelId > 1 ->
        (isLevelUnlocked levelId completed = true <-> In (levelId - 1) completed))
  /\ getNextLevel 10 = None.
Proof.
  repeat split; try reflexivity.
  - rewrite isLevelUnlocked_char, H. simpl.
    destruct (Z.eqb_spec levelId 1) as [E|E]; [lia|]. simpl.
    apply includes_In.
  - rewrite isLevelUnlocked_char, H. simpl.
    destruct (Z.eqb_spec levelId 1) as [E|E]; [lia|]. simpl.
    apply includes_In.
Qed.

Lemma levels_catalog_witness :
  Levels.isLevelUnlocked 3 [2] = true <-> In (3 - 1) [2].
Proof.
  apply (proj1 (proj2 (proj2 (proj2 (proj2 (proj2 (proj2 levels_catalog_scenario))))))
           3 [2]); [reflexivity | lia].
Defined.

End LevelsFacts.

Section CardFacts.
Import Card.
Local Open Scope Z_scope.

(** The player takes the round exactly when the player has not bust and
    either the opponent bust or the player's score is strictly higher. *)
Lemma winner_player_iff (pScore oScore : Z) :
  winner pScore oScore = player
  <-> pScore <= TARGET /\ (oScore > TARGET \/ pScore > oScore).
Proof.
  unfold winner, TARGET.
  destruct (Z.gtb_spec pScore 20); [split; [discriminate | lia]|].
  destruct (Z.gtb_spec oScore 20); [split; [intros _; lia | reflexivity]|].
  destruct (Z.gtb_spec pScore oScore); split; try discriminate; try reflexivity; lia.
Qed.

(** C10. In [determineWinner], when neither side busts and the two scores
    are equal the round goes to the opponent (the loss counter is
    incremented, the win counter is not); the player wins a round only with
    a strictly greater non-bust score or when the opponent busts. *)
Theorem determineWinner_tie_goes_to_opponent (s : CardState) (pScore oScore : Z) :
  (pScore <= 20 -> oScore <= 20 -> pScore = oScore ->
     winner pScore oScore = opponent
     /\ losses (fst (determineWinner s pScore oScore)) = losses s + 1
     /\ wins (fst (determineWinner s pScore oScore)) = wins s
     /\ gamePhase (fst (determineWinner s pScore oScore)) = phase_result
     /\ alert_for (snd (determineWinner s pScore oScore)) = opponent)
  /\ (winner pScore oScore = player ->
        (pScore <= 20 /\ pScore > oScore) \/ oScore > 20)
  /\ (winner pScore oScore = player ->
        wins (fst (determineWinner s pScore oScore)) = wins s + 1
        /\ losses (fst (determineWinner s pScore oScore)) = losses s).
Proof.
  split; [|split].
  - intros Hp Ho Heq. subst oScore.
    assert (W : winner pScore pScore = opponent).
    { unfold winner, TARGET.
      destruct (Z.gtb_spec pScore 20); [reflexivity|].
      destruct (Z.gtb_spec pScore pScore); [lia | reflexivity]. }
    unfold determineWinner. rewrite W. simpl. repeat split; assumption.
  - intros Hw. apply winner_player_iff in Hw. unfold TARGET in Hw. lia.
  - intros Hw. unfold determineWinner. rewrite Hw. simpl. split; reflexivity.
Qed.

Lemma determineWinner_tie_witness :
  Card.winner 17 17 = Card.opponent
  /\ Card.losses (fst (Card.determineWinner (Card.mkCard 17 17 4 1 Card.phase_opponent 0 0) 17 17))
     = 0 + 1
  /\ Card.wins (fst (Card.determineWinner (Card.mkCard 17 17 4 1 Card.phase_opponent 0 0) 17 17))
     = 0
  /\ Card.gamePhase (fst (Card.determineWinner (Card.mkCard 17 17 4 1 Card.phase_opponent 0 0) 17 17))
     = Card.phase_result
  /\ Card.alert_for (snd (Card.determineWinner (Card.mkCard 17 17 4 1 Card.phase_opponent 0 0) 17 17))
     = Card.opponent.
Proof.
  apply (proj1 (determineWinner_tie_goes_to_opponent
                  (mkCard 17 17 4 1 phase_opponent 0 0) 17 17)); [lia | lia | reflexivity].
Defined.

End CardFacts.

Section PhysicsFacts.
Import Physics.
Local Open Scope R_scope.

Lemma sum_squares_nonneg (a b : R) : 0 <= a * a + b * b.
Proof. nra. Qed.

Lemma magnitude_zero_components (v : Vector2D) :
  magnitude v = 0 -> x v = 0 /\ y v = 0.
Proof.
  unfold magnitude. intros H.
  apply sqrt_eq_0 in H; [|apply sum_squares_nonneg].
  split; nra.
Qed.



(** With a non-zero mass, [applyForce] adds force/mass component-wise. *)
Lemma applyForce_acceleration (b : PhysicsBody) (f : Vector2D) :
  mass b <> 0 ->
  acceleration (applyForce b f)
  = mkVector2D (x (acceleration b) + x f / mass b) (y (acceleration b) + y f / mass b).
Proof.
  intros Hm. unfold applyForce, divide. simpl.
  destruct (Req_dec_T (mass b) 0); [contradiction | reflexivity].
Qed.

Lemma applyForce_keeps (b : PhysicsBody) (f : Vector2D) :
  position (applyForce b f) = position b
  /\ velocity (applyForce b f) = velocity b
  /\ mass (applyForce b f) = mass b
  /\ friction (applyForce b f) = friction b.
Proof. repeat split. Qed.

(** C3. For every body and every [dt], whatever forces were applied before:
    after [update(dt)] the velocity is (old velocity + old acceleration*dt)
    scaled by (1 - friction), the position is the old position plus the new
    velocity times dt, and the acceleration is exactly (0,0); [applyForce]
    adds force/mass to the acceleration and touches nothing else. *)
Theorem update_integrates_and_resets
    (b0 : PhysicsBody) (forces : list Vector2D) (dt : R) :
  let b := fold_left applyForce forces b0 in
  let b' := update b dt in
  x (velocity b') = (x (velocity b) + x (acceleration b) * dt) * (1 - friction b)
  /\ y (velocity b') = (y (velocity b) + y (acceleration b) * dt) * (1 - friction b)
  /\ x (position b') = x (position b) + x (velocity b') * dt
  /\ y (position b') = y (position b) + y (velocity b') * dt
  /\ acceleration b' = mkVector2D 0 0
  /\ (forall c f, mass c <> 0 ->
        x (acceleration (applyForce c f)) = x (acceleration c) + x f / mass c
        /\ y (acceleration (applyForce c f)) = y (acceleration c) + y f / mass c
        /\ velocity (applyForce c f) = velocity c
        /\ position (applyForce c f) = position c).
Proof.
  cbv zeta. repeat split; try reflexivity.
  - rewrite applyForce_acceleration by assumption. reflexivity.
  - rewrite applyForce_acceleration by assumption. reflexivity.
Qed.

Lemma update_integrates_and_resets_witness :
  Physics.x (Physics.acceleration
               (Physics.applyForce (Physics.newBody 0 0) (Physics.mkVector2D 2 0)))
  = Physics.x (Physics.acceleration (Physics.newBody 0 0))
    + Physics.x (Physics.mkVector2D 2 0) / Physics.mass (Physics.newBody 0 0).
Proof.
  apply (proj2 (proj2 (proj2 (proj2 (proj2
           (update_integrates_and_resets (newBody 0 0) [] 1)))))
           (newBody 0 0) (mkVector2D 2 0)).
  simpl. lra.
Defined.

(** The forces applied between two updates add up: with a non-zero mass
    the acceleration grows by the sum of force/mass. *)
Lemma applyForce_accumulates (forces : list Vector2D) (b : PhysicsBody) :
  mass b <> 0 ->
  let b' := fold_left applyForce forces b in
  x (acceleration b')
  = x (acceleration b) + fold_right (fun f acc => x f / mass b + acc) 0 forces
  /\ y (acceleration b')
     = y (acceleration b) + fold_right (fun f acc => y f / mass b + acc) 0 forces
  /\ mass b' = mass b /\ velocity b' = velocity b /\ position b' = position b.
Proof.
  revert b. induction forces as [|f forces IH]; intros b Hm; simpl.
  - repeat split; lra.
  - destruct (IH (applyForce b f)) as (Hx & Hy & Hmass & Hv & Hp); [assumption|].
    rewrite Hx, Hy, Hmass, Hv, Hp.
    rewrite applyForce_acceleration by assumption. simpl.
    repeat split; lra.
Qed.

End PhysicsFacts.

Section DoubleFacts.
Import PrimFloat Double.
Local Open Scope float_scope.



End DoubleFacts.

Section ParticlesFacts.
Import Particles.
Local Open Scope Z_scope.

(** The emission loop never grows the list past a non-negative bound it
    started under, and it stops only when the request or the room is used
    up. *)
Lemma emit_loop_length maxP ex ey vr lr sr col rnd (n i : nat) (ps : list Particle) :
  Z.of_nat (List.length ps) <= maxP ->
  Z.of_nat (List.length (emit_loop maxP ex ey vr lr sr col rnd n i ps))
  = Z.min maxP (Z.of_nat (List.length ps) + Z.of_nat n).
Proof.
  revert i ps. induction n as [|n IH]; intros i ps Hle.
  - simpl. lia.
  - cbn [emit_loop].
    destruct (Z.ltb_spec (Z.of_nat (List.length ps)) maxP) as [Hlt|Hge].
    + rewrite IH; rewrite length_app; simpl; lia.
    + lia.
Qed.

Lemma update_length_le (s : ParticleSystem) (dt : Q) :
  count (update s dt) <= count s.
Proof.
  unfold count, update. simpl.
  induction (particles s) as [|p ps IH]; simpl; [lia|].
  destruct (Qle_bool _ 0); simpl; lia.
Qed.

Lemma emit_count (s : ParticleSystem) ex ey n options rnd :
  count s <= maxParticles s ->
  count (emit s ex ey n options rnd)
  = Z.min (maxParticles s) (count s + Z.max 0 n).
Proof.
  intros H. unfold count, emit in *. simpl.
  rewrite emit_loop_length by assumption. lia.
Qed.

Lemma call_preserves_bound (s : ParticleSystem) (c : Call) :
  count s <= maxParticles s ->
  count (call s c) <= maxParticles (call s c)
  /\ maxParticles (call s c) = maxParticles s.
Proof.
  intros H. destruct c as [ex ey n options rnd|dt|]; simpl.
  - split; [|reflexivity]. rewrite emit_count by assumption. lia.
  - split; [|reflexivity]. pose proof (update_length_le s dt). lia.
  - split; [|reflexivity]. unfold count in *. simpl. lia.
Qed.

Lemma run_preserves_bound (cs : list Call) (s : ParticleSystem) :
  count s <= maxParticles s ->
  count (run s cs) <= maxParticles s /\ maxParticles (run s cs) = maxParticles s.
Proof.
  unfold run. revert s. induction cs as [|c cs IH]; intros s H; simpl.
  - split; [assumption | reflexivity].
  - destruct (call_preserves_bound s c H) as [H1 H2].
    destruct (IH (call s c) H1) as [H3 H4]. rewrite H2 in *. split; assumption.
Qed.

(** C5. A particle system built with a maximum of [N] particles (a count,
    so [0 <= N]) never holds more than [N] particles after any sequence of
    emit/update calls; and an [emit] that asks for more than the room left
    stops at the bound, leaving [count()] equal to [N] exactly. *)
Theorem particle_count_bounded (N : Z) (cs : list Call) :
  0 <= N ->
  let s := run (newSystem N) cs in
  count s <= N
  /\ (forall ex ey n options rnd,
        n > N - count s -> count (emit s ex ey n options rnd) = N).
Proof.
  intros HN s.
  destruct (run_preserves_bound cs (newSystem N)) as [H1 H2].
  { unfold count. simpl. assumption. }
  simpl in H1, H2. fold s in H1, H2. split; [assumption|].
  intros ex ey n options rnd Hn.
  rewrite emit_count by lia. rewrite H2. lia.
Qed.

Lemma particle_count_bounded_witness :
  Particles.count
    (Particles.emit
       (Particles.run (Particles.newSystem 3)
          [Particles.CallEmit 0 0 2 Particles.noOptions (fun _ => 1 # 2);
           Particles.CallUpdate (1 # 10)])
       0 0 5 Particles.noOptions (fun _ => 1 # 2)) = 3.
Proof.
  apply (proj2 (particle_count_bounded 3
                  [CallEmit 0 0 2 noOptions (fun _ => 1 # 2); CallUpdate (1 # 10)]
                  ltac:(lia))).
  vm_compute. reflexivity.
Defined.

End ParticlesFacts.

Section PuzzleFacts.
Import Puzzle.
Local Open Scope nat_scope.

(** *** Lists updated by index *)

Lemma setNth_length {A : Type} (l : list A) (n : nat) (a : A) :
  List.length (setNth l n a) = List.length l.
Proof.
  revert n. induction l as [|b l IH]; intros [|n]; simpl; auto.
Qed.

Lemma setNth_same {A : Type} (l : list A) (n : nat) (a : A) :
  n < List.length l -> nth_error (setNth l n a) n = Some a.
Proof.
  revert n. induction l as [|b l IH]; intros [|n] H; simpl in *; try lia; auto.
  apply IH. lia.
Qed.

Lemma setNth_other {A : Type} (l : list A) (n m : nat) (a : A) :
  n <> m -> nth_error (setNth l n a) m = nth_error l m.
Proof.
  revert n m. induction l as [|b l IH]; intros [|n] [|m] H; simpl; auto.
  - contradiction.
Qed.

Lemma setNth_Forall {A : Type} (P : A -> Prop) (l : list A) (n : nat) (a : A) :
  Forall P l -> P a -> Forall P (setNth l n a).
Proof.
  intros Hl Ha. revert n. induction Hl as [|b l Hb Hl IH]; intros [|n]; simpl;
    constructor; auto.
Qed.

(** *** Reading and writing tiles *)

Lemma tileAt_inside (g : Grid) (p : Cell) :
  grid6x6 g -> fst p < GRID_SIZE -> snd p < GRID_SIZE ->
  exists t, tileAt g p = Some t.
Proof.
  intros [Hlen Hrows] Hr Hc. unfold tileAt.
  destruct (nth_error g (fst p)) as [r|] eqn:E.
  - assert (Hr' : List.length r = GRID_SIZE).
    { rewrite Forall_forall in Hrows. apply Hrows. eapply nth_error_In; eauto. }
    destruct (nth_error r (snd p)) as [t|] eqn:E2; [eauto|].
    apply nth_error_None in E2. lia.
  - apply nth_error_None in E. lia.
Qed.

Lemma setTile_same (g : Grid) (p : Cell) (t t0 : Tile) :
  tileAt g p = Some t0 -> tileAt (setTile g p t) p = Some t.
Proof.
  unfold tileAt, setTile. intros H.
  destruct (nth_error g (fst p)) as [r|] eqn:E; [|discriminate].
  rewrite setNth_same by (apply nth_error_Some; congruence).
  apply setNth_same. apply nth_error_Some. congruence.
Qed.

Lemma setTile_other (g : Grid) (p q : Cell) (t : Tile) :
  p <> q -> tileAt (setTile g p t) q = tileAt g q.
Proof.
  unfold tileAt, setTile. intros H.
  destruct (nth_error g (fst p)) as [r|] eqn:E; [|reflexivity].
  destruct (Nat.eq_dec (fst p) (fst q)) as [Er|Er].
  - rewrite <- Er. rewrite setNth_same by (apply nth_error_Some; congruence).
    rewrite E. apply setNth_other. intros Ec. apply H.
    destruct p, q; simpl in *; congruence.
  - now rewrite setNth_other.
Qed.

Lemma setTile_6x6 (g : Grid) (p : Cell) (t : Tile) :
  grid6x6 g -> grid6x6 (setTile g p t).
Proof.
  intros [Hlen Hrows]. unfold setTile.
  destruct (nth_error g (fst p)) as [r|] eqn:E; [|split; assumption].
  split.
  - now rewrite setNth_length.
  - apply setNth_Forall; [assumption|]. rewrite setNth_length.
    rewrite Forall_forall in Hrows. apply Hrows. eapply nth_error_In; eauto.
Qed.

Lemma replaceAll_spec (ms : list Cell) (rnd : nat -> Q) (now : Z) :
  forall (g : Grid) (k : nat),
    NoDup ms ->
    (forall p, In p ms -> exists t, tileAt g p = Some t) ->
    (forall i p, nth_error ms i = Some p ->
       tileAt (replaceAll g ms rnd k now) p = Some (newTile p (rnd (k + i)) now))
    /\ (forall q, ~ In q ms -> tileAt (replaceAll g ms rnd k now) q = tileAt g q).
Proof.
  induction ms as [|m ms IH]; intros g k Hnd Hdef; simpl.
  - split; [intros [|i] p H; discriminate | reflexivity].
  - inversion Hnd as [|? ? Hnotin Hnd']; subst.
    destruct (IH (setTile g m (newTile m (rnd k) now)) (S k) Hnd') as [IH1 IH2].
    { intros p Hp. destruct (Hdef p (or_intror Hp)) as [t Ht].
      exists t. rewrite setTile_other; [assumption|]. intros ->. contradiction. }
    split.
    + intros [|i] p H; simpl in H.
      * injection H as <-. rewrite IH2 by assumption.
        destruct (Hdef m (or_introl eq_refl)) as [t Ht].
        rewrite Nat.add_0_r. eapply setTile_same; eauto.
      * rewrite (IH1 i p H). do 3 f_equal. lia.
    + intros q Hq. rewrite IH2 by tauto.
      apply setTile_other. intros ->. apply Hq. now left.
Qed.

Lemma replaceAll_6x6 (ms : list Cell) (rnd : nat -> Q) (now : Z) :
  forall (g : Grid) (k : nat), grid6x6 g -> grid6x6 (replaceAll g ms rnd k now).
Proof.
  induction ms as [|m ms IH]; intros g k H; simpl; [assumption|].
  apply IH. now apply setTile_6x6.
Qed.

(** *** The scan *)

Lemma cell_eqb_eq (a b : Cell) : cell_eqb a b = true <-> a = b.
Proof.
  unfold cell_eqb. rewrite andb_true_iff, !Nat.eqb_eq.
  destruct a, b; simpl. split; [intros [-> ->]; reflexivity | intros [= -> ->]; auto].
Qed.

Lemma uniqueFrom_NoDup (l seen : list Cell) :
  NoDup l -> (forall p, In p l -> ~ In p seen) -> uniqueFrom seen l = l.
Proof.
  revert seen. induction l as [|c l IH]; intros seen Hnd Hdis; simpl; [reflexivity|].
  inversion Hnd as [|? ? Hnotin Hnd']; subst.
  destruct (existsb (cell_eqb c) seen) eqn:E.
  - apply existsb_exists in E. destruct E as [d [Hd Heq]].
    apply cell_eqb_eq in Heq. subst d. exfalso. apply (Hdis c); simpl; auto.
  - f_equal. apply IH; [assumption|].
    intros p Hp [<-|Hs]; [contradiction|]. apply (Hdis p); simpl; auto.
Qed.

Lemma scan_filter (g : Grid) (ws : list Window) :
  (forall w, In w ws -> sameColor3 g w <> None) ->
  forall acc,
    scan g ws acc
    = Some (fst acc ++ flat_map cells (filter (matchb g) ws),
            snd acc || existsb (matchb g) ws).
Proof.
  induction ws as [|w ws IH]; intros Hdef [rem found]; simpl.
  - now rewrite app_nil_r, orb_false_r.
  - destruct (sameColor3 g w) as [m|] eqn:E;
      [|exfalso; apply (Hdef w); simpl; auto].
    assert (Hm : matchb g w = m) by (unfold matchb; now rewrite E).
    rewrite Hm. simpl.
    rewrite IH by (intros; apply Hdef; simpl; auto).
    destruct m; simpl; [|reflexivity].
    now rewrite <- app_assoc, orb_true_r.
Qed.

Lemma filter_single {A : Type} (f : A -> bool) (l : list A) (x : A) :
  NoDup l -> In x l -> f x = true ->
  (forall y, In y l -> y <> x -> f y = false) ->
  filter f l = [x].
Proof.
  induction l as [|a l IH]; intros Hnd Hin Hx Hothers; [contradiction|].
  inversion Hnd as [|? ? Hnotin Hnd']; subst. simpl.
  assert (Hnone : forall l', (forall y, In y l' -> f y = false) -> filter f l' = []).
  { induction l' as [|b l' IH']; intros H; simpl; [reflexivity|].
    rewrite (H b) by (simpl; auto). apply IH'. intros; apply H; simpl; auto. }
  destruct Hin as [->|Hin].
  - rewrite Hx. f_equal. apply Hnone.
    intros y Hy. apply Hothers; [simpl; auto|]. intros ->. contradiction.
  - rewrite (Hothers a) by (simpl; auto; intros ->; contradiction).
    apply IH; auto. intros y Hy. apply Hothers. simpl; auto.
Qed.

(** The two loops visit exactly the runs of three cells of the grid, each
    one once. *)
Lemma windows_are_runs (w : Window) :
  In w (horizontalWindows ++ verticalWindows) <-> isRun3 w.
Proof.
  unfold horizontalWindows, verticalWindows. rewrite in_app_iff, !in_flat_map.
  split.
  - intros [[r [Hr Hw]]|[c [Hc Hw]]].
    + apply in_map_iff in Hw. destruct Hw as [c [<- Hc]].
      apply in_seq in Hr, Hc. apply run_horizontal; unfold GRID_SIZE in *; lia.
    + apply in_map_iff in Hw. destruct Hw as [r [<- Hr]].
      apply in_seq in Hr, Hc. apply run_vertical; unfold GRID_SIZE in *; lia.
  - intros [r c Hr Hc|r c Hr Hc].
    + left. exists r. split; [apply in_seq; lia|].
      apply in_map_iff. exists c. split; [reflexivity|].
      apply in_seq. unfold GRID_SIZE in *. lia.
    + right. exists c. split; [apply in_seq; lia|].
      apply in_map_iff. exists r. split; [reflexivity|].
      apply in_seq. unfold GRID_SIZE in *. lia.
Qed.

Lemma windows_NoDup : NoDup (horizontalWindows ++ verticalWindows).
Proof.
  cbv.
  repeat (constructor;
          [ intros H; repeat (destruct H as [H|H]; [discriminate H|]); exact H | ]).
  constructor.
Qed.

Lemma run_cells_inside (w : Window) :
  isRun3 w -> forall p, In p (cells w) -> fst p < GRID_SIZE /\ snd p < GRID_SIZE.
Proof.
  intros [r c Hr Hc|r c Hr Hc] p Hp; simpl in Hp;
    destruct Hp as [<-|[<-|[<-|[]]]]; simpl; unfold GRID_SIZE in *; lia.
Qed.

Lemma run_cells_NoDup (w : Window) : isRun3 w -> NoDup (cells w).
Proof.
  intros [r c Hr Hc|r c Hr Hc]; simpl;
    repeat (constructor; [simpl; intros H;
              repeat (destruct H as [H|H]; [injection H; lia|]); exact H|]);
    constructor.
Qed.

Lemma sameColor3_monochrome (g : Grid) (w : Window) :
  grid6x6 g -> isRun3 w ->
  sameColor3 g w = Some (matchb g w) /\ (matchb g w = true <-> monochrome g w).
Proof.
  intros Hg Hw.
  pose proof (run_cells_inside w Hw) as Hin.
  destruct w as [[a b] c]. simpl in Hin.
  destruct (tileAt_inside g a Hg) as [ta Ha]; [apply Hin; auto..|].
  destruct (tileAt_inside g b Hg) as [tb Hb]; [apply Hin; auto..|].
  destruct (tileAt_inside g c Hg) as [tc Hc]; [apply Hin; auto..|].
  unfold matchb, sameColor3, colorAt, monochrome. rewrite Ha, Hb, Hc. simpl.
  destruct (String.eqb_spec (color ta) (color tb)) as [E1|E1]; simpl.
  - split; [reflexivity|].
    destruct (String.eqb_spec (color ta) (color tc)) as [E2|E2].
    + split; [intros _|reflexivity]. exists ta, tb, tc. auto.
    + split; [discriminate|]. intros (ta' & tb' & tc' & [= <-] & [= <-] & [= <-] & _ & E).
      contradiction.
  - split; [reflexivity|]. split; [discriminate|].
    intros (ta' & tb' & tc' & [= <-] & [= <-] & [= <-] & E & _). contradiction.
Qed.

(** On a grid whose only run is [w0], the two scans collect the three cells
    of [w0] and nothing else. *)
Lemma scan_only_run (g : Grid) (w0 : Window) :
  grid6x6 g -> onlyRun g w0 ->
  exists h,
    scan g horizontalWindows ([], false) = Some h
    /\ scan g verticalWindows h = Some (cells w0, true).
Proof.
  intros Hg (Hrun & Hmono & Hothers).
  assert (Hdef : forall w, In w (horizontalWindows ++ verticalWindows) ->
                           sameColor3 g w <> None).
  { intros w Hw. apply windows_are_runs in Hw.
    destruct (sameColor3_monochrome g w Hg Hw) as [-> _]. discriminate. }
  eexists. split.
  { apply scan_filter. intros; apply Hdef, in_or_app; auto. }
  rewrite scan_filter by (intros; apply Hdef, in_or_app; auto).
  cbn [fst snd app orb].
  rewrite <- flat_map_app, <- filter_app, <- existsb_app.
  rewrite (filter_single (matchb g) _ w0).
  - cbn [flat_map]. rewrite app_nil_r. f_equal. f_equal.
    apply existsb_exists. exists w0. split.
    + now apply windows_are_runs.
    + now apply (sameColor3_monochrome g w0 Hg Hrun).
  - apply windows_NoDup.
  - now apply windows_are_runs.
  - now apply (sameColor3_monochrome g w0 Hg Hrun).
  - intros w Hw Hne. apply windows_are_runs in Hw.
    destruct (matchb g w) eqn:E; [|reflexivity].
    exfalso. apply (Hothers w Hw Hne).
    now apply (sameColor3_monochrome g w Hg Hw).
Qed.

(** C4. On a 6 x 6 grid holding exactly one run of three equal colours (in
    a row or in a column) and no other run, [checkMatches] adds exactly
    3 * coinValue to the score and reports the new score once through
    [onScoreChange]; the three cells of the run receive new tiles and every
    other cell keeps its tile. *)
Theorem checkMatches_single_run
    (s : PuzzleState) (coinValue : Z) (rnd : nat -> Q) (now : Z) (w0 : Window) :
  grid6x6 (grid s) -> onlyRun (grid s) w0 ->
  exists g',
    checkMatches s coinValue rnd now
    = Some (mkPuzzle g' (score s + 3 * coinValue)%Z (selectedTile s) (moves s),
            [onScoreChange (score s + 3 * coinValue)%Z])
    /\ grid6x6 g'
    /\ (forall k p, nth_error (cells w0) k = Some p ->
          tileAt g' p = Some (newTile p (rnd k) now))
    /\ (forall q, ~ In q (cells w0) -> tileAt g' q = tileAt (grid s) q).
Proof.
  intros Hg Honly.
  destruct (scan_only_run (grid s) w0 Hg Honly) as (h & Hh & Hv).
  destruct Honly as (Hrun & _ & _).
  pose proof (run_cells_NoDup w0 Hrun) as Hnd.
  exists (replaceAll (grid s) (cells w0) rnd 0 now).
  unfold checkMatches. rewrite Hh. cbn [bind]. rewrite Hv. cbn [bind].
  unfold unique. rewrite uniqueFrom_NoDup by (auto; intros ? ? []).
  assert (Hlen : List.length (cells w0) = 3) by (destruct w0 as [[? ?] ?]; reflexivity).
  rewrite Hlen. split; [reflexivity|].
  split; [now apply replaceAll_6x6|].
  apply (replaceAll_spec (cells w0) rnd now (grid s) 0 Hnd).
  intros p Hp. apply tileAt_inside; [assumption|..];
    now apply (run_cells_inside w0 Hrun).
Qed.

Lemma checkMatches_single_run_witness :
  exists g',
    Puzzle.checkMatches (Puzzle.mkPuzzle Puzzle.sampleGrid 7 None 30) 10 (fun _ => 1 # 2) 1234
    = Some (Puzzle.mkPuzzle g' (7 + 3 * 10)%Z None 30%Z,
            [Puzzle.onScoreChange (7 + 3 * 10)%Z])
    /\ Puzzle.grid6x6 g'
    /\ (forall k p, nth_error [(1, 1); (1, 2); (1, 3)] k = Some p ->
          Puzzle.tileAt g' p = Some (Puzzle.newTile p (1 # 2) 1234))
    /\ (forall q, ~ In q [(1, 1); (1, 2); (1, 3)] ->
          Puzzle.tileAt g' q = Puzzle.tileAt Puzzle.sampleGrid q).
Proof.
  apply (checkMatches_single_run
           (mkPuzzle sampleGrid 7 None 30) 10 (fun _ => 1 # 2) 1234
           ((1, 1), (1, 2), (1, 3))).
  - split; [reflexivity|]. repeat constructor.
  - split; [apply (run_horizontal 1 1); unfold GRID_SIZE; lia|].
    split.
    + simpl. do 3 eexists. repeat split; reflexivity.
    + intros w Hw Hne Hmono. apply windows_are_runs in Hw.
      cbv in Hw.
      repeat (destruct Hw as [Hw|Hw];
              [ subst w; try (now apply Hne);
                destruct Hmono as (ta & tb & tc & Ha & Hb & Hc & E1 & E2);
                cbv in Ha, Hb, Hc; injection Ha as <-; injection Hb as <-;
                injection Hc as <-; simpl in E1, E2; congruence
              | ]).
      exact Hw.
Defined.

End PuzzleFacts.

Section RunnerFacts.
Import Runner.
Local Open Scope Z_scope.

(** Each time the distance reaches a multiple of 10 the score cell is
    overwritten with distance/10, whatever it held. *)
Lemma advanceDistance_overwrites_score (e : Env) (s : RunnerState) :
  (distance s + 1) mod 10 = 0 ->
  score (fst (advanceDistance e s)) = (distance s + 1) / 10
  /\ In (onScoreChange ((distance s + 1) / 10)) (snd (advanceDistance e s)).
Proof.
  intros H. unfold advanceDistance. rewrite H. simpl.
  destruct (distance s + 1 >=? targetDistance e); simpl; auto.
Qed.

(** Collecting a coin adds [coinValue] to whatever the score cell holds. *)
Lemma handleCoinCollection_adds (e : Env) (s : RunnerState) :
  score (fst (handleCoinCollection e s)) = score s + Levels.coinValue (level e)
  /\ snd (handleCoinCollection e s)
     = [onScoreChange (score s + Levels.coinValue (level e))].
Proof. split; reflexivity. Qed.

(** C2. The runner on level 1 (coinValue 10), one coin collected at tick
    67: the score reported then is 6 + 10 = 16, but at tick 70 the score is
    reset to floor(70/10) = 7 and 7 is what [onScoreChange] reports; the
    coin bonus is gone (floor(distance/10) plus the bonus would be 17). *)
Theorem runner_coin_bonus_overwritten :
  let at67 := run env400 (session 66) initial in
  let at70 := run env400 (session 69) initial in
  distance (fst at67) = 67
  /\ score (fst at67) = 67 / 10 + Levels.coinValue level1
  /\ distance (fst at70) = 70
  /\ score (fst at70) = 7
  /\ 70 / 10 + 1 * Levels.coinValue level1 = 17
  /\ snd at70
     = [onScoreChange 1; onScoreChange 2; onScoreChange 3; onScoreChange 4;
        onScoreChange 5; onScoreChange 6; onScoreChange 16; onScoreChange 7].
Proof. vm_compute. repeat split. Qed.

End RunnerFacts.

Section InputFacts.
Import Input.
Local Open Scope Z_scope.

Lemma Qltb_lt (a b : Q) : Js.Qltb a b = true <-> (a < b)%Q.
Proof.
  unfold Js.Qltb. rewrite negb_true_iff. split.
  - intros H. apply Qnot_le_lt. intros Hle. apply Qle_bool_iff in Hle. congruence.
  - intros H. destruct (Qle_bool b a) eqn:E; [|reflexivity].
    apply Qle_bool_iff in E. exfalso. exact (Qlt_not_le _ _ H E).
Qed.

Lemma distGt_fartherThan (t x0 y0 x y : Q) :
  distGt (x - x0) (y - y0) t = true <-> fartherThan t x0 y0 x y.
Proof.
  unfold distGt, fartherThan.
  destruct (Js.Qltb t 0) eqn:E.
  - apply Qltb_lt in E. tauto.
  - rewrite Qltb_lt. split; [tauto|]. intros [H|H]; [|assumption].
    apply Qltb_lt in H. congruence.
Qed.

Lemma run_app (w : World) (a b : list Action) :
  run w (a ++ b)
  = (fst (run (fst (run w a)) b), snd (run w a) ++ snd (run (fst (run w a)) b)).
Proof.
  revert w. induction a as [|x a IH]; intros w; simpl.
  - now destruct (run w b).
  - destruct (step w x) as [w1 o1]. rewrite IH.
    destruct (run w1 a) as [w2 o2]. simpl.
    destruct (run w2 b) as [w3 o3]. simpl. now rewrite app_assoc.
Qed.

(** *** The last tap is forgotten *)

(** No reachable TouchState remembers a tap: [lastTapTime] is written just
    before the TouchState is dropped, and a new one starts from 0. *)
Lemma lastTapTime_forgotten (acts : list Action) (w : World) :
  (forall ts, touchState w = Some ts -> lastTapTime ts = 0) ->
  forall ts, touchState (fst (run w acts)) = Some ts -> lastTapTime ts = 0.
Proof.
  revert w. induction acts as [|a acts IH]; intros w Hw; simpl; [assumption|].
  destruct (step w a) as [w1 o1] eqn:Es.
  destruct (run w1 acts) as [w2 o2] eqn:Er. simpl.
  replace w2 with (fst (run w1 acts)) by now rewrite Er.
  apply IH. clear IH Er w2 o2.
  intros ts1 H1.
  destruct a as [x y now|x y now|x y now|h now| |t cb|t cb]; simpl in Es.
  - unfold handleTouchStart in Es. injection Es as <- _. simpl in H1.
    injection H1 as <-. simpl.
    destruct (touchState w) as [ts|] eqn:E; [|reflexivity].
    rewrite (Hw ts eq_refl). reflexivity.
  - unfold handleTouchMove in Es.
    destruct (touchState w) as [ts|] eqn:E.
    + destruct (negb _ && distGt _ _ _).
      * destruct (longPressTimer _) as [h|]; [destruct (truthy _)|];
          injection Es as <- _; simpl in H1; injection H1 as <-; simpl; auto.
      * injection Es as <- _; simpl in H1; injection H1 as <-; simpl; auto.
    + injection Es as <- _. rewrite E in H1. discriminate.
  - unfold handleTouchEnd in Es.
    destruct (touchState w) as [ts|] eqn:E.
    + destruct (endGesture _ _ _ _ _). injection Es as <- _. discriminate.
    + injection Es as <- _. rewrite E in H1. discriminate.
  - unfold fireTimer in Es.
    destruct (find _ _) as [t|]; [|injection Es as <- _; auto].
    destruct (now <? due t); [injection Es as <- _; auto|].
    destruct (touchState w) as [ts|] eqn:E.
    + destruct (negb (isDragging ts)); injection Es as <- _; simpl in H1;
        injection H1 as <-; simpl; auto.
    + injection Es as <- _. discriminate.
  - unfold clear in Es. injection Es as <- _. discriminate.
  - injection Es as <- _. simpl in H1. auto.
  - injection Es as <- _. simpl in H1. auto.
Qed.

Lemma step_config (w : World) (a : Action) : config (fst (step w a)) = config w.
Proof.
  destruct a as [x y now|x y now|x y now|h now| |t cb|t cb]; simpl; try reflexivity.
  - unfold handleTouchMove. destruct (touchState w) as [ts|]; [|reflexivity].
    destruct (negb _ && distGt _ _ _); [|reflexivity].
    destruct (longPressTimer _); [destruct (truthy _)|]; reflexivity.
  - unfold handleTouchEnd. destruct (touchState w) as [ts|]; [|reflexivity].
    destruct (endGesture _ _ _ _ _). reflexivity.
  - unfold fireTimer. destruct (find _ _) as [t|]; [|reflexivity].
    destruct (now <? due t); [reflexivity|].
    destruct (touchState w) as [ts|]; [|reflexivity].
    destruct (negb (isDragging ts)); reflexivity.
Qed.

Lemma detectSwipeDirection_not_double_tap (dX dY : Q) :
  detectSwipeDirection dX dY <> double_tap.
Proof.
  unfold detectSwipeDirection.
  destruct (Qabs_lt dY dX); [destruct (Js.Qltb 0 dX)|destruct (Js.Qltb 0 dY)];
    discriminate.
Qed.

(** A TouchState that remembers no tap recognises a double tap only when
    the clock itself reads less than the threshold. *)
Lemma step_no_double_tap (w : World) (a : Action) :
  (forall ts, touchState w = Some ts -> lastTapTime ts = 0) ->
  Forall (fun t => doubleTapThreshold (config w) <= t) (liftTimes [a]) ->
  ~ In double_tap (map type (snd (step w a))).
Proof.
  intros Hw Hlift.
  destruct a as [x y now|x y now|x y now|h now| |t cb|t cb]; simpl; auto.
  - unfold handleTouchMove. destruct (touchState w) as [ts|]; [|simpl; tauto].
    destruct (negb _ && distGt _ _ _).
    + destruct (longPressTimer _); [destruct (truthy _)|]; simpl;
        intros [Hin|[Hin'|[]]]; discriminate.
    + simpl. destruct (isDragging ts); simpl; [intros [Hin|[]]; discriminate|tauto].
  - unfold handleTouchEnd. destruct (touchState w) as [ts|] eqn:E; [|simpl; tauto].
    unfold endGesture. simpl. rewrite (Hw ts eq_refl).
    simpl in Hlift. inversion Hlift as [|? ? Hnow _]; subst.
    destruct (isDragging ts); [simpl; intros [Hin|[]]; discriminate|].
    destruct (distGt _ _ _ && _).
    { destruct (velocityGt _ _ _ _); simpl; [|tauto].
      intros [Hin|[]]. exact (detectSwipeDirection_not_double_tap _ _ Hin). }
    destruct (negb _ && distLt _ _ _); [|simpl; tauto].
    destruct (Z.ltb_spec (now - 0) (doubleTapThreshold (config w))); [lia|].
    simpl. intros [Hin|[]]. discriminate.
  - unfold fireTimer. destruct (find _ _) as [t|]; [|simpl; tauto].
    destruct (now <? due t); [simpl; tauto|].
    destruct (touchState w) as [ts|]; [|simpl; tauto].
    destruct (negb (isDragging ts)); simpl; [|tauto].
    intros [Hin|[]]. discriminate.
Qed.

(** On any clock that reads at least [doubleTapThreshold] whenever a finger
    is lifted, a manager never emits [double_tap]. *)
Lemma double_tap_unreachable (c : InputConfig) (acts : list Action) :
  Forall (fun t => doubleTapThreshold c <= t) (liftTimes acts) ->
  ~ In double_tap (emits (newWorld c) acts).
Proof.
  unfold emits.
  assert (G : forall acts w,
             config w = c ->
             (forall ts, touchState w = Some ts -> lastTapTime ts = 0) ->
             Forall (fun t => doubleTapThreshold c <= t) (liftTimes acts) ->
             ~ In double_tap (map type (snd (run w acts)))).
  { clear acts. induction acts as [|a acts IH]; intros w Hc Hw Hl; simpl; [tauto|].
    pose proof (step_config w a) as Hc1.
    pose proof (lastTapTime_forgotten [a] w Hw) as Hw1.
    pose proof (step_no_double_tap w a Hw) as Hn.
    simpl in Hw1. destruct (step w a) as [w1 o1]. simpl in *.
    specialize (IH w1). destruct (run w1 acts) as [w2 o2]. simpl in *.
    rewrite map_app, in_app_iff. intros [H|H].
    - apply Hn; [|assumption]. rewrite Hc.
      destruct a; simpl; auto. inversion Hl; subst. constructor; auto.
    - apply IH; auto; [congruence|].
      destruct a; simpl in Hl; auto. now inversion Hl. }
  intros Hl. apply G; auto. discriminate.
Qed.

(** C1. Default configuration, clock at a present-day [Date.now()]: a
    first quick tap emits exactly one [tap], but a second quick tap 100 ms
    later (well within [doubleTapThreshold] = 300 ms) emits [tap] again and
    not [double_tap], and so does a third. *)
Theorem second_rapid_tap_emits_tap :
  let w := newWorld DEFAULT_INPUT_CONFIG in
  let t0 := 1700000000000 in
  emits w (quickTap 100 100 t0) = [tap]
  /\ emits w (quickTap 100 100 t0 ++ quickTap 100 100 (t0 + 100)) = [tap; tap]
  /\ emits w (quickTap 100 100 t0 ++ quickTap 100 100 (t0 + 100)
              ++ quickTap 100 100 (t0 + 200)) = [tap; tap; tap]
  /\ touchState (fst (run w (quickTap 100 100 t0 ++ [TouchStart 100 100 (t0 + 100)])))
     = Some (mkTouch 100 100 100 100 (t0 + 100) 0 false false (Some 2%nat)).
Proof. vm_compute. repeat split. Qed.

(** *** Drags *)

Lemma start_pressedAt (w : World) (x0 y0 : Q) (t0 : Z) :
  pressedAt (fst (step w (TouchStart x0 y0 t0))) x0 y0
  /\ snd (step w (TouchStart x0 y0 t0)) = [].
Proof.
  split; [|reflexivity]. simpl. eexists. split; [reflexivity|]. simpl. auto.
Qed.

Lemma move_near (w : World) (x0 y0 x y : Q) (now : Z) :
  pressedAt w x0 y0 ->
  distGt (x - x0) (y - y0) (dragThreshold (config w)) = false ->
  pressedAt (fst (step w (TouchMove x y now))) x0 y0
  /\ snd (step w (TouchMove x y now)) = [].
Proof.
  intros (ts & Hts & Hd & Hx & Hy) Hfar. simpl. unfold handleTouchMove.
  rewrite Hts. cbn [isDragging startX startY]. rewrite Hd, Hx, Hy, Hfar. simpl.
  rewrite ?Hd. split; [|reflexivity].
  eexists. split; [reflexivity|]. simpl. auto.
Qed.

Lemma move_far (w : World) (x0 y0 x y : Q) (now : Z) :
  pressedAt w x0 y0 ->
  distGt (x - x0) (y - y0) (dragThreshold (config w)) = true ->
  dragging (fst (step w (TouchMove x y now)))
  /\ map type (snd (step w (TouchMove x y now))) = [drag_start; drag_move].
Proof.
  intros (ts & Hts & Hd & Hx & Hy) Hfar. simpl. unfold handleTouchMove.
  rewrite Hts. cbn [isDragging startX startY]. rewrite Hd, Hx, Hy, Hfar. simpl.
  destruct (longPressTimer ts) as [h|]; [destruct (truthy (Some h))|]; simpl;
    (split; [eexists; split; [reflexivity|reflexivity] | reflexivity]).
Qed.

Lemma move_dragging (w : World) (x y : Q) (now : Z) :
  dragging w ->
  dragging (fst (step w (TouchMove x y now)))
  /\ map type (snd (step w (TouchMove x y now))) = [drag_move].
Proof.
  intros (ts & Hts & Hd). simpl. unfold handleTouchMove.
  rewrite Hts. cbn [isDragging]. rewrite Hd. simpl. rewrite ?Hd.
  split; [|reflexivity]. eexists. split; reflexivity.
Qed.

Lemma moves_dragging (ms : list (Q * Q * Z)) (w : World) :
  dragging w ->
  dragging (fst (run w (map moveOf ms)))
  /\ map type (snd (run w (map moveOf ms))) = repeat drag_move (List.length ms).
Proof.
  revert w. induction ms as [|[[x y] now] ms IH]; intros w Hw; simpl; [auto|].
  destruct (move_dragging w x y now Hw) as [H1 H2]. simpl in H1, H2.
  destruct (handleTouchMove w x y now) as [w1 o1]. simpl in H1, H2.
  destruct (IH w1 H1) as [H3 H4].
  destruct (run w1 (map moveOf ms)) as [w2 o2]. simpl in *.
  split; [assumption|]. rewrite map_app, H2, H4. reflexivity.
Qed.

Lemma end_dragging (w : World) (x y : Q) (now : Z) :
  dragging w -> map type (snd (step w (TouchEnd x y now))) = [drag_end].
Proof.
  intros (ts & Hts & Hd). simpl. unfold handleTouchEnd, endGesture.
  rewrite Hts. cbn [isDragging]. rewrite Hd. reflexivity.
Qed.

(** From a pressed finger, moves of which one goes beyond the threshold
    emit [drag_start] followed by one or more [drag_move], and leave the
    manager dragging. *)
Lemma moves_begin_drag (x0 y0 : Q) (ms : list (Q * Q * Z)) (w : World) :
  pressedAt w x0 y0 ->
  Exists (fun m => fartherThan (dragThreshold (config w)) x0 y0
                               (fst (fst m)) (snd (fst m))) ms ->
  exists k,
    dragging (fst (run w (map moveOf ms)))
    /\ map type (snd (run w (map moveOf ms))) = drag_start :: repeat drag_move (S k).
Proof.
  revert w. induction ms as [|[[x y] now] ms IH]; intros w Hw Hex.
  - inversion Hex.
  - simpl.
    destruct (distGt (x - x0) (y - y0) (dragThreshold (config w))) eqn:Efar.
    + destruct (move_far w x0 y0 x y now Hw Efar) as [H1 H2]. simpl in H1, H2.
      destruct (handleTouchMove w x y now) as [w1 o1]. simpl in H1, H2.
      destruct (moves_dragging ms w1 H1) as [H3 H4].
      destruct (run w1 (map moveOf ms)) as [w2 o2]. simpl in *.
      exists (List.length ms). split; [assumption|].
      rewrite map_app, H2, H4. reflexivity.
    + destruct (move_near w x0 y0 x y now Hw Efar) as [H1 H2].
      pose proof (step_config w (TouchMove x y now)) as Hc. simpl in H1, H2, Hc.
      destruct (handleTouchMove w x y now) as [w1 o1]. simpl in H1, H2, Hc.
      destruct (IH w1 H1) as [k [H3 H4]].
      { rewrite Hc. inversion Hex as [? ? Hhd|? ? Htl]; subst; [|assumption].
        simpl in Hhd. apply distGt_fartherThan in Hhd. congruence. }
      destruct (run w1 (map moveOf ms)) as [w2 o2]. simpl in *.
      exists k. split; [assumption|]. subst o1. simpl. assumption.
Qed.

(** C6. A touch sequence start, one or more moves of which at least one
    lies farther than [dragThreshold] from the start point, end: the
    manager emits exactly one [drag_start], then one or more [drag_move],
    then exactly one [drag_end], and nothing else (no [tap], [double_tap]
    or [swipe_*]). *)
Theorem drag_gesture_events
    (w : World) (x0 y0 : Q) (t0 : Z) (ms : list (Q * Q * Z)) (xe ye : Q) (te : Z) :
  Exists (fun m => fartherThan (dragThreshold (config w)) x0 y0
                               (fst (fst m)) (snd (fst m))) ms ->
  exists k,
    emits w (TouchStart x0 y0 t0 :: map moveOf ms ++ [TouchEnd xe ye te])
    = drag_start :: repeat drag_move (S k) ++ [drag_end].
Proof.
  intros Hex. unfold emits.
  change (TouchStart x0 y0 t0 :: map moveOf ms ++ [TouchEnd xe ye te])
    with ([TouchStart x0 y0 t0] ++ map moveOf ms ++ [TouchEnd xe ye te]).
  rewrite run_app. cbn [snd fst].
  destruct (start_pressedAt w x0 y0 t0) as [Hp Hs].
  pose proof (step_config w (TouchStart x0 y0 t0)) as Hc.
  assert (Hrun1 : run w [TouchStart x0 y0 t0]
                  = (fst (step w (TouchStart x0 y0 t0)), [])).
  { simpl. reflexivity. }
  rewrite Hrun1. cbn [fst snd app].
  set (w1 := fst (step w (TouchStart x0 y0 t0))) in *.
  rewrite run_app. cbn [snd fst].
  destruct (moves_begin_drag x0 y0 ms w1 Hp) as [k [Hd Hev]].
  { now rewrite Hc. }
  exists k. rewrite map_app, Hev.
  set (w2 := fst (run w1 (map moveOf ms))) in *.
  pose proof (end_dragging w2 xe ye te Hd) as He.
  simpl in He |- *. destruct (handleTouchEnd w2 xe ye te) as [w3 o3].
  simpl in *. rewrite app_nil_r, He. reflexivity.
Qed.

Lemma drag_gesture_events_witness :
  exists k,
    Input.emits (Input.newWorld Input.DEFAULT_INPUT_CONFIG)
      (Input.TouchStart 100 100 1000
        :: map Input.moveOf Input.sampleMoves ++ [Input.TouchEnd 130 110 1040])
    = Input.drag_start :: repeat Input.drag_move (S k) ++ [Input.drag_end].
Proof.
  apply (drag_gesture_events (newWorld DEFAULT_INPUT_CONFIG) 100 100 1000
           sampleMoves 130 110 1040).
  apply Exists_cons_tl, Exists_cons_hd. right. vm_compute. reflexivity.
Defined.

(** *** Long-press timers *)

Lemma truthy_positive (h : nat) : (1 <= h)%nat -> truthy (Some h) = true.
Proof. destruct h; [lia | reflexivity]. Qed.

Lemma clearTimeout_In (ts : list Timer) (h : nat) (t : Timer) :
  In t (clearTimeout ts h) <-> In t ts /\ handle t <> h.
Proof.
  unfold clearTimeout. rewrite filter_In, negb_true_iff, Nat.eqb_neq. tauto.
Qed.

(** Clearing the timer the live TouchState holds empties the table. *)
Lemma owned_cleared (w : World) (t : Timer) :
  timersOwned w ->
  In t (match touchState w with
        | Some ts =>
            match longPressTimer ts with
            | Some h => if truthy (longPressTimer ts) then clearTimeout (timers w) h
                        else timers w
            | None => timers w
            end
        | None => timers w
        end) ->
  False.
Proof.
  intros (Hn & Hh & Ht) Hin.
  destruct (touchState w) as [ts|] eqn:E.
  - destruct (longPressTimer ts) as [h|] eqn:El.
    + rewrite truthy_positive in Hin by (apply (Hh ts h); auto).
      apply clearTimeout_In in Hin. destruct Hin as [Hin Hne].
      destruct (Ht t Hin) as (ts' & [= <-] & Hl & _). congruence.
    + destruct (Ht t Hin) as (ts' & [= <-] & Hl & _). congruence.
  - destruct (Ht t Hin) as (ts' & Habs & _). discriminate.
Qed.

Lemma newWorld_owned (c : InputConfig) : timersOwned (newWorld c).
Proof.
  unfold timersOwned, newWorld. cbn [nextHandle touchState timers].
  split; [lia|]. split; [discriminate|]. intros t [].
Qed.

Lemma step_owned (w : World) (a : Action) :
  timersOwned w -> timersOwned (fst (step w a)).
Proof.
  intros Hw. pose proof Hw as (Hn & Hh & Ht).
  destruct a as [x y now|x y now|x y now|h now| |ty cb|ty cb]; simpl.
  - (* handleTouchStart *)
    unfold handleTouchStart, timersOwned. cbn [fst nextHandle touchState timers].
    split; [lia|]. split.
    + intros ts' h' [= <-] [= <-]. lia.
    + intros t Hin. apply in_app_iff in Hin. destruct Hin as [Hin|[<-|[]]].
      * exfalso. apply (owned_cleared w t Hw).
        destruct (touchState w) as [ts|]; [|assumption].
        destruct (longPressTimer ts); assumption.
      * eexists. split; [reflexivity|]. split; reflexivity.
  - (* handleTouchMove *)
    unfold handleTouchMove.
    destruct (touchState w) as [ts|] eqn:E; [|assumption].
    cbn [isDragging longPressTimer].
    destruct (negb (isDragging ts) && distGt _ _ _) eqn:Ec.
    + assert (Hnone : forall t,
                 In t (match longPressTimer ts with
                       | Some h0 => if truthy (longPressTimer ts)
                                    then clearTimeout (timers w) h0 else timers w
                       | None => timers w
                       end) -> False).
      { intros t Hin. apply (owned_cleared w t Hw). now rewrite E. }
      destruct (longPressTimer ts) as [h|] eqn:El.
      * rewrite truthy_positive in * by (apply (Hh ts h); auto).
        unfold timersOwned. cbn [fst nextHandle touchState timers].
        split; [assumption|]. split.
        -- intros ts' h' [= <-]. discriminate.
        -- intros t Hin. destruct (Hnone t Hin).
      * unfold timersOwned. cbn [fst nextHandle touchState timers].
        split; [assumption|]. split.
        -- intros ts' h' [= <-]. discriminate.
        -- intros t Hin. destruct (Hnone t Hin).
    + unfold timersOwned. cbn [fst nextHandle touchState timers].
      split; [assumption|]. split.
      * intros ts' h' [= <-] Hl. cbn in Hl. apply (Hh ts h'); auto.
      * intros t Hin. destruct (Ht t Hin) as (ts' & [= <-] & Hl & Hd).
        eexists. split; [reflexivity|]. cbn. auto.
  - (* handleTouchEnd *)
    unfold handleTouchEnd.
    destruct (touchState w) as [ts|] eqn:E; [|assumption].
    destruct (endGesture _ _ _ _ _) as [ts1 out].
    unfold timersOwned. cbn [fst nextHandle touchState timers].
    split; [assumption|]. split; [discriminate|].
    intros t Hin. exfalso. apply (owned_cleared w t Hw). now rewrite E.
  - (* the timer callback *)
    unfold fireTimer.
    destruct (find _ _) as [t0|]; [|assumption].
    destruct (now <? due t0); [assumption|].
    destruct (touchState w) as [ts|] eqn:E.
    + destruct (negb (isDragging ts)) eqn:Ed;
        unfold timersOwned; cbn [fst nextHandle touchState timers];
        (split; [assumption|]); split.
      * intros ts' h' [= <-] Hl. cbn in Hl. apply (Hh ts h'); auto.
      * intros t Hin. apply clearTimeout_In in Hin. destruct Hin as [Hin _].
        destruct (Ht t Hin) as (ts' & [= <-] & Hl & Hd).
        eexists. split; [reflexivity|]. cbn. auto.
      * intros ts' h' [= <-] Hl. apply (Hh ts h'); auto.
      * intros t Hin. apply clearTimeout_In in Hin. destruct Hin as [Hin _].
        exact (Ht t Hin).
    + unfold timersOwned. cbn [fst nextHandle touchState timers].
      split; [assumption|]. split; [discriminate|].
      intros t Hin. apply clearTimeout_In in Hin. destruct Hin as [Hin _].
      destruct (Ht t Hin) as (ts' & Habs & _). discriminate.
  - (* clear *)
    unfold clear, timersOwned. cbn [fst nextHandle touchState timers].
    split; [assumption|]. split; [discriminate|].
    intros t Hin. exfalso. apply (owned_cleared w t Hw). assumption.
  - assumption.
  - assumption.
Qed.

Lemma run_owned (acts : list Action) (w : World) :
  timersOwned w -> timersOwned (fst (run w acts)).
Proof.
  revert w. induction acts as [|a acts IH]; intros w Hw; simpl; [assumption|].
  pose proof (step_owned w a Hw) as H1.
  destruct (step w a) as [w1 o1]. simpl in H1.
  specialize (IH w1 H1). destruct (run w1 acts) as [w2 o2]. assumption.
Qed.

Lemma discards_drops (w : World) (a : Action) (ts : TouchState) :
  touchState w = Some ts -> discards a = true ->
  touchState (fst (step w a)) = None
  \/ exists ts', touchState (fst (step w a)) = Some ts'
                 /\ longPressTimer ts' = Some (nextHandle w).
Proof.
  intros Hts Hd. destruct a; try discriminate; simpl.
  - right. eexists. split; reflexivity.
  - left. unfold handleTouchEnd. rewrite Hts.
    destruct (endGesture _ _ _ _ _). reflexivity.
  - left. reflexivity.
Qed.

(** C7. In every reachable state of the manager, a pending timer is the
    long-press timer of the live TouchState, which has not begun to drag
    (so with no TouchState nothing is pending); when a touch start, a
    touch end or [clear()] drops a TouchState its timer is not pending
    afterwards, and neither is it once a move has begun the drag. *)
Theorem long_press_timer_never_outlives_touch (c : InputConfig) (acts : list Action) :
  let w := fst (run (newWorld c) acts) in
  (forall h, pending w h ->
     exists ts, touchState w = Some ts /\ longPressTimer ts = Some h
                /\ isDragging ts = false)
  /\ (touchState w = None -> timers w = [])
  /\ (forall a ts h,
        touchState w = Some ts -> longPressTimer ts = Some h ->
        discards a = true -> ~ pending (fst (step w a)) h)
  /\ (forall x y now ts h,
        touchState w = Some ts -> longPressTimer ts = Some h ->
        dragging (fst (handleTouchMove w x y now)) ->
        ~ pending (fst (handleTouchMove w x y now)) h).
Proof.
  intros w.
  assert (Hw : timersOwned w) by (apply run_owned, newWorld_owned).
  assert (Hp : forall w', timersOwned w' -> forall h, pending w' h ->
             exists ts, touchState w' = Some ts /\ longPressTimer ts = Some h
                        /\ isDragging ts = false).
  { intros w' (_ & _ & Ht) h (t & Hin & <-). exact (Ht t Hin). }
  split; [exact (Hp w Hw)|]. split; [|split].
  - intros Hnone. destruct (timers w) as [|t ts] eqn:E; [reflexivity|].
    destruct Hw as (_ & _ & Ht). destruct (Ht t) as (ts' & Habs & _).
    + rewrite E. now left.
    + congruence.
  - intros a ts h Hts Hl Hd Hpend.
    pose proof (step_owned w a Hw) as Hw1.
    destruct (Hp _ Hw1 h Hpend) as (ts1 & Hts1 & Hl1 & _).
    destruct (discards_drops w a ts Hts Hd) as [Hnone|(ts' & Hts' & Hl')].
    + congruence.
    + assert (h = nextHandle w) by congruence.
      destruct Hw as (_ & Hh & _). specialize (Hh ts h Hts Hl). lia.
  - intros x y now ts h Hts Hl (ts' & Hts' & Hdrag) Hpend.
    pose proof (step_owned w (TouchMove x y now) Hw) as Hw1. simpl in Hw1.
    destruct (Hp _ Hw1 h Hpend) as (ts1 & Hts1 & _ & Hd1). congruence.
Qed.

(** *** Drags while the host fires timers *)

Lemma timer_pressed (w : World) (x0 y0 : Q) (h : nat) (now : Z) :
  pressedAt w x0 y0 ->
  pressedAt (fst (step w (TimerFires h now))) x0 y0
  /\ filter notLongPress (map type (snd (step w (TimerFires h now)))) = [].
Proof.
  intros (ts & Hts & Hd & Hx & Hy). simpl. unfold fireTimer.
  destruct (find _ _) as [t|];
    [|split; [exists ts; auto | reflexivity]].
  destruct (now <? due t); [split; [exists ts; auto | reflexivity]|].
  rewrite Hts, Hd. simpl. split; [|reflexivity].
  eexists. split; [reflexivity|]. simpl. auto.
Qed.

Lemma timer_dragging (w : World) (h : nat) (now : Z) :
  dragging w ->
  dragging (fst (step w (TimerFires h now)))
  /\ snd (step w (TimerFires h now)) = [].
Proof.
  intros (ts & Hts & Hd). simpl. unfold fireTimer.
  destruct (find _ _) as [t|];
    [|split; [exists ts; auto | reflexivity]].
  destruct (now <? due t); [split; [exists ts; auto | reflexivity]|].
  rewrite Hts, Hd. simpl. split; [|reflexivity].
  exists ts. auto.
Qed.

Lemma during_dragging (mids : list Action) (w : World) :
  dragging w -> forallb duringTouch mids = true ->
  exists k,
    dragging (fst (run w mids))
    /\ map type (snd (run w mids)) = repeat drag_move k.
Proof.
  revert w. induction mids as [|a mids IH]; intros w Hw Hall; simpl.
  - exists 0%nat. auto.
  - simpl in Hall. apply andb_true_iff in Hall. destruct Hall as [Ha Hall].
    destruct a as [x y now|x y now|x y now|h now| |t cb|t cb]; try discriminate.
    + destruct (move_dragging w x y now Hw) as [H1 H2]. simpl in H1, H2 |- *.
      destruct (handleTouchMove w x y now) as [w1 o1]. simpl in H1, H2.
      destruct (IH w1 H1 Hall) as [k [H3 H4]].
      destruct (run w1 mids) as [w2 o2]. simpl in *.
      exists (S k). split; [assumption|]. rewrite map_app, H2, H4. reflexivity.
    + destruct (timer_dragging w h now Hw) as [H1 H2]. simpl in H1, H2 |- *.
      destruct (fireTimer w h now) as [w1 o1]. simpl in H1, H2.
      destruct (IH w1 H1 Hall) as [k [H3 H4]].
      destruct (run w1 mids) as [w2 o2]. simpl in *.
      exists k. split; [assumption|]. subst o1. assumption.
Qed.

Lemma filter_repeat_drag_move (k : nat) :
  filter notLongPress (repeat drag_move k) = repeat drag_move k.
Proof. induction k as [|k IH]; simpl; [reflexivity | now rewrite IH]. Qed.

Lemma during_begins_drag (x0 y0 : Q) (mids : list Action) (w : World) :
  pressedAt w x0 y0 -> forallb duringTouch mids = true ->
  Exists (farMove (dragThreshold (config w)) x0 y0) mids ->
  exists k,
    dragging (fst (run w mids))
    /\ filter notLongPress (map type (snd (run w mids)))
       = drag_start :: repeat drag_move (S k).
Proof.
  revert w. induction mids as [|a mids IH]; intros w Hw Hall Hex.
  - inversion Hex.
  - simpl in Hall. apply andb_true_iff in Hall. destruct Hall as [Ha Hall].
    destruct a as [x y now|x y now|x y now|h now| |t cb|t cb]; try discriminate.
    + simpl.
      destruct (distGt (x - x0) (y - y0) (dragThreshold (config w))) eqn:Efar.
      * destruct (move_far w x0 y0 x y now Hw Efar) as [H1 H2]. simpl in H1, H2.
        destruct (handleTouchMove w x y now) as [w1 o1]. simpl in H1, H2.
        destruct (during_dragging mids w1 H1 Hall) as [k [H3 H4]].
        destruct (run w1 mids) as [w2 o2]. simpl in *.
        exists k. split; [assumption|].
        rewrite map_app, H2, H4. simpl. now rewrite filter_repeat_drag_move.
      * destruct (move_near w x0 y0 x y now Hw Efar) as [H1 H2].
        pose proof (step_config w (TouchMove x y now)) as Hc. simpl in H1, H2, Hc.
        destruct (handleTouchMove w x y now) as [w1 o1]. simpl in H1, H2, Hc.
        destruct (IH w1 H1 Hall) as [k [H3 H4]].
        { rewrite Hc. inversion Hex as [? ? Hhd|? ? Htl]; subst; [|assumption].
          simpl in Hhd. apply distGt_fartherThan in Hhd. congruence. }
        destruct (run w1 mids) as [w2 o2]. simpl in *.
        exists k. split; [assumption|]. subst o1. simpl. assumption.
    + destruct (timer_pressed w x0 y0 h now Hw) as [H1 H2].
      pose proof (step_config w (TimerFires h now)) as Hc. simpl in H1, H2, Hc |- *.
      destruct (fireTimer w h now) as [w1 o1]. simpl in H1, H2, Hc.
      destruct (IH w1 H1 Hall) as [k [H3 H4]].
      { rewrite Hc. inversion Hex as [? ? Hhd|? ? Htl]; subst; [destruct Hhd|assumption]. }
      destruct (run w1 mids) as [w2 o2]. simpl in *.
      exists k. split; [assumption|]. rewrite map_app, filter_app, H2, H4. reflexivity.
Qed.

(** The same gesture with timer callbacks run by the host between the
    moves: apart from a possible [long_press] before the drag begins, the
    events are again one [drag_start], one or more [drag_move], one
    [drag_end]. *)
Lemma timers_do_not_disturb_drag
    (w : World) (x0 y0 : Q) (t0 : Z) (mids : list Action) (xe ye : Q) (te : Z) :
  forallb duringTouch mids = true ->
  Exists (farMove (dragThreshold (config w)) x0 y0) mids ->
  exists k,
    filter notLongPress
      (emits w (TouchStart x0 y0 t0 :: mids ++ [TouchEnd xe ye te]))
    = drag_start :: repeat drag_move (S k) ++ [drag_end].
Proof.
  intros Hall Hex. unfold emits.
  change (TouchStart x0 y0 t0 :: mids ++ [TouchEnd xe ye te])
    with ([TouchStart x0 y0 t0] ++ mids ++ [TouchEnd xe ye te]).
  rewrite run_app. cbn [snd fst].
  destruct (start_pressedAt w x0 y0 t0) as [Hp Hs].
  pose proof (step_config w (TouchStart x0 y0 t0)) as Hc.
  assert (Hrun1 : run w [TouchStart x0 y0 t0]
                  = (fst (step w (TouchStart x0 y0 t0)), [])).
  { simpl. reflexivity. }
  rewrite Hrun1. cbn [fst snd app].
  set (w1 := fst (step w (TouchStart x0 y0 t0))) in *.
  rewrite run_app. cbn [snd fst].
  destruct (during_begins_drag x0 y0 mids w1 Hp Hall) as [k [Hd Hev]].
  { now rewrite Hc. }
  exists k. rewrite map_app, filter_app, Hev.
  set (w2 := fst (run w1 mids)) in *.
  pose proof (end_dragging w2 xe ye te Hd) as He.
  simpl in He |- *. destruct (handleTouchEnd w2 xe ye te) as [w3 o3].
  simpl in *. rewrite app_nil_r, He. reflexivity.
Qed.

Lemma long_press_timer_witness :
  Input.timers
    (fst (Input.run (Input.newWorld Input.DEFAULT_INPUT_CONFIG)
            [Input.TouchStart 100 100 1000; Input.TouchEnd 100 100 1040])) = [].
Proof.
  apply (proj1 (proj2 (long_press_timer_never_outlives_touch
                         DEFAULT_INPUT_CONFIG
                         [TouchStart 100 100 1000; TouchEnd 100 100 1040]))).
  reflexivity.
Defined.

End InputFacts.

Section GeometryFacts.
Import Geometry.
Local Open Scope R_scope.

Lemma Rltb_true (a b : R) : Rltb a b = true <-> a < b.
Proof. unfold Rltb. destruct (Rlt_dec a b); split; auto; discriminate. Qed.

Lemma Rltb_false (a b : R) : Rltb a b = false <-> b <= a.
Proof.
  unfold Rltb. destruct (Rlt_dec a b); split; auto; try discriminate; lra.
Qed.

Lemma Rleb_true (a b : R) : Rleb a b = true <-> a <= b.
Proof. unfold Rleb. destruct (Rle_dec a b); split; auto; discriminate. Qed.

(** X1. [checkAABBCollision] does not depend on the order of its
    arguments, and two boxes that only touch along an edge (the right edge
    of one on the left edge of the other) do not collide. *)
Theorem checkAABBCollision_symmetric_strict (a b : AABB) :
  checkAABBCollision a b = checkAABBCollision b a
  /\ (x a + width a = x b -> checkAABBCollision a b = false).
Proof.
  split.
  - unfold checkAABBCollision.
    destruct (Rltb (x a) (x b + width b)), (Rltb (x b) (x a + width a)),
      (Rltb (y a) (y b + height b)), (Rltb (y b) (y a + height a)); reflexivity.
  - intros H. unfold checkAABBCollision.
    assert (E : Rltb (x b) (x a + width a) = false) by (apply Rltb_false; lra).
    rewrite E. now rewrite andb_false_r.
Qed.

(** [checkCircleCollision] does not depend on the order of its
    arguments, and a circle of positive radius collides with itself. *)
Theorem checkCircleCollision_symmetric (a b : Circle) :
  checkCircleCollision a b = checkCircleCollision b a
  /\ (0 < radius a -> checkCircleCollision a a = true).
Proof.
  split.
  - unfold checkCircleCollision. cbv zeta.
    replace ((cx b - cx a) * (cx b - cx a) + (cy b - cy a) * (cy b - cy a))
      with ((cx a - cx b) * (cx a - cx b) + (cy a - cy b) * (cy a - cy b)) by ring.
    now rewrite (Rplus_comm (radius b)).
  - intros H. unfold checkCircleCollision. cbv zeta. apply Rltb_true.
    replace ((cx a - cx a) * (cx a - cx a) + (cy a - cy a) * (cy a - cy a))
      with 0 by ring.
    rewrite sqrt_0. lra.
Qed.

(** X2. A circle of positive radius whose centre lies in a box (edges
    included) collides with the box. *)
Theorem center_inside_collides (circle : Circle) (box : AABB) :
  pointInAABB (cx circle) (cy circle) box = true ->
  0 < radius circle ->
  checkCircleAABBCollision circle box = true.
Proof.
  unfold pointInAABB, checkCircleAABBCollision. intros Hin Hr. cbv zeta.
  apply andb_true_iff in Hin. destruct Hin as [Hin H4].
  apply andb_true_iff in Hin. destruct Hin as [Hin H3].
  apply andb_true_iff in Hin. destruct Hin as [H1 H2].
  apply Rleb_true in H1, H2, H3, H4.
  rewrite (Rmin_left (cx circle)), (Rmin_left (cy circle)) by assumption.
  rewrite !Rmax_right by assumption.
  apply Rltb_true.
  replace ((cx circle - cx circle) * (cx circle - cx circle)
           + (cy circle - cy circle) * (cy circle - cy circle)) with 0 by ring.
  rewrite sqrt_0. assumption.
Qed.

Lemma center_inside_collides_witness :
  Geometry.checkCircleAABBCollision
    (Geometry.mkCircle 1 1 2) (Geometry.mkAABB 0 0 4 3) = true.
Proof.
  apply (center_inside_collides (mkCircle 1 1 2) (mkAABB 0 0 4 3)).
  - unfold pointInAABB. simpl.
    repeat (apply andb_true_iff; split); apply Rleb_true; lra.
  - simpl. lra.
Defined.

Lemma Rclamp_between (lo hi v : R) :
  lo <= hi -> lo <= Rmax lo (Rmin v hi) <= hi.
Proof.
  intros H. unfold Rmax, Rmin.
  destruct (Rle_dec v hi); destruct (Rle_dec lo _); lra.
Qed.

Lemma Rclamp_fixed (lo hi v : R) :
  lo <= v <= hi -> Rmax lo (Rmin v hi) = v.
Proof.
  intros H. unfold Rmax, Rmin.
  destruct (Rle_dec v hi); destruct (Rle_dec lo _); lra.
Qed.

(** X3. [clampAABB] keeps the size of the box.  On each axis, with the
    far limit bounds.x + bounds.width - box.width as the code computes it:
    when the limit is not below bounds.x the new coordinate lies between
    bounds.x and the limit, and a coordinate already between them is kept;
    when the limit is below bounds.x (the box is larger than the bounds) the
    new coordinate is bounds.x. *)
Theorem clampAABB_between_limits (box bounds : AABB) :
  let c := clampAABB box bounds in
  let farX := x bounds + width bounds - width box in
  let farY := y bounds + height bounds - height box in
  width c = width box /\ height c = height box
  /\ (x bounds <= farX -> x bounds <= x c <= farX)
  /\ (x bounds <= x box <= farX -> x c = x box)
  /\ (farX < x bounds -> x c = x bounds)
  /\ (y bounds <= farY -> y bounds <= y c <= farY)
  /\ (y bounds <= y box <= farY -> y c = y box)
  /\ (farY < y bounds -> y c = y bounds).
Proof.
  cbv zeta. unfold clampAABB. cbn [x y width height].
  repeat match goal with |- _ /\ _ => split end; try reflexivity.
  - apply Rclamp_between.
  - apply Rclamp_fixed.
  - intros H. unfold Rmax, Rmin.
    destruct (Rle_dec (x box) _); destruct (Rle_dec (x bounds) _); lra.
  - apply Rclamp_between.
  - apply Rclamp_fixed.
  - intros H. unfold Rmax, Rmin.
    destruct (Rle_dec (y box) _); destruct (Rle_dec (y bounds) _); lra.
Qed.

(** [clamp] with [min <= max] returns a value between them, and a
    value already between them is returned unchanged; clamping twice is
    clamping once. *)
Theorem clamp_between (value min max : R) :
  min <= max ->
  min <= clamp value min max <= max
  /\ (min <= value <= max -> clamp value min max = value)
  /\ clamp (clamp value min max) min max = clamp value min max.
Proof.
  intros H. unfold clamp.
  pose proof (Rclamp_between min max value H) as Hb.
  split; [assumption|]. split.
  - apply Rclamp_fixed.
  - apply Rclamp_fixed. assumption.
Qed.

Lemma clamp_between_witness :
  0 <= Geometry.clamp 15 0 10 <= 10
  /\ (0 <= 15 <= 10 -> Geometry.clamp 15 0 10 = 15)
  /\ Geometry.clamp (Geometry.clamp 15 0 10) 0 10 = Geometry.clamp 15 0 10.
Proof. apply (clamp_between 15 0 10). lra. Defined.

(** X4. For an input range with inMin < inMax, [map] sends inMin to
    outMin and keeps the order of values when outMin <= outMax (so a value
    at or above inMin is sent at or above outMin), and reverses it when
    outMax <= outMin. *)
Theorem map_starts_at_outMin_and_keeps_order
    (v1 v2 inMin inMax outMin outMax : R) :
  inMin < inMax ->
  map inMin inMin inMax outMin outMax = outMin
  /\ (outMin <= outMax -> v1 <= v2 ->
      map v1 inMin inMax outMin outMax <= map v2 inMin inMax outMin outMax)
  /\ (outMin <= outMax -> inMin <= v1 ->
      outMin <= map v1 inMin inMax outMin outMax)
  /\ (outMax <= outMin -> v1 <= v2 ->
      map v2 inMin inMax outMin outMax <= map v1 inMin inMax outMin outMax).
Proof.
  intros Hi. unfold map.
  assert (Hd : 0 < / (inMax - inMin)) by (apply Rinv_0_lt_compat; lra).
  repeat match goal with |- _ /\ _ => split end.
  - unfold Rdiv. replace (inMin - inMin) with 0 by ring.
    rewrite !Rmult_0_l. ring.
  - intros Ho Hv. apply Rplus_le_compat_r. unfold Rdiv.
    apply Rmult_le_compat_r; [lra | nra].
  - intros Ho Hv.
    assert (0 <= (v1 - inMin) * (outMax - outMin) / (inMax - inMin)); [|lra].
    unfold Rdiv. apply Rmult_le_pos; [nra | lra].
  - intros Ho Hv. apply Rplus_le_compat_r. unfold Rdiv.
    apply Rmult_le_compat_r; [lra | nra].
Qed.

Lemma map_starts_at_outMin_and_keeps_order_witness :
  Geometry.map 0 0 10 100 200 = 100
  /\ (100 <= 200 -> 3 <= 7 ->
      Geometry.map 3 0 10 100 200 <= Geometry.map 7 0 10 100 200).
Proof.
  destruct (map_starts_at_outMin_and_keeps_order 3 7 0 10 100 200) as (H1 & H2 & _).
  - lra.
  - split; assumption.
Defined.

(** X5. After [bounceOffBoundary] on bounds of non-negative size the
    position lies inside the bounds (edges included); on an axis where the
    body was outside, the velocity component is multiplied by
    -restitution, and on an axis where it was inside, position and
    velocity are kept. *)
Theorem bounceOffBoundary_inside (b : Physics.PhysicsBody) (bounds : AABB) :
  0 <= width bounds -> 0 <= height bounds ->
  let b' := bounceOffBoundary b bounds in
  let px := Physics.x (Physics.position b) in
  let py := Physics.y (Physics.position b) in
  x bounds <= Physics.x (Physics.position b') <= x bounds + width bounds
  /\ y bounds <= Physics.y (Physics.position b') <= y bounds + height bounds
  /\ (px < x bounds \/ x bounds + width bounds < px ->
      Physics.x (Physics.velocity b')
      = - Physics.restitution b * Physics.x (Physics.velocity b))
  /\ (x bounds <= px <= x bounds + width bounds ->
      Physics.x (Physics.position b') = px
      /\ Physics.x (Physics.velocity b') = Physics.x (Physics.velocity b))
  /\ (py < y bounds \/ y bounds + height bounds < py ->
      Physics.y (Physics.velocity b')
      = - Physics.restitution b * Physics.y (Physics.velocity b))
  /\ (y bounds <= py <= y bounds + height bounds ->
      Physics.y (Physics.position b') = py
      /\ Physics.y (Physics.velocity b') = Physics.y (Physics.velocity b)).
Proof.
  intros Hw Hh b' px py. unfold b', bounceOffBoundary. fold px py.
  pose proof (Rclamp_between (x bounds) (x bounds + width bounds) px) as Cx.
  pose proof (Rclamp_between (y bounds) (y bounds + height bounds) py) as Cy.
  destruct (Rltb px (x bounds)) eqn:E1;
    destruct (Rltb (x bounds + width bounds) px) eqn:E2;
    destruct (Rltb py (y bounds)) eqn:E3;
    destruct (Rltb (y bounds + height bounds) py) eqn:E4;
    cbn [orb Physics.x Physics.y Physics.position Physics.velocity];
    try apply Rltb_true in E1; try apply Rltb_false in E1;
    try apply Rltb_true in E2; try apply Rltb_false in E2;
    try apply Rltb_true in E3; try apply Rltb_false in E3;
    try apply Rltb_true in E4; try apply Rltb_false in E4;
    repeat split; intros; try lra.
Qed.

Lemma bounceOffBoundary_inside_witness :
  let b := Physics.mkBody (Physics.mkVector2D 12 5) (Physics.mkVector2D 3 (-1))
                          (Physics.mkVector2D 0 0) 1 (1/10) (1/2) in
  Geometry.x (Geometry.mkAABB 0 0 10 10)
  <= Physics.x (Physics.position (Geometry.bounceOffBoundary b (Geometry.mkAABB 0 0 10 10)))
  <= Geometry.x (Geometry.mkAABB 0 0 10 10) + Geometry.width (Geometry.mkAABB 0 0 10 10).
Proof.
  intros b.
  pose proof (bounceOffBoundary_inside b (mkAABB 0 0 10 10)) as H.
  simpl in H. cbv zeta in H.
  destruct H as (H1 & _); [lra | lra |]. exact H1.
Defined.

(** X6. [applyGravity(g)] leaves position, velocity, mass and the
    horizontal acceleration alone.  On a body of mass 0 it changes nothing
    at all (the guarded [divide] turns the force into the zero vector);
    otherwise it adds (g * mass) / mass to the vertical acceleration. *)
Theorem applyGravity_vertical_only (b : Physics.PhysicsBody) (g : R) :
  let b' := Physics.applyGravity b g in
  Physics.position b' = Physics.position b
  /\ Physics.velocity b' = Physics.velocity b
  /\ Physics.mass b' = Physics.mass b
  /\ Physics.x (Physics.acceleration b') = Physics.x (Physics.acceleration b)
  /\ (Physics.mass b = 0 -> Physics.acceleration b' = Physics.acceleration b)
  /\ (Physics.mass b <> 0 ->
      Physics.y (Physics.acceleration b')
      = Physics.y (Physics.acceleration b) + g * Physics.mass b / Physics.mass b).
Proof.
  cbv zeta. unfold Physics.applyGravity, Physics.applyForce, Physics.divide.
  cbn [Physics.position Physics.velocity Physics.mass Physics.acceleration].
  repeat match goal with |- _ /\ _ => split end; try reflexivity.
  - destruct (Req_dec_T (Physics.mass b) 0); cbn [Physics.add Physics.x];
      unfold Rdiv; rewrite ?Rmult_0_l; lra.
  - intros Hm. destruct (Req_dec_T (Physics.mass b) 0); [|contradiction].
    destruct (Physics.acceleration b) as [ax ay].
    unfold Physics.add. cbn [Physics.x Physics.y]. f_equal; lra.
  - intros Hm. destruct (Req_dec_T (Physics.mass b) 0); [contradiction|].
    reflexivity.
Qed.

End GeometryFacts.


Section RandomFacts.
Local Open Scope Z_scope.

(** A draw in [0, 1) scaled by a positive integer [n] floors to one of
    0, ..., n - 1. *)
Lemma Qfloor_scaled (r : Q) (n : Z) :
  (0 <= r)%Q -> (r < 1)%Q -> 0 < n ->
  0 <= Qfloor (r * inject_Z n) <= n - 1.
Proof.
  intros H0 H1 Hn.
  assert (Hq : (0 < inject_Z n)%Q) by (unfold Qlt; simpl; lia).
  split.
  - change 0 with (Qfloor 0). apply Qfloor_resp_le.
    apply Qmult_le_0_compat; [assumption | apply Qlt_le_weak; assumption].
  - assert (Hlt : (r * inject_Z n < inject_Z n)%Q).
    { apply Qlt_le_trans with (1 * inject_Z n)%Q.
      - apply Qmult_lt_r; assumption.
      - rewrite Qmult_1_l. apply Qle_refl. }
    pose proof (Qfloor_le (r * inject_Z n)) as Hf.
    assert (Hz : (inject_Z (Qfloor (r * inject_Z n)) < inject_Z n)%Q).
    { eapply Qle_lt_trans; eassumption. }
    rewrite <- Zlt_Qlt in Hz. lia.
Qed.

(** X8. For a draw of [Math.random()] (in [0, 1)) and integers
    [min <= max], [randomInt(min, max)] lies between [min] and [max],
    both included. *)
Theorem randomInt_in_range (r : Q) (min max : Z) :
  (0 <= r)%Q -> (r < 1)%Q -> min <= max ->
  min <= Geometry.randomInt r min max <= max.
Proof.
  intros H0 H1 Hm. unfold Geometry.randomInt.
  pose proof (Qfloor_scaled r (max - min + 1) H0 H1 ltac:(lia)). lia.
Qed.

Lemma randomInt_in_range_witness :
  1 <= Geometry.randomInt (7 # 10) 1 6 <= 6.
Proof.
  apply (randomInt_in_range (7 # 10) 1 6); [| | lia].
  - vm_compute. discriminate.
  - vm_compute. reflexivity.
Defined.

End RandomFacts.

Section RenderQueueFacts.
Import RenderQueue.
Local Open Scope list_scope.

Lemma compare_ordered (a b : RenderableItem) :
  Qle_bool (compareItems a b) 0 = true <-> ordered a b.
Proof.
  rewrite Qle_bool_iff. unfold compareItems, ordered. cbv zeta.
  destruct (Qeq_bool (layerOf a) (layerOf b)) eqn:E; cbn [negb].
  - apply Qeq_bool_iff in E. split.
    + intros H. right. split; [assumption | Lqa.lra].
    + intros [H|[_ H]]; Lqa.lra.
  - apply Qeq_bool_neq in E. split.
    + intros H. left.
      destruct (Qlt_le_dec (layerOf a) (layerOf b)) as [Hl|Hl]; [assumption|].
      exfalso. apply E. Lqa.lra.
    + intros [H|[H _]]; [Lqa.lra | contradiction].
Qed.

Lemma compare_total (a b : RenderableItem) :
  Qle_bool (compareItems a b) 0 = false -> ordered b a.
Proof.
  intros H.
  assert (Hn : ~ ordered a b).
  { intros Ho. apply compare_ordered in Ho. congruence. }
  unfold ordered in *.
  destruct (Qlt_le_dec (layerOf b) (layerOf a)) as [Hl|Hl]; [now left|].
  right. apply Qle_lteq in Hl. destruct Hl as [Hl|Hl]; [exfalso; apply Hn; now left|].
  split; [symmetry; assumption|].
  destruct (Qlt_le_dec (zIndexOf a) (zIndexOf b)) as [Hz|Hz]; [|assumption].
  exfalso. apply Hn. right. split; [assumption | Lqa.lra].
Qed.

Lemma ordered_trans (a b c : RenderableItem) :
  ordered a b -> ordered b c -> ordered a c.
Proof.
  unfold ordered. intros [H1|[H1 H1']] [H2|[H2 H2']].
  - left. Lqa.lra.
  - left. Lqa.lra.
  - left. Lqa.lra.
  - right. split; Lqa.lra.
Qed.

Lemma insertItem_perm (a : RenderableItem) (l : list RenderableItem) :
  Permutation (insertItem a l) (a :: l).
Proof.
  induction l as [|b l IH]; simpl; [reflexivity|].
  destruct (Qle_bool (compareItems a b) 0); [reflexivity|].
  rewrite IH. apply perm_swap.
Qed.

Lemma insertItem_sorted (a : RenderableItem) (l : list RenderableItem) :
  StronglySorted ordered l -> StronglySorted ordered (insertItem a l).
Proof.
  induction l as [|b l IH]; intros Hs; simpl.
  - repeat constructor.
  - inversion Hs as [|? ? Hs' Hall]; subst.
    destruct (Qle_bool (compareItems a b) 0) eqn:E.
    + apply compare_ordered in E. constructor; [assumption|].
      constructor; [assumption|].
      eapply Forall_impl; [|exact Hall]. intros c Hc. eapply ordered_trans; eauto.
    + apply compare_total in E. constructor; [now apply IH|].
      eapply Permutation_Forall; [symmetry; apply insertItem_perm|].
      constructor; assumption.
Qed.

Lemma insertItem_stable (l z : Q) (a : RenderableItem) (rest : list RenderableItem) :
  filter (drawnAt l z) (insertItem a rest)
  = if drawnAt l z a then a :: filter (drawnAt l z) rest
    else filter (drawnAt l z) rest.
Proof.
  induction rest as [|b rest IH]; simpl; [reflexivity|].
  destruct (Qle_bool (compareItems a b) 0) eqn:E; [reflexivity|].
  simpl. rewrite IH.
  destruct (drawnAt l z a) eqn:Ea; [|reflexivity].
  destruct (drawnAt l z b) eqn:Eb; [|reflexivity].
  exfalso.
  unfold drawnAt in Ea, Eb.
  apply andb_true_iff in Ea, Eb. destruct Ea as [Ea1 Ea2], Eb as [Eb1 Eb2].
  apply Qeq_bool_iff in Ea1, Ea2, Eb1, Eb2.
  assert (Ho : ordered a b) by (right; split; Lqa.lra).
  apply compare_ordered in Ho. congruence.
Qed.

(** X9. [getSorted()] returns the items of the queue, each once, in
    non-decreasing order of (layer, zIndex) with the defaults GAME and 0;
    items with the same layer and zIndex keep their insertion order. *)
Theorem getSorted_sorted_stable (q : Queue) :
  StronglySorted ordered (getSorted q)
  /\ Permutation (getSorted q) (values q)
  /\ forall l z, filter (drawnAt l z) (getSorted q) = filter (drawnAt l z) (values q).
Proof.
  unfold getSorted. induction (values q) as [|a l IH]; simpl.
  - repeat split; constructor.
  - destruct IH as (Hs & Hp & Hst). split; [|split].
    + now apply insertItem_sorted.
    + rewrite insertItem_perm. now constructor.
    + intros lay z. rewrite insertItem_stable, Hst. reflexivity.
Qed.

(** *** The map of items *)

Lemma mapGet_mapSet_same (q : Queue) (k : string) (v : RenderableItem) :
  mapGet (mapSet q k v) k = Some v.
Proof.
  unfold mapGet. induction q as [|[k' v'] q IH]; simpl.
  - now rewrite String.eqb_refl.
  - destruct (String.eqb k' k) eqn:E; simpl.
    + now rewrite String.eqb_refl.
    + rewrite E. exact IH.
Qed.

Lemma mapGet_mapSet_other (q : Queue) (k k0 : string) (v : RenderableItem) :
  k0 <> k -> mapGet (mapSet q k v) k0 = mapGet q k0.
Proof.
  intros Hne. unfold mapGet. induction q as [|[k' v'] q IH]; simpl.
  - destruct (String.eqb_spec k k0); [congruence | reflexivity].
  - destruct (String.eqb_spec k' k) as [->|Hk]; simpl.
    + destruct (String.eqb_spec k k0); [congruence | reflexivity].
    + destruct (String.eqb_spec k' k0); [reflexivity | exact IH].
Qed.

Lemma mapSet_keys (q : Queue) (k : string) (v : RenderableItem) :
  List.map fst (mapSet q k v)
  = match mapGet q k with
    | Some _ => List.map fst q
    | None => List.map fst q ++ [k]
    end.
Proof.
  unfold mapGet. induction q as [|[k' v'] q IH]; simpl; [reflexivity|].
  destruct (String.eqb_spec k' k) as [->|Hk]; simpl; [reflexivity|].
  rewrite IH. destruct (find _ q); reflexivity.
Qed.

Lemma mapGet_None_keys (q : Queue) (k : string) :
  mapGet q k = None <-> ~ In k (List.map fst q).
Proof.
  unfold mapGet. induction q as [|[k' v'] q IH]; simpl; [tauto|].
  destruct (String.eqb_spec k' k) as [->|Hk]; simpl.
  - split; [discriminate | intros H; exfalso; apply H; now left].
  - rewrite IH. tauto.
Qed.

Lemma remove_keys (q : Queue) (k k0 : string) :
  In k0 (List.map fst (remove q k)) <-> In k0 (List.map fst q) /\ k0 <> k.
Proof.
  unfold remove. rewrite !in_map_iff. split.
  - intros [[k1 v1] [<- Hin]]. apply filter_In in Hin. destruct Hin as [Hin Hne].
    simpl in *. apply negb_true_iff in Hne.
    destruct (String.eqb_spec k1 k); [discriminate|].
    split; [exists (k1, v1); auto | assumption].
  - intros [[[k1 v1] [<- Hin]] Hne]. exists (k1, v1). split; [reflexivity|].
    apply filter_In. split; [assumption|]. simpl in *.
    apply negb_true_iff. now apply String.eqb_neq.
Qed.

Lemma remove_NoDup (q : Queue) (k : string) :
  NoDup (List.map fst q) -> NoDup (List.map fst (remove q k)).
Proof.
  unfold remove. induction q as [|[k' v'] q IH]; simpl; intros Hnd; [constructor|].
  inversion Hnd as [|? ? Hnotin Hnd']; subst.
  destruct (negb (String.eqb k' k)); simpl; [|now apply IH].
  constructor; [|now apply IH].
  intros Hin. apply Hnotin. apply (remove_keys q k k') in Hin. tauto.
Qed.

Lemma run_keys_NoDup (cs : list Call) :
  NoDup (List.map fst (run cs))
  /\ Forall (fun kv => id (snd kv) = fst kv) (run cs).
Proof.
  unfold run.
  assert (G : forall cs q,
             NoDup (List.map fst q) /\ Forall (fun kv => id (snd kv) = fst kv) q ->
             NoDup (List.map fst (fold_left call cs q))
             /\ Forall (fun kv => id (snd kv) = fst kv) (fold_left call cs q)).
  { clear cs. induction cs as [|c cs IH]; intros q Hq; simpl; [assumption|].
    apply IH. destruct Hq as [Hnd Hid].
    destruct c as [item|k|]; simpl.
    - split.
      + unfold add. rewrite mapSet_keys.
        destruct (mapGet q (id item)) eqn:E; [assumption|].
        apply mapGet_None_keys in E.
        clear Hid. induction (List.map fst q) as [|k0 ks IHk]; simpl.
        * constructor; [intros []|constructor].
        * inversion Hnd; subst. constructor.
          -- rewrite in_app_iff. intros [H|[H|[]]]; [contradiction|].
             apply E. left. congruence.
          -- apply IHk; [assumption|]. intros H. apply E. now right.
      + unfold add. clear Hnd.
        induction Hid as [|[k0 v0] q Hk Hq IHq]; simpl.
        * repeat constructor.
        * destruct (String.eqb k0 (id item)); constructor; auto.
    - split; [now apply remove_NoDup|].
      unfold remove. apply Forall_forall. intros kv Hin.
      apply filter_In in Hin. rewrite Forall_forall in Hid. now apply Hid.
    - split; constructor. }
  apply G. split; constructor.
Qed.

(** X10. In a queue built by [add]/[remove]/[clear] the ids are distinct.
    [add] makes the item the one found under its id, replacing an item of
    the same id (the count stays) or else growing the count by one, and
    leaves every other id alone; [remove] makes the id absent, and removing
    an absent id changes nothing. *)
Theorem queue_add_remove (cs : list Call) (item : RenderableItem) (k : string) :
  let q := run cs in
  NoDup (List.map id (values q))
  /\ mapGet (add q item) (id item) = Some item
  /\ (k <> id item -> mapGet (add q item) k = mapGet q k)
  /\ count (add q item)
     = match mapGet q (id item) with
       | Some _ => count q
       | None => S (count q)
       end
  /\ mapGet (remove q k) k = None
  /\ (mapGet q k = None -> remove q k = q).
Proof.
  intros q. destruct (run_keys_NoDup cs) as [Hnd Hid]. fold q in Hnd, Hid.
  split; [|split; [|split; [|split; [|split]]]].
  - unfold values. rewrite map_map.
    replace (List.map (fun kv => id (snd kv)) q) with (List.map fst q); [assumption|].
    clear Hnd. induction Hid as [|kv q' Hk Hq IH]; simpl; [reflexivity|].
    now rewrite Hk, IH.
  - apply mapGet_mapSet_same.
  - intros Hne. now apply mapGet_mapSet_other.
  - unfold count, add.
    rewrite <- (length_map fst (mapSet q (id item) item)), mapSet_keys.
    destruct (mapGet q (id item)); rewrite ?length_app, length_map; simpl; lia.
  - apply mapGet_None_keys. intros Hin. apply remove_keys in Hin. tauto.
  - intros Hnone. apply mapGet_None_keys in Hnone. unfold remove.
    clear Hnd Hid. induction q as [|[k' v'] q' IH]; simpl; [reflexivity|].
    destruct (String.eqb_spec k' k) as [->|Hk]; simpl.
    + exfalso. apply Hnone. now left.
    + f_equal. apply IH. intros H. apply Hnone. now right.
Qed.

End RenderQueueFacts.

Section EasingFacts.
Import Easing.
Local Open Scope Q_scope.

Lemma Qltb_ge (a b : Q) : Js.Qltb a b = false <-> b <= a.
Proof.
  unfold Js.Qltb. rewrite negb_false_iff. apply Qle_bool_iff.
Qed.

Lemma easeInOut_unit : unitEasing easeInOut.
Proof.
  split; [reflexivity|]. split; [reflexivity|].
  intros t H0 H1. unfold easeInOut.
  destruct (Js.Qltb t (1 # 2)) eqn:E.
  - apply Qltb_lt in E. split; Lqa.nra.
  - apply Qltb_ge in E. split; Lqa.nra.
Qed.

Lemma easeOutCubic_unit : unitEasing easeOutCubic.
Proof.
  split; [reflexivity|]. split; [reflexivity|].
  intros t H0 H1. unfold easeOutCubic. cbv zeta.
  assert (Hs : 0 <= (t - 1) * (t - 1) /\ (t - 1) * (t - 1) <= 1) by (split; Lqa.nra).
  destruct Hs as [Hs0 Hs1]. split; Lqa.nra.
Qed.

Lemma easeInOutCubic_unit : unitEasing easeInOutCubic.
Proof.
  split; [reflexivity|]. split; [reflexivity|].
  intros t H0 H1. unfold easeInOutCubic.
  destruct (Js.Qltb t (1 # 2)) eqn:E.
  - apply Qltb_lt in E.
    assert (Hs : 0 <= t * t /\ t * t <= 1 # 4) by (split; Lqa.nra).
    destruct Hs as [Hs0 Hs1]. split; Lqa.nra.
  - apply Qltb_ge in E.
    assert (Hs : 0 <= (2 * t - 2) * (2 * t - 2) /\ (2 * t - 2) * (2 * t - 2) <= 1)
      by (split; Lqa.nra).
    destruct Hs as [Hs0 Hs1]. split; Lqa.nra.
Qed.

Lemma bounce_unit : unitEasing bounce.
Proof.
  assert (C1 : 1 / (275 # 100) == 4 # 11) by reflexivity.
  assert (C2 : 2 / (275 # 100) == 8 # 11) by reflexivity.
  assert (C3 : (25 # 10) / (275 # 100) == 10 # 11) by reflexivity.
  assert (D2 : (15 # 10) / (275 # 100) == 6 # 11) by reflexivity.
  assert (D3 : (225 # 100) / (275 # 100) == 9 # 11) by reflexivity.
  assert (D4 : (2625 # 1000) / (275 # 100) == 21 # 22) by reflexivity.
  split; [reflexivity|]. split; [reflexivity|].
  intros t H0 H1. unfold bounce.
  destruct (Js.Qltb t (1 / (275 # 100))) eqn:E1.
  { apply Qltb_lt in E1. rewrite C1 in E1. split; Lqa.nra. }
  apply Qltb_ge in E1. rewrite C1 in E1.
  destruct (Js.Qltb t (2 / (275 # 100))) eqn:E2.
  { apply Qltb_lt in E2. rewrite C2 in E2.
    cbv zeta. set (u := t - (15 # 10) / (275 # 100)).
    assert (Hu : u == t - (6 # 11)) by (unfold u; rewrite D2; reflexivity).
    assert (Hu2 : u * u <= 4 # 121) by Lqa.nra.
    assert (Hu0 : 0 <= u * u) by Lqa.nra.
    split; Lqa.lra. }
  apply Qltb_ge in E2. rewrite C2 in E2.
  destruct (Js.Qltb t ((25 # 10) / (275 # 100))) eqn:E3.
  { apply Qltb_lt in E3. rewrite C3 in E3.
    cbv zeta. set (u := t - (225 # 100) / (275 # 100)).
    assert (Hu : u == t - (9 # 11)) by (unfold u; rewrite D3; reflexivity).
    assert (Hu2 : u * u <= 1 # 121) by Lqa.nra.
    assert (Hu0 : 0 <= u * u) by Lqa.nra.
    split; Lqa.lra. }
  apply Qltb_ge in E3. rewrite C3 in E3.
  cbv zeta. set (u := t - (2625 # 1000) / (275 # 100)).
  assert (Hu : u == t - (21 # 22)) by (unfold u; rewrite D4; reflexivity).
  assert (Hu2 : u * u <= 1 # 484) by Lqa.nra.
  assert (Hu0 : 0 <= u * u) by Lqa.nra.
  split; Lqa.lra.
Qed.

(** X11. Each of the eight easing functions sends 0 to 0 and 1 to 1 and
    maps the interval [0, 1] into itself. *)
Theorem easings_fix_ends_and_stay_in_unit :
  Forall unitEasing Easing.all.
Proof.
  unfold Easing.all.
  repeat (apply Forall_cons; [|]); try apply Forall_nil.
  - split; [reflexivity|]. split; [reflexivity|]. unfold linear. auto.
  - split; [reflexivity|]. split; [reflexivity|].
    intros t H0 H1. unfold easeIn. split; Lqa.nra.
  - split; [reflexivity|]. split; [reflexivity|].
    intros t H0 H1. unfold easeOut. split; Lqa.nra.
  - apply easeInOut_unit.
  - split; [reflexivity|]. split; [reflexivity|].
    intros t H0 H1. unfold easeInCubic.
    assert (Hs : 0 <= t * t /\ t * t <= 1) by (split; Lqa.nra).
    destruct Hs as [Hs0 Hs1]. split; Lqa.nra.
  - apply easeOutCubic_unit.
  - apply easeInOutCubic_unit.
  - apply bounce_unit.
Qed.

End EasingFacts.

Section AnimationFacts.
Import Animation.
Local Open Scope Q_scope.

Lemma Qmin_one_l (q : Q) : 1 <= q -> Qmin 1 q = 1.
Proof.
  intros H. unfold Qmin, GenericMinMax.gmin.
  destruct (1 ?= q) eqn:E; try reflexivity.
  apply Qgt_alt in E. exfalso. exact (Qlt_not_le _ _ E H).
Qed.

Lemma Qmin_one_r (q : Q) : q < 1 -> Qmin 1 q = q.
Proof.
  intros H. unfold Qmin, GenericMinMax.gmin.
  destruct (1 ?= q) eqn:E; try reflexivity.
  - apply Qeq_alt in E. exfalso. rewrite <- E in H. exact (Qlt_irrefl _ H).
  - apply Qlt_alt in E. exfalso. exact (Qlt_irrefl _ (Qlt_trans _ _ _ H E)).
Qed.

Lemma progress_positive (elapsed : Z) (d : Q) :
  0 < d -> progress elapsed d = Some (Qmin 1 (inject_Z elapsed / d)).
Proof.
  intros Hd. unfold progress.
  destruct (Qeq_bool d 0) eqn:E; [|reflexivity].
  apply Qeq_bool_iff in E. rewrite E in Hd. exfalso. exact (Qlt_irrefl _ Hd).
Qed.

(** X12. An animation of positive duration that has been started, with
    value(t) = startValue + (endValue - startValue) * easing(t): while the
    elapsed time is below the duration, [update()] calls [onUpdate] once,
    with value(elapsed / duration), and returns true; once the elapsed time
    has reached the duration it calls [onUpdate] with value(1), then
    [onComplete] if there is one, stops and returns false; every later
    [update()] calls nothing and returns false. *)
Theorem animation_runs_once (a : Animation) (t0 now : Z) :
  0 < duration a ->
  let a1 := start a t0 in
  let value t := startValue a + (endValue a - startValue a) * easingFunction a t in
  (inject_Z (now - t0) < duration a ->
     update a1 now
     = Some (a1, [onUpdate (value (inject_Z (now - t0) / duration a))], true))
  /\ (duration a <= inject_Z (now - t0) ->
        update a1 now
        = Some (stop a1,
                onUpdate (value 1) :: (if hasOnComplete a then [onComplete] else []),
                false))
  /\ (forall later, update (stop a1) later = Some (stop a1, [], false)).
Proof.
  intros Hd a1 value. split; [|split].
  - intros Hlt. unfold update. cbn [isRunning a1 start negb startTime duration].
    rewrite progress_positive by assumption.
    assert (Hq : inject_Z (now - t0) / duration a < 1).
    { apply Qlt_shift_div_r; [assumption|]. now rewrite Qmult_1_l. }
    rewrite Qmin_one_r by assumption.
    destruct (Qle_bool 1 (inject_Z (now - t0) / duration a)) eqn:E.
    + apply Qle_bool_iff in E. exfalso. exact (Qlt_not_le _ _ Hq E).
    + reflexivity.
  - intros Hge. unfold update. cbn [isRunning a1 start negb startTime duration].
    rewrite progress_positive by assumption.
    assert (Hq : 1 <= inject_Z (now - t0) / duration a).
    { apply Qle_shift_div_l; [assumption|]. now rewrite Qmult_1_l. }
    rewrite Qmin_one_l by assumption.
    replace (Qle_bool 1 1) with true by reflexivity.
    reflexivity.
  - intros later. reflexivity.
Qed.

Lemma animation_runs_once_witness :
  Animation.update
    (Animation.start (Animation.create 0 100 500 Easing.easeOut true) 1000) 1600
  = Some (Animation.stop
            (Animation.start (Animation.create 0 100 500 Easing.easeOut true) 1000),
          [Animation.onUpdate (0 + (100 - 0) * Easing.easeOut 1); Animation.onComplete],
          false).
Proof.
  apply (proj1 (proj2 (animation_runs_once
                         (create 0 100 500 Easing.easeOut true) 1000 1600
                         eq_refl))).
  vm_compute. discriminate.
Defined.

End AnimationFacts.

Section CameraFacts.
Import Camera.
Local Open Scope R_scope.

(** X13. The camera's position is the world point drawn at the screen
    origin: [worldToScreen] sends (camera.x, camera.y) to (0, 0) and, with a
    non-zero zoom, [screenToWorld] sends (0, 0) to (camera.x, camera.y).
    With a positive zoom both conversions keep the order of coordinates on
    each axis. *)
Theorem camera_corner_is_screen_origin (c : Camera) (p1 p2 q : R) :
  worldToScreen c (x c) (y c) = Physics.mkVector2D 0 0
  /\ (zoom c <> 0 -> screenToWorld c 0 0 = Physics.mkVector2D (x c) (y c))
  /\ (0 < zoom c -> p1 <= p2 ->
      Physics.x (worldToScreen c p1 q) <= Physics.x (worldToScreen c p2 q)
      /\ Physics.y (worldToScreen c q p1) <= Physics.y (worldToScreen c q p2)
      /\ Physics.x (screenToWorld c p1 q) <= Physics.x (screenToWorld c p2 q)
      /\ Physics.y (screenToWorld c q p1) <= Physics.y (screenToWorld c q p2)).
Proof.
  unfold worldToScreen, screenToWorld. cbn [Physics.x Physics.y].
  split; [|split].
  - f_equal; ring.
  - intros Hz. f_equal; field; assumption.
  - intros Hz Hp.
    assert (Hi : 0 < / zoom c) by now apply Rinv_0_lt_compat.
    unfold Rdiv. repeat split; nra.
Qed.

(** X14. [clampToBounds] keeps the size and the zoom of the camera.  On
    each axis, with the far limit maxX - width as the code computes it: when
    the limit is not below minX the new coordinate lies between minX and
    the limit, and a coordinate already between them is kept; when the
    limit is below minX (the world is smaller than the viewport) the new
    coordinate is minX. *)
Theorem clampToBounds_between_limits (c : Camera) (minX minY maxX maxY : R) :
  let c' := clampToBounds c minX minY maxX maxY in
  width c' = width c /\ height c' = height c /\ zoom c' = zoom c
  /\ (minX <= maxX - width c -> minX <= x c' <= maxX - width c)
  /\ (minX <= x c <= maxX - width c -> x c' = x c)
  /\ (maxX - width c < minX -> x c' = minX)
  /\ (minY <= maxY - height c -> minY <= y c' <= maxY - height c)
  /\ (minY <= y c <= maxY - height c -> y c' = y c)
  /\ (maxY - height c < minY -> y c' = minY).
Proof.
  cbv zeta. unfold clampToBounds. cbn [x y width height zoom].
  repeat match goal with |- _ /\ _ => split end; try reflexivity.
  - apply Rclamp_between.
  - apply Rclamp_fixed.
  - intros H. unfold Rmax, Rmin.
    destruct (Rle_dec (x c) _); destruct (Rle_dec minX _); lra.
  - apply Rclamp_between.
  - apply Rclamp_fixed.
  - intros H. unfold Rmax, Rmin.
    destruct (Rle_dec (y c) _); destruct (Rle_dec minY _); lra.
Qed.

Lemma Rleb_negb_Rltb (a b : R) : Geometry.Rleb a b = negb (Geometry.Rltb b a).
Proof.
  unfold Geometry.Rleb, Geometry.Rltb.
  destruct (Rle_dec a b), (Rlt_dec b a); simpl; try reflexivity; lra.
Qed.

(** A point is visible exactly when the box of size zero at that
    point is visible, with the same margin. *)
Theorem point_visible_as_empty_box (c : Camera) (px py margin : R) :
  isVisible c px py margin = isAABBVisible c (Geometry.mkAABB px py 0 0) margin.
Proof.
  unfold isVisible, isAABBVisible. simpl. rewrite !Rplus_0_r.
  rewrite !Rleb_negb_Rltb, !negb_orb. reflexivity.
Qed.

End CameraFacts.

Section ParticleLifeFacts.
Import Particles ParticleLife.
Local Open Scope Q_scope.

Lemma inRange_within (r : Q) (range : Q * Q) :
  0 <= r -> r < 1 -> fst range <= snd range -> within range (inRange r range).
Proof.
  intros H0 H1 Hr. unfold within, inRange. destruct range as [lo hi]. simpl in *.
  split; Lqa.nra.
Qed.

Lemma emit_loop_appends maxP ex ey vr lr sr col rnd (P : Particle -> Prop) :
  (forall i, P (mkParticle ex ey
                  (inRange (rnd (4 * i)%nat) vr) (inRange (rnd (4 * i + 1)%nat) vr)
                  (inRange (rnd (4 * i + 2)%nat) lr) (inRange (rnd (4 * i + 2)%nat) lr)
                  (inRange (rnd (4 * i + 3)%nat) sr) col)) ->
  forall (n i : nat) (ps : list Particle),
  exists fresh,
    emit_loop maxP ex ey vr lr sr col rnd n i ps = ps ++ fresh /\ Forall P fresh.
Proof.
  intros HP. induction n as [|n IH]; intros i ps; cbn [emit_loop].
  - exists []. split; [now rewrite app_nil_r | constructor].
  - destruct (Z.of_nat (List.length ps) <? maxP)%Z.
    + destruct (IH (S i) (ps ++ [mkParticle ex ey
                  (inRange (rnd (4 * i)%nat) vr) (inRange (rnd (4 * i + 1)%nat) vr)
                  (inRange (rnd (4 * i + 2)%nat) lr) (inRange (rnd (4 * i + 2)%nat) lr)
                  (inRange (rnd (4 * i + 3)%nat) sr) col])) as [fresh [He Hf]].
      eexists. split; [rewrite He, <- app_assoc; reflexivity|].
      constructor; [apply HP | assumption].
    + exists []. split; [now rewrite app_nil_r | constructor].
Qed.

(** X15. [emit] keeps the particles there are, in order, and appends the
    new ones after them.  With draws in [0, 1) and ranges given low end
    first, every new particle sits at the emission point, has the chosen
    colour, [maxLife] equal to its life, and velocity, life and size inside
    their ranges. *)
Theorem emit_appends_fresh
    (s : ParticleSystem) (ex ey : Q) (n : Z) (o : EmitOptions) (rnd : Random) :
  unitDraws rnd ->
  fst (velocityRangeOf o) <= snd (velocityRangeOf o) ->
  fst (lifeRangeOf o) <= snd (lifeRangeOf o) ->
  fst (sizeRangeOf o) <= snd (sizeRangeOf o) ->
  exists fresh,
    particles (emit s ex ey n o rnd) = particles s ++ fresh
    /\ Forall (freshAt ex ey o) fresh.
Proof.
  intros Hr Hv Hl Hs. unfold emit. cbn [particles].
  apply emit_loop_appends. intros i. unfold freshAt. cbn.
  repeat split; try reflexivity;
    try (apply inRange_within; [apply Hr | apply Hr | assumption]).
Qed.

Lemma emit_appends_fresh_witness :
  exists fresh,
    Particles.particles
      (Particles.emit (Particles.newSystem 3) 7 9 2 Particles.noOptions (fun _ => 1 # 2))
    = Particles.particles (Particles.newSystem 3) ++ fresh
    /\ Forall (ParticleLife.freshAt 7 9 Particles.noOptions) fresh.
Proof.
  apply (emit_appends_fresh (newSystem 3) 7 9 2 noOptions (fun _ => 1 # 2)).
  - intros i. split; [vm_compute; discriminate | reflexivity].
  - vm_compute. discriminate.
  - vm_compute. discriminate.
  - vm_compute. discriminate.
Defined.

Lemma update_survivors (s : ParticleSystem) (dt : Q) :
  particles (update s dt)
  = List.map (age dt)
      (filter (fun p => Js.Qltb (dt * (1000 # 1)) (life p)) (particles s)).
Proof.
  unfold update. cbn [particles].
  induction (particles s) as [|p ps IH]; cbn [fold_right filter List.map];
    [reflexivity|].
  rewrite IH.
  assert (Hl : life (age dt p) = life p - dt * (1000 # 1)) by reflexivity.
  destruct (Qle_bool (life (age dt p)) 0) eqn:E.
  - apply Qle_bool_iff in E. rewrite Hl in E.
    assert (Hb : Js.Qltb (dt * (1000 # 1)) (life p) = false).
    { apply Qltb_ge. Lqa.lra. }
    now rewrite Hb.
  - assert (Hb : Js.Qltb (dt * (1000 # 1)) (life p) = true).
    { apply Qltb_lt. apply Qnot_le_lt. intros Hle.
      assert (Hc : Qle_bool (life (age dt p)) 0 = true)
        by (apply Qle_bool_iff; rewrite Hl; Lqa.lra).
      congruence. }
    now rewrite Hb.
Qed.

Lemma call_keeps_life_bound (s : ParticleSystem) (c : Call) :
  forwardInTime [c] ->
  Forall (fun p => life p <= maxLife p) (particles s) ->
  Forall (fun p => life p <= maxLife p) (particles (call s c)).
Proof.
  intros Hc Hs. destruct c as [ex ey n o rnd|dt|]; cbn [call].
  - unfold emit. cbn [particles].
    destruct (emit_loop_appends (maxParticles s) ex ey
                (orDefault (velocityRange o) (-100 # 1, 100 # 1))
                (orDefault (lifeRange o) (500 # 1, 1500 # 1))
                (orDefault (sizeRange o) (2 # 1, 6 # 1))
                (orDefault (optColor o) "#FFFFFF"%string) rnd
                (fun p => life p <= maxLife p)
                (fun i => Qle_refl _) (Z.to_nat n) 0%nat (particles s))
      as [fresh [He Hf]].
    rewrite He. apply Forall_app. split; assumption.
  - rewrite update_survivors. apply Forall_map.
    inversion Hc as [|? ? Hdt _]; subst.
    induction Hs as [|p ps Hp Hps IH]; simpl; [constructor|].
    destruct (Js.Qltb _ _); [constructor|]; auto.
    cbn. Lqa.lra.
  - constructor.
Qed.

(** X16. From the constructor, through any emit/update/clear calls whose
    update steps are not negative, no particle's life exceeds its
    [maxLife]; [update(dt)] keeps, in order, exactly the particles whose
    life is more than 1000 * dt, aged by that much, so every particle it
    leaves has a positive life. *)
Theorem particles_life_bounds (N : Z) (cs : list Call) (dt : Q) :
  forwardInTime cs ->
  let s := run (newSystem N) cs in
  Forall (fun p => life p <= maxLife p) (particles s)
  /\ particles (update s dt)
     = List.map (age dt)
         (filter (fun p => Js.Qltb (dt * (1000 # 1)) (life p)) (particles s))
  /\ Forall (fun p => 0 < life p) (particles (update s dt)).
Proof.
  intros Hcs s. split; [|split].
  - unfold s, run.
    assert (G : forall cs s0, forwardInTime cs ->
               Forall (fun p => life p <= maxLife p) (particles s0) ->
               Forall (fun p => life p <= maxLife p) (particles (fold_left call cs s0))).
    { clear. induction cs as [|c cs IH]; intros s0 Hc Hs; simpl; [assumption|].
      inversion Hc; subst. apply IH; [assumption|].
      apply call_keeps_life_bound; [|assumption]. constructor; [assumption|constructor]. }
    apply G; [assumption | constructor].
  - apply update_survivors.
  - rewrite update_survivors. apply Forall_map.
    induction (particles s) as [|p ps IH]; simpl; [constructor|].
    destruct (Js.Qltb (dt * (1000 # 1)) (life p)) eqn:E; [|assumption].
    constructor; [|assumption]. apply Qltb_lt in E. cbn. Lqa.lra.
Qed.

Lemma particles_life_bounds_witness :
  let s := Particles.run (Particles.newSystem 3)
             [Particles.CallEmit 0 0 2 Particles.noOptions (fun _ => 1 # 2);
              Particles.CallUpdate (1 # 10)] in
  Forall (fun p => Particles.life p <= Particles.maxLife p) (Particles.particles s).
Proof.
  apply (proj1 (particles_life_bounds 3
                  [CallEmit 0 0 2 noOptions (fun _ => 1 # 2); CallUpdate (1 # 10)]
                  (1 # 2)
                  ltac:(repeat constructor; vm_compute; discriminate))).
Defined.

End ParticleLifeFacts.

Section ButtonsFacts.
Import Buttons.
Local Open Scope list_scope.

Lemma has_setAdd (s : list string) (k k0 : string) :
  has (setAdd s k) k0 = has s k0 || String.eqb k0 k.
Proof.
  unfold setAdd. destruct (has s k) eqn:E.
  - destruct (String.eqb_spec k0 k) as [->|Hne]; [now rewrite E | now rewrite orb_false_r].
  - unfold has. rewrite existsb_app. simpl. now rewrite orb_false_r.
Qed.

Lemma has_setDelete (s : list string) (k k0 : string) :
  has (setDelete s k) k0 = has s k0 && negb (String.eqb k0 k).
Proof.
  unfold has, setDelete. induction s as [|a s IH]; simpl; [reflexivity|].
  destruct (String.eqb_spec k a) as [->|Hne]; simpl.
  - rewrite IH. destruct (String.eqb_spec k0 a); simpl; [|reflexivity].
    now rewrite andb_false_r.
  - rewrite IH. destruct (String.eqb_spec k0 a) as [->|Hne']; simpl; [|reflexivity].
    destruct (String.eqb_spec a k); [congruence | reflexivity].
Qed.

(** While the finger is down the loop only ever adds to the pressed set,
    and it leaves every button that is under the point pressed. *)
Lemma touchLoop_down cbs px py (bs : list (string * VirtualButton)) :
  forall down,
    let '(bs1, down1, fired) := touchLoop cbs px py true bs down in
    (forall k, has down k = true -> has down1 k = true)
    /\ (forall kb, In kb bs1 -> hitAt px py kb = true -> has down1 (fst kb) = true).
Proof.
  induction bs as [|[k b] bs IH]; intros down; cbn [touchLoop].
  - split; [auto | intros kb []].
  - destruct (isPointInButton px py b) eqn:Eh; cbn [andb negb].
    + destruct (has down k) eqn:Ek; cbn [negb].
      * specialize (IH down). destruct (touchLoop cbs px py true bs down) as [[bs2 down2] f2].
        destruct IH as [Hm Hh]. split; [assumption|].
        intros kb [<-|Hin] Hhit; cbn [fst]; [auto | now apply Hh].
      * specialize (IH (setAdd down k)).
        destruct (touchLoop cbs px py true bs (setAdd down k)) as [[bs2 down2] f2].
        destruct IH as [Hm Hh]. split.
        -- intros k0 H0. apply Hm. rewrite has_setAdd, H0. reflexivity.
        -- intros kb [<-|Hin] Hhit; cbn [fst]; [|now apply Hh].
           apply Hm. rewrite has_setAdd, String.eqb_refl. now rewrite orb_true_r.
    + specialize (IH down). destruct (touchLoop cbs px py true bs down) as [[bs2 down2] f2].
      destruct IH as [Hm Hh]. split; [assumption|].
      intros kb [<-|Hin] Hhit; [|now apply Hh].
      unfold hitAt in Hhit. cbn [snd] in Hhit. congruence.
Qed.

Lemma touchLoop_settled cbs px py (bs : list (string * VirtualButton)) (down : list string) :
  (forall kb, In kb bs -> hitAt px py kb = true -> has down (fst kb) = true) ->
  touchLoop cbs px py true bs down = (bs, down, []).
Proof.
  induction bs as [|[k b] bs IH]; intros H; cbn [touchLoop]; [reflexivity|].
  assert (E : isPointInButton px py b && true && negb (has down k) = false).
  { destruct (isPointInButton px py b) eqn:Eh; [|reflexivity].
    pose proof (H (k, b) (or_introl eq_refl) Eh) as Hk. cbn [fst] in Hk.
    now rewrite Hk. }
  rewrite E. cbn [negb andb].
  rewrite IH; [reflexivity|]. intros kb Hin. apply H. now right.
Qed.

(** X17. The press callbacks are edge-triggered: a second
    [handleTouch(x, y, true)] at the same point calls no callback and
    changes nothing, and after the first one every button under the point
    is pressed. *)
Theorem handleTouch_press_is_edge_triggered (m : Manager) (px py : Q) :
  let m1 := fst (handleTouch m px py true) in
  handleTouch m1 px py true = (m1, [])
  /\ (forall kb, In kb (buttons m1) -> hitAt px py kb = true ->
        isButtonPressed m1 (fst kb) = true)
  /\ (forall k, isButtonPressed m k = true -> isButtonPressed m1 k = true).
Proof.
  unfold handleTouch, isButtonPressed.
  pose proof (touchLoop_down (callbacks m) px py (buttons m) (pressedButtons m)) as H.
  destruct (touchLoop (callbacks m) px py true (buttons m) (pressedButtons m))
    as [[bs1 down1] f1].
  destruct H as [Hm Hh]. cbn [fst buttons pressedButtons callbacks].
  split; [|split; assumption].
  rewrite touchLoop_settled by assumption. reflexivity.
Qed.

(** When the finger is lifted the loop only removes from the pressed set,
    calls nothing, and removes every registered button from it. *)
Lemma touchLoop_up cbs px py (bs : list (string * VirtualButton)) :
  forall down,
    let '(bs1, down1, fired) := touchLoop cbs px py false bs down in
    fired = []
    /\ List.map fst bs1 = List.map fst bs
    /\ (forall k, has down1 k = true -> has down k = true)
    /\ (forall k, In k (List.map fst bs) -> has down1 k = false).
Proof.
  induction bs as [|[k b] bs IH]; intros down; cbn [touchLoop].
  - repeat split; auto; intros ? [].
  - rewrite andb_false_r. cbn [negb andb].
    destruct (has down k) eqn:Ek.
    + specialize (IH (setDelete down k)).
      destruct (touchLoop cbs px py false bs (setDelete down k)) as [[bs2 down2] f2].
      destruct IH as (Hf & Hk & Hm & Hn). subst f2.
      split; [reflexivity|]. split; [cbn; now rewrite Hk|]. split.
      * intros k0 H0. apply Hm in H0. rewrite has_setDelete in H0.
        now apply andb_true_iff in H0.
      * intros k0 [<-|Hin]; [cbn [fst]|now apply Hn].
        destruct (has down2 k) eqn:E2; [|reflexivity].
        apply Hm in E2. rewrite has_setDelete, String.eqb_refl in E2.
        now rewrite andb_false_r in E2.
    + specialize (IH down).
      destruct (touchLoop cbs px py false bs down) as [[bs2 down2] f2].
      destruct IH as (Hf & Hk & Hm & Hn). subst f2.
      split; [reflexivity|]. split; [cbn; now rewrite Hk|]. split; [assumption|].
      intros k0 [<-|Hin]; [cbn [fst]|now apply Hn].
      destruct (has down2 k) eqn:E2; [|reflexivity]. apply Hm in E2. congruence.
Qed.

(** X18. [handleTouch(x, y, false)] calls no callback, keeps the
    registered buttons, and leaves none of them pressed, wherever the
    finger is lifted. *)
Theorem handleTouch_release_clears (m : Manager) (px py : Q) :
  let m1 := fst (handleTouch m px py false) in
  snd (handleTouch m px py false) = []
  /\ List.map fst (buttons m1) = List.map fst (buttons m)
  /\ (forall k, In k (List.map fst (buttons m)) -> isButtonPressed m1 k = false)
  /\ (forall k, isButtonPressed m1 k = true -> isButtonPressed m k = true).
Proof.
  unfold handleTouch, isButtonPressed.
  pose proof (touchLoop_up (callbacks m) px py (buttons m) (pressedButtons m)) as H.
  destruct (touchLoop (callbacks m) px py false (buttons m) (pressedButtons m))
    as [[bs1 down1] f1].
  destruct H as (Hf & Hk & Hm & Hn). cbn [fst snd buttons pressedButtons].
  repeat split; assumption.
Qed.

End ButtonsFacts.

Section GestureFacts.
Import Input.
Local Open Scope Z_scope.

Lemma nil_of_no_elements {A : Type} (l : list A) :
  (forall t, In t l -> False) -> l = [].
Proof.
  destruct l as [|a l]; [reflexivity|]. intros H. destruct (H a). now left.
Qed.

(** In a manager whose timers are all accounted for, a touch start leaves
    exactly one timer pending: the one it has just set. *)
Lemma start_sets_one_timer (w : World) (x y : Q) (t0 : Z) :
  timersOwned w ->
  fst (step w (TouchStart x y t0))
  = mkWorld (config w)
      (Some (mkTouch x y x y t0
               match touchState w with
               | Some ts => if lastTapTime ts =? 0 then 0 else lastTapTime ts
               | None => 0
               end false false (Some (nextHandle w))))
      (listeners w)
      [mkTimer (nextHandle w) x y (t0 + longPressThreshold (config w))]
      (S (nextHandle w)).
Proof.
  intros Hw. cbn [step]. unfold handleTouchStart. cbn [fst].
  f_equal.
  match goal with |- ?l ++ _ = _ => assert (E : l = []) end.
  { apply nil_of_no_elements. intros t Hin. apply (owned_cleared w t Hw).
    destruct (touchState w) as [ts|]; [|assumption].
    destruct (longPressTimer ts); assumption. }
  rewrite E. reflexivity.
Qed.

(** X19. A touch that is held until its long-press timer fires and is then
    released within the swipe distance emits [long_press] and nothing
    else: the release is not a tap. *)
Theorem held_touch_is_not_a_tap
    (w : World) (x y : Q) (t0 now : Z) (xe ye : Q) (te : Z) :
  timersOwned w ->
  t0 + longPressThreshold (config w) <= now ->
  ~ fartherThan (swipeThreshold (config w)) x y xe ye ->
  emits w [TouchStart x y t0; TimerFires (nextHandle w) now; TouchEnd xe ye te]
  = [long_press].
Proof.
  intros Hw Hdue Hnear. unfold emits. cbn [run].
  pose proof (start_sets_one_timer w x y t0 Hw) as Hs.
  destruct (step w (TouchStart x y t0)) as [w1 o1] eqn:E1.
  assert (Ho1 : o1 = []) by (cbn [step] in E1; unfold handleTouchStart in E1; congruence).
  cbn [fst] in Hs. subst w1 o1.
  cbn [step]. unfold fireTimer. cbn [timers find handle]. rewrite Nat.eqb_refl.
  cbn [due]. destruct (Z.ltb_spec now (t0 + longPressThreshold (config w))); [lia|].
  cbn [touchState isDragging negb].
  unfold handleTouchEnd. cbn [touchState config].
  unfold endGesture.
  cbn [isDragging startX startY startTime longPressTriggered longPressTimer negb andb].
  assert (Ef : distGt (xe - x) (ye - y) (swipeThreshold (config w)) = false).
  { destruct (distGt (xe - x) (ye - y) (swipeThreshold (config w))) eqn:E; [|reflexivity].
    apply distGt_fartherThan in E. contradiction. }
  rewrite Ef. reflexivity.
Qed.

Lemma held_touch_is_not_a_tap_witness :
  Input.emits (Input.newWorld Input.DEFAULT_INPUT_CONFIG)
    [Input.TouchStart 100 100 1000; Input.TimerFires 1 1500; Input.TouchEnd 103 100 1700]
  = [Input.long_press].
Proof.
  apply (held_touch_is_not_a_tap (newWorld DEFAULT_INPUT_CONFIG) 100 100 1000 1500 103 100 1700).
  - apply newWorld_owned.
  - vm_compute. discriminate.
  - intros [H|H]; vm_compute in H; discriminate.
Defined.

Lemma Qabs_lt_spec (a b : Q) : Qabs_lt a b = true <-> (Qabs a < Qabs b)%Q.
Proof. apply Qltb_lt. Qed.

(** X20. A touch released, without any move, farther than
    [swipeThreshold] from where it began and in less than 500 ms is a
    swipe when it was fast enough (distance / duration above
    [swipeVelocityThreshold]) and nothing at all otherwise; the direction
    is horizontal when |dx| > |dy| (right for dx > 0) and vertical
    otherwise (down for dy > 0). *)
Theorem quick_far_release_is_swipe
    (w : World) (x y : Q) (t0 : Z) (xe ye : Q) (te : Z) :
  (0 <= swipeVelocityThreshold (config w))%Q ->
  fartherThan (swipeThreshold (config w)) x y xe ye ->
  0 < te - t0 < 500 ->
  let dX := (xe - x)%Q in
  let dY := (ye - y)%Q in
  let v := (swipeVelocityThreshold (config w) * inject_Z (te - t0))%Q in
  (v * v < dX * dX + dY * dY ->
     emits w [TouchStart x y t0; TouchEnd xe ye te] = [detectSwipeDirection dX dY])%Q
  /\ (dX * dX + dY * dY <= v * v ->
        emits w [TouchStart x y t0; TouchEnd xe ye te] = [])%Q
  /\ (Qabs dY < Qabs dX -> 0 < dX -> detectSwipeDirection dX dY = swipe_right)%Q
  /\ (Qabs dY < Qabs dX -> dX <= 0 -> detectSwipeDirection dX dY = swipe_left)%Q
  /\ (Qabs dX <= Qabs dY -> 0 < dY -> detectSwipeDirection dX dY = swipe_down)%Q
  /\ (Qabs dX <= Qabs dY -> dY <= 0 -> detectSwipeDirection dX dY = swipe_up)%Q.
Proof.
  intros Hv Hfar Hdur dX dY v.
  assert (Hvpos : (0 <= v)%Q).
  { unfold v. apply Qmult_le_0_compat; [assumption|].
    unfold Qle. simpl. lia. }
  assert (Hvb : Js.Qltb v 0 = false) by (apply Qltb_ge; assumption).
  assert (Hrun : emits w [TouchStart x y t0; TouchEnd xe ye te]
                 = if Js.Qltb (v * v) (dX * dX + dY * dY)
                   then [detectSwipeDirection dX dY] else []).
  { unfold emits. cbn [run step]. unfold handleTouchStart. cbn [fst snd app].
    unfold handleTouchEnd. cbn [touchState config].
    unfold endGesture.
    cbn [isDragging startX startY startTime longPressTriggered longPressTimer].
    fold dX dY.
    assert (Ef : distGt dX dY (swipeThreshold (config w)) = true)
      by (apply distGt_fartherThan; assumption).
    rewrite Ef.
    destruct (Z.ltb_spec (te - t0) 500); [|lia]. cbn [andb].
    unfold velocityGt. destruct (Z.ltb_spec 0 (te - t0)); [|lia].
    unfold distGt. fold v. rewrite Hvb.
    destruct (Js.Qltb (v * v) (dX * dX + dY * dY)); reflexivity. }
  split; [|split; [|split; [|split; [|split]]]].
  - intros H. rewrite Hrun. apply Qltb_lt in H. now rewrite H.
  - intros H. rewrite Hrun. apply Qltb_ge in H. now rewrite H.
  - intros H1 H2. unfold detectSwipeDirection.
    apply Qabs_lt_spec in H1. apply Qltb_lt in H2. now rewrite H1, H2.
  - intros H1 H2. unfold detectSwipeDirection.
    apply Qabs_lt_spec in H1. apply Qltb_ge in H2. now rewrite H1, H2.
  - intros H1 H2. unfold detectSwipeDirection, Qabs_lt.
    apply Qltb_ge in H1. apply Qltb_lt in H2. now rewrite H1, H2.
  - intros H1 H2. unfold detectSwipeDirection, Qabs_lt.
    apply Qltb_ge in H1. apply Qltb_ge in H2. now rewrite H1, H2.
Qed.

Lemma quick_far_release_is_swipe_witness :
  Input.emits (Input.newWorld Input.DEFAULT_INPUT_CONFIG)
    [Input.TouchStart 100 100 1000; Input.TouchEnd 200 110 1100]
  = [Input.detectSwipeDirection (200 - 100) (110 - 100)].
Proof.
  apply (proj1 (quick_far_release_is_swipe (newWorld DEFAULT_INPUT_CONFIG)
                  100 100 1000 200 110 1100
                  ltac:(vm_compute; discriminate)
                  ltac:(right; vm_compute; reflexivity)
                  ltac:(lia))).
  vm_compute. reflexivity.
Defined.

Lemma sameListener_eq (a b : InputEventType * nat) :
  sameListener a b = true <-> a = b.
Proof.
  unfold sameListener. rewrite andb_true_iff, Nat.eqb_eq.
  destruct a as [ta na], b as [tb nb]. simpl. split.
  - intros [Ht ->]. f_equal. destruct ta, tb; simpl in Ht; congruence.
  - intros [= -> ->]. split; [destruct tb; reflexivity | reflexivity].
Qed.

(** X21. Listener registration behaves as a set: registering a callback
    twice is registering it once, [off] removes it, [off] of a callback
    that is not registered changes nothing (so [off] twice is [off] once),
    and other listeners are not affected. *)
Theorem listeners_form_a_set (w : World) (t : InputEventType) (cb : nat) :
  on (on w t cb) t cb = on w t cb
  /\ ~ In (t, cb) (listeners (off w t cb))
  /\ In (t, cb) (listeners (on w t cb))
  /\ (~ In (t, cb) (listeners w) -> off w t cb = w)
  /\ off (off w t cb) t cb = off w t cb
  /\ (forall l, l <> (t, cb) ->
        (In l (listeners (on w t cb)) <-> In l (listeners w))
        /\ (In l (listeners (off w t cb)) <-> In l (listeners w))).
Proof.
  assert (Hex : forall ls, existsb (sameListener (t, cb)) ls = true <-> In (t, cb) ls).
  { intros ls. rewrite existsb_exists. split.
    - intros [l [Hin Hs]]. apply sameListener_eq in Hs. now subst.
    - intros Hin. exists (t, cb). split; [assumption | now apply sameListener_eq]. }
  assert (Hoff : forall ls,
             ~ In (t, cb) ls ->
             filter (fun l => negb (sameListener (t, cb) l)) ls = ls).
  { induction ls as [|l ls IH]; intros Hn; simpl; [reflexivity|].
    destruct (sameListener (t, cb) l) eqn:E.
    - apply sameListener_eq in E. subst. exfalso. apply Hn. now left.
    - simpl. f_equal. apply IH. intros H. apply Hn. now right. }
  assert (Hin_on : In (t, cb) (listeners (on w t cb))).
  { unfold on. cbn [listeners].
    destruct (existsb (sameListener (t, cb)) (listeners w)) eqn:E.
    - now apply Hex.
    - apply in_or_app. right. now left. }
  assert (Hnot_off : ~ In (t, cb) (listeners (off w t cb))).
  { unfold off. cbn [listeners]. intros Hin. apply filter_In in Hin.
    destruct Hin as [_ Hn]. apply negb_true_iff in Hn.
    assert (sameListener (t, cb) (t, cb) = true) by now apply sameListener_eq.
    congruence. }
  split; [|split; [|split; [|split; [|split]]]]; try assumption.
  - unfold on at 1. apply Hex in Hin_on. rewrite Hin_on. now destruct (on w t cb).
  - intros Hn. unfold off. rewrite Hoff by assumption. now destruct w.
  - unfold off at 1. rewrite Hoff by assumption. now destruct (off w t cb).
  - intros l Hne. split.
    + unfold on. cbn [listeners].
      destruct (existsb (sameListener (t, cb)) (listeners w)); [tauto|].
      rewrite in_app_iff. simpl. split; [intros [H|[H|[]]]; [assumption|congruence] | tauto].
    + unfold off. cbn [listeners]. rewrite filter_In, negb_true_iff. split; [tauto|].
      intros H. split; [assumption|].
      destruct (sameListener (t, cb) l) eqn:E; [|reflexivity].
      apply sameListener_eq in E. congruence.
Qed.

End GestureFacts.

Section RunnerSessionFacts.
Import Runner RunnerSession.
Local Open Scope Z_scope.

Lemma advanceDistance_facts (e : Env) (s : RunnerState) :
  let r := advanceDistance e s in
  distance (fst r) = distance s + 1
  /\ lives (fst r) = lives s
  /\ objects (fst r) = objects s
  /\ looping (fst r)
     = (if distance s + 1 >=? targetDistance e then false else looping s)
  /\ filter isOnWin (snd r)
     = (if distance s + 1 >=? targetDistance e then [onWin] else [])
  /\ score (fst r)
     = (if (distance s + 1) mod 10 =? 0 then (distance s + 1) / 10 else score s)
  /\ ~ In onLose (snd r).
Proof.
  unfold advanceDistance.
  destruct ((distance s + 1) mod 10 =? 0);
    destruct (distance s + 1 >=? targetDistance e); simpl;
    repeat split; try reflexivity; intuition discriminate.
Qed.

Lemma collide_facts (e : Env) (pl : Z) (os : list GameObject) :
  forall s, 0 <= lives s ->
    let r := collide e pl os s in
    distance (fst r) = distance s
    /\ objects (fst r) = objects s
    /\ (looping (fst r) = true -> looping s = true)
    /\ filter isOnWin (snd r) = []
    /\ 0 <= lives (fst r) <= lives s
    /\ (In onLose (snd r) -> lives (fst r) = 0 /\ looping (fst r) = false)
    /\ (Forall isObstacle os -> score (fst r) = score s).
Proof.
  induction os as [|o os IH]; intros s Hl; cbn [collide].
  - simpl. repeat split; auto; try lia; try contradiction.
  - destruct (hitsPlayer pl o).
    + destruct (type o) eqn:Et.
      * (* an obstacle *)
        unfold handleObstacleCollision.
        destruct (Z.max 0 (lives s - 1) =? 0) eqn:E0.
        -- apply Z.eqb_eq in E0.
           specialize (IH (stopGameLoop (setLives s (Z.max 0 (lives s - 1))))).
           cbn [lives stopGameLoop setLives] in IH. specialize (IH ltac:(lia)).
           destruct (collide e pl os _) as [s2 log2]. cbn [fst snd] in *.
           destruct IH as (Hd & Ho & Hlp & Hw & Hlv & Hlose & Hsc).
           cbn [distance objects looping score] in *.
           repeat match goal with |- _ /\ _ => split end; try assumption; try lia.
           ++ intros H. apply Hlp in H. discriminate.
           ++ intros _. split; [lia|].
              destruct (looping s2) eqn:E2; [|reflexivity].
              specialize (Hlp eq_refl). discriminate.
           ++ intros Hf. apply Hsc. now inversion Hf.
        -- apply Z.eqb_neq in E0.
           specialize (IH (setLives s (Z.max 0 (lives s - 1)))).
           cbn [lives setLives] in IH. specialize (IH ltac:(lia)).
           destruct (collide e pl os _) as [s2 log2]. cbn [fst snd] in *.
           destruct IH as (Hd & Ho & Hlp & Hw & Hlv & Hlose & Hsc).
           cbn [distance objects looping score] in *.
           repeat match goal with |- _ /\ _ => split end; try assumption; try lia.
           ++ intros [H|H]; [discriminate | now apply Hlose].
           ++ intros Hf. apply Hsc. now inversion Hf.
      * (* a coin *)
        unfold handleCoinCollection.
        specialize (IH (setScore s (score s + Levels.coinValue (level e)))).
        cbn [lives setScore] in IH. specialize (IH Hl).
        destruct (collide e pl os _) as [s2 log2]. cbn [fst snd] in *.
        destruct IH as (Hd & Ho & Hlp & Hw & Hlv & Hlose & Hsc).
        cbn [distance objects looping score] in *.
        repeat match goal with |- _ /\ _ => split end; try assumption; try lia.
        -- intros [H|H]; [discriminate | now apply Hlose].
        -- intros Hf. inversion Hf as [|? ? Hob _]; subst.
           unfold isObstacle in Hob. congruence.
    + specialize (IH s Hl).
      destruct (collide e pl os s) as [s2 log2]. cbn [fst snd app] in *.
      destruct IH as (Hd & Ho & Hlp & Hw & Hlv & Hlose & Hsc).
      repeat match goal with |- _ /\ _ => split end; try assumption; try lia.
      * intros Hf. apply Hsc. now inversion Hf.
Qed.

(** One tick: the distance grows by one; [onWin] is called exactly when
    the new distance has reached the target, and then the loop is off. *)
Lemma tick_facts (e : Env) (d : Draws) (s : RunnerState) :
  0 <= lives s ->
  let r := tick e d s in
  distance (fst r) = distance s + 1
  /\ (looping (fst r) = true ->
      looping s = true /\ distance s + 1 < targetDistance e)
  /\ filter isOnWin (snd r)
     = (if distance s + 1 >=? targetDistance e then [onWin] else [])
  /\ 0 <= lives (fst r) <= lives s
  /\ (In onLose (snd r) -> lives (fst r) = 0 /\ looping (fst r) = false)
  /\ ((15 # 1000 <= rCoin d)%Q -> Forall isObstacle (objects s) ->
      score s = distance s / 10 ->
      Forall isObstacle (objects (fst r))
      /\ score (fst r) = distance (fst r) / 10).
Proof.
  intros Hl. unfold tick.
  pose proof (advanceDistance_facts e s) as HA. cbv zeta in HA.
  destruct (advanceDistance e s) as [s1 log1]. cbn [fst snd] in HA.
  destruct HA as (Ad & Al & Ao & Alp & Aw & Asc & Alose).
  set (s2 := if Js.Qltb (rObstacle d) _ then spawn e s1 obstacle (rObstacleLane d) else s1).
  set (s3 := if Js.Qltb (rCoin d) (15 # 1000) then spawn e s2 coin (rCoinLane d) else s2).
  assert (H2 : distance s2 = distance s1 /\ lives s2 = lives s1
               /\ looping s2 = looping s1 /\ score s2 = score s1
               /\ playerLane s2 = playerLane s1
               /\ (Forall isObstacle (objects s1) -> Forall isObstacle (objects s2))).
  { unfold s2. destruct (Js.Qltb (rObstacle d) _); cbn; repeat split; auto.
    intros H. apply Forall_app. split; [assumption|]. repeat constructor. }
  assert (H3 : distance s3 = distance s2 /\ lives s3 = lives s2
               /\ looping s3 = looping s2 /\ score s3 = score s2
               /\ ((15 # 1000 <= rCoin d)%Q -> objects s3 = objects s2)).
  { unfold s3. destruct (Js.Qltb (rCoin d) (15 # 1000)) eqn:E; cbn; repeat split; auto.
    intros Hc. apply Qltb_lt in E. exfalso. exact (Qlt_not_le _ _ E Hc). }
  destruct H2 as (Bd & Bl & Blp & Bsc & Bpl & Bob).
  destruct H3 as (Cd & Cl & Clp & Csc & Cob).
  unfold moveObjects.
  pose proof (collide_facts e (playerLane s3)
                (filter (fun o => Js.Qltb (-100 # 1) (x o)) (List.map moveLeft (objects s3)))
                s3 ltac:(lia)) as HC. cbv zeta in HC.
  destruct (collide e (playerLane s3) _ s3) as [s4 log4]. cbn [fst snd] in *.
  destruct HC as (Dd & Do & Dlp & Dw & Dlv & Dlose & Dsc).
  cbn [distance looping lives score setObjects objects].
  split; [lia|]. split; [|split; [|split; [lia|split]]].
  - intros H. apply Dlp in H. rewrite Clp, Blp, Alp in H.
    destruct (Z.geb_spec (distance s + 1) (targetDistance e)); [discriminate|].
    split; [assumption | lia].
  - rewrite filter_app, Aw, Dw. now rewrite app_nil_r.
  - intros Hin. apply in_app_iff in Hin. destruct Hin as [Hin|Hin]; [contradiction|].
    now apply Dlose.
  - intros Hc Hob Hsc.
    assert (Hobs3 : Forall isObstacle (objects s3)).
    { rewrite (Cob Hc). apply Bob. now rewrite Ao. }
    assert (Hmoved : Forall isObstacle
              (filter (fun o => Js.Qltb (-100 # 1) (x o)) (List.map moveLeft (objects s3)))).
    { apply Forall_forall. intros o Hin. apply filter_In in Hin. destruct Hin as [Hin _].
      apply in_map_iff in Hin. destruct Hin as [o' [<- Hin']].
      rewrite Forall_forall in Hobs3. exact (Hobs3 o' Hin'). }
    split.
    + apply Forall_forall. intros o Hin. apply filter_In in Hin. destruct Hin as [Hin _].
      rewrite Forall_forall in Hmoved. now apply Hmoved.
    + rewrite (Dsc Hmoved), Csc, Bsc, Asc, Dd, Cd, Bd, Ad.
      destruct (Z.eqb_spec ((distance s + 1) mod 10) 0) as [E|E]; [reflexivity|].
      rewrite Hsc. Z.div_mod_to_equations. lia.
Qed.

Lemma run_stopped (e : Env) (ds : list Draws) (s : RunnerState) :
  looping s = false -> run e ds s = (s, []).
Proof.
  intros H. induction ds as [|d ds IH]; simpl; [reflexivity|].
  unfold step. rewrite H, IH. reflexivity.
Qed.

Lemma run_win (e : Env) (ds : list Draws) :
  forall s, 0 <= lives s -> distance s < targetDistance e ->
    let r := run e ds s in
    (winCalls (snd r) = 0%nat /\ distance (fst r) < targetDistance e)
    \/ (winCalls (snd r) = 1%nat /\ distance (fst r) = targetDistance e
        /\ looping (fst r) = false).
Proof.
  unfold winCalls.
  induction ds as [|d ds IH]; intros s Hl Hd; cbn [run].
  - left. simpl. auto.
  - unfold step. destruct (looping s) eqn:Elp.
    + pose proof (tick_facts e d s Hl) as HT. cbv zeta in HT.
      destruct (tick e d s) as [s1 log1]. cbn [fst snd] in HT.
      destruct HT as (Td & Tlp & Tw & Tlv & _ & _).
      destruct (Z.geb_spec (distance s + 1) (targetDistance e)) as [Hge|Hlt].
      * assert (Hstop : looping s1 = false).
        { destruct (looping s1) eqn:E1; [|reflexivity].
          destruct (Tlp eq_refl). lia. }
        rewrite (run_stopped e ds s1 Hstop). cbn [fst snd].
        right. rewrite app_nil_r, Tw. simpl. repeat split; [lia | assumption].
      * specialize (IH s1 ltac:(lia) ltac:(lia)). cbv zeta in IH.
        destruct (run e ds s1) as [s2 log2]. cbn [fst snd] in *.
        rewrite filter_app, Tw. exact IH.
    + specialize (IH s Hl Hd). cbv zeta in IH.
      destruct (run e ds s) as [s2 log2]. exact IH.
Qed.

(** X22. In a session of ticks from the initial state, with a positive
    target distance, [onWin] is called at most once; when it has been
    called the distance is exactly the target (targetScore * 10) and the
    loop is stopped, and while it has not been called the distance is below
    the target. *)
Theorem win_fires_once_at_target (e : Env) (ds : list Draws) :
  0 < targetDistance e ->
  let r := run e ds initial in
  (winCalls (snd r) = 0%nat /\ distance (fst r) < targetDistance e)
  \/ (winCalls (snd r) = 1%nat /\ distance (fst r) = targetDistance e
      /\ looping (fst r) = false).
Proof.
  intros Ht. apply run_win; simpl; lia.
Qed.

Lemma win_fires_once_at_target_witness :
  let r := Runner.run Runner.env400 (Runner.session 69) Runner.initial in
  (RunnerSession.winCalls (snd r) = 0%nat
   /\ Runner.distance (fst r) < Runner.targetDistance Runner.env400)
  \/ (RunnerSession.winCalls (snd r) = 1%nat
      /\ Runner.distance (fst r) = Runner.targetDistance Runner.env400
      /\ Runner.looping (fst r) = false).
Proof.
  apply (win_fires_once_at_target env400 (session 69)). reflexivity.
Defined.

(** X23. In a session in which no coin spawns, the score after every
    number of ticks is floor(distance / 10), and no coin is on the
    track. *)
Theorem score_is_distance_without_coins (e : Env) (ds : list Draws) :
  noCoinSpawns ds ->
  let r := run e ds initial in
  score (fst r) = distance (fst r) / 10
  /\ Forall isObstacle (objects (fst r)).
Proof.
  intros Hn.
  assert (G : forall ds s, noCoinSpawns ds -> 0 <= lives s ->
             score s = distance s / 10 -> Forall isObstacle (objects s) ->
             score (fst (run e ds s)) = distance (fst (run e ds s)) / 10
             /\ Forall isObstacle (objects (fst (run e ds s)))).
  { clear. induction ds as [|d ds IH]; intros s Hn Hl Hs Ho; cbn [run].
    - simpl. auto.
    - inversion Hn as [|? ? Hd Hn']; subst. unfold step.
      destruct (looping s).
      + pose proof (tick_facts e d s Hl) as HT. cbv zeta in HT.
        destruct (tick e d s) as [s1 log1]. cbn [fst snd] in HT.
        destruct HT as (_ & _ & _ & Tlv & _ & Tsc).
        destruct (Tsc Hd Ho Hs) as [Ho1 Hs1].
        specialize (IH s1 Hn' ltac:(lia) Hs1 Ho1).
        destruct (run e ds s1) as [s2 log2]. exact IH.
      + specialize (IH s Hn' Hl Hs Ho).
        destruct (run e ds s) as [s2 log2]. exact IH. }
  apply G; auto; simpl; try lia; try constructor.
Qed.

Lemma score_is_distance_without_coins_witness :
  let r := Runner.run Runner.env400 (repeat Runner.quiet 25) Runner.initial in
  Runner.score (fst r) = Runner.distance (fst r) / 10
  /\ Forall RunnerSession.isObstacle (Runner.objects (fst r)).
Proof.
  apply (score_is_distance_without_coins env400 (repeat quiet 25)).
  apply Forall_forall. intros d Hd. apply repeat_spec in Hd. subst d.
  vm_compute. discriminate.
Defined.

(** X24. In a session of ticks from the initial state the lives stay
    between 0 and 5; once [onLose] has been called the lives are 0 and the
    loop is stopped. *)
Theorem lives_bounded_and_lose_at_zero (e : Env) (ds : list Draws) :
  let r := run e ds initial in
  0 <= lives (fst r) <= 5
  /\ (In onLose (snd r) -> lives (fst r) = 0 /\ looping (fst r) = false).
Proof.
  assert (G : forall ds s, 0 <= lives s ->
             0 <= lives (fst (run e ds s)) <= lives s
             /\ (In onLose (snd (run e ds s)) ->
                 lives (fst (run e ds s)) = 0 /\ looping (fst (run e ds s)) = false)).
  { clear ds. induction ds as [|d ds IH]; intros s Hl; cbn [run].
    - simpl. split; [lia | intros []].
    - unfold step. destruct (looping s) eqn:Elp.
      + pose proof (tick_facts e d s Hl) as HT. cbv zeta in HT.
        destruct (tick e d s) as [s1 log1]. cbn [fst snd] in HT.
        destruct HT as (_ & _ & _ & Tlv & Tlose & _).
        pose proof (IH s1 ltac:(lia)) as IH1.
        destruct (looping s1) eqn:E1.
        * destruct (run e ds s1) as [s2 log2]. cbn [fst snd] in *.
          destruct IH1 as [Hb Hlose]. split; [lia|].
          intros Hin. apply in_app_iff in Hin. destruct Hin as [Hin|Hin].
          -- destruct (Tlose Hin). congruence.
          -- now apply Hlose.
        * rewrite (run_stopped e ds s1 E1) in *. cbn [fst snd] in *.
          split; [lia|]. rewrite app_nil_r. intros Hin.
          destruct (Tlose Hin). auto.
      + specialize (IH s Hl). destruct (run e ds s) as [s2 log2]. exact IH. }
  intros r. apply (G ds initial). simpl. lia.
Qed.

End RunnerSessionFacts.

Section CardRoundFacts.
Import Card CardRound.
Local Open Scope Z_scope.

Lemma drawCard_range (r : Q) :
  (0 <= r)%Q -> (r < 1)%Q -> 1 <= drawCard r <= 10.
Proof.
  intros H0 H1. unfold drawCard.
  pose proof (Qfloor_scaled r 10 H0 H1 ltac:(lia)) as H.
  change (inject_Z 10) with (10 # 1)%Q in H. lia.
Qed.

Lemma opponentLoop_stops (targetScore : Z) (draws : list Q) :
  targetScore <= TARGET -> unitDraws draws ->
  forall aiScore s,
    aiScore < targetScore ->
    targetScore - aiScore <= Z.of_nat (List.length draws) ->
    exists ai s',
      opponentLoop targetScore draws aiScore s = Some (ai, s')
      /\ targetScore <= ai <= targetScore + 9
      /\ opponentScore s' = ai
      /\ wins s' = wins s /\ losses s' = losses s /\ gamePhase s' = gamePhase s.
Proof.
  intros Ht Hu. induction Hu as [|r draws [H0 H1] Hu IH]; intros aiScore s Hlt Hlen.
  - simpl in Hlen. lia.
  - cbn [opponentLoop].
    assert (Hc : (aiScore <? targetScore) && (aiScore <? TARGET) = true).
    { apply andb_true_iff. split; apply Z.ltb_lt; lia. }
    rewrite Hc.
    pose proof (drawCard_range r H0 H1) as Hcard.
    destruct (Z.ltb_spec (aiScore + drawCard r) targetScore) as [Hmore|Hdone].
    + destruct (IH (aiScore + drawCard r) (setOpponentScore s (aiScore + drawCard r)))
        as (ai & s' & He & Hb & Ho & Hw & Hl & Hp); [assumption | |].
      { cbn [List.length] in Hlen. lia. }
      exists ai, s'. repeat match goal with |- _ /\ _ => split end; auto; lia.
    + exists (aiScore + drawCard r), (setOpponentScore s (aiScore + drawCard r)).
      split.
      * destruct draws as [|r' draws']; cbn [opponentLoop];
          destruct (Z.ltb_spec (aiScore + drawCard r) targetScore); try lia;
          reflexivity.
      * repeat match goal with |- _ /\ _ => split end; try reflexivity; lia.
Qed.

(** X25. The opponent's turn against a player score between 0 and 20,
    with at least 20 draws in [0, 1) at hand, always ends: the opponent
    stops at the first total above the player's score (at 20 against a
    player's 20), at most 9 beyond that mark, and the round is then the
    player's exactly when the opponent has gone over 20; otherwise it is
    the opponent's.  Pressing Stand when it is the player's turn runs this
    turn against the current score. *)
Theorem opponent_turn_decides_round (s : CardState) (p : Z) (draws : list Q) :
  0 <= p <= 20 -> unitDraws draws -> (20 <= List.length draws)%nat ->
  exists s' alert,
    opponentTurn s p draws = Some (s', alert)
    /\ gamePhase s' = phase_result
    /\ Z.min (p + 1) 20 <= opponentScore s' <= Z.min (p + 1) 20 + 9
    /\ ((20 < opponentScore s' /\ alert_for alert = player
         /\ wins s' = wins s + 1 /\ losses s' = losses s)
        \/ (opponentScore s' <= 20 /\ alert_for alert = opponent
            /\ wins s' = wins s /\ losses s' = losses s + 1))
    /\ (gamePhase s = phase_player -> playerScore s = p ->
        handleStand s false draws = Some (s', Some alert)).
Proof.
  intros Hp Hu Hlen.
  assert (Ht : aiTarget p = Z.min (p + 1) 20).
  { unfold aiTarget, TARGET. destruct (Z.gtb_spec p 20); [lia | reflexivity]. }
  destruct (opponentLoop_stops (aiTarget p) draws ltac:(rewrite Ht; unfold TARGET; lia) Hu
              0 (setGamePhase s phase_opponent) ltac:(rewrite Ht; lia)
              ltac:(rewrite Ht; lia))
    as (ai & s1 & He & Hb & Ho & Hw & Hl & Hph).
  rewrite Ht in Hb.
  assert (Hturn : opponentTurn s p draws = Some (determineWinner s1 p ai)).
  { unfold opponentTurn. now rewrite He. }
  exists (fst (determineWinner s1 p ai)), (snd (determineWinner s1 p ai)).
  split; [rewrite Hturn; now destruct (determineWinner s1 p ai)|].
  assert (Hwin : winner p ai = if ai >? 20 then player else opponent).
  { unfold winner, TARGET.
    destruct (Z.gtb_spec p 20); [lia|].
    destruct (Z.gtb_spec ai 20); [reflexivity|].
    destruct (Z.gtb_spec p ai); [lia | reflexivity]. }
  unfold determineWinner. rewrite Hwin.
  unfold setGamePhase in Hw, Hl. cbn [wins losses] in Hw, Hl.
  destruct (Z.gtb_spec ai 20) as [Hbust|Hok]; cbn [fst snd gamePhase opponentScore wins losses alert_for].
  - split; [reflexivity|]. split; [lia|]. split.
    + left. repeat split; try reflexivity; lia.
    + intros Hph1 Hps. unfold handleStand. rewrite Hph1, Hps, Hturn.
      unfold determineWinner. rewrite Hwin.
      destruct (Z.gtb_spec ai 20); [reflexivity | lia].
  - split; [reflexivity|]. split; [lia|]. split.
    + right. repeat split; try reflexivity; lia.
    + intros Hph1 Hps. unfold handleStand. rewrite Hph1, Hps, Hturn.
      unfold determineWinner. rewrite Hwin.
      destruct (Z.gtb_spec ai 20); [lia | reflexivity].
Qed.

Lemma opponent_turn_decides_round_witness :
  exists s' alert,
    CardRound.opponentTurn (Card.mkCard 15 0 4 1 Card.phase_player 0 0) 15
                           (repeat (1 # 2)%Q 20)
    = Some (s', alert)
    /\ Card.gamePhase s' = Card.phase_result
    /\ Z.min (15 + 1) 20 <= Card.opponentScore s' <= Z.min (15 + 1) 20 + 9.
Proof.
  destruct (opponent_turn_decides_round
              (mkCard 15 0 4 1 phase_player 0 0) 15 (repeat (1 # 2)%Q 20))
    as (s' & alert & H1 & H2 & H3 & _).
  - lia.
  - apply Forall_forall. intros r Hr. apply repeat_spec in Hr. subst r.
    split; [discriminate | reflexivity].
  - simpl. lia.
  - exists s', alert. split; [assumption|]. split; assumption.
Defined.

End CardRoundFacts.

Section PuzzleMovesFacts.
Import Puzzle PuzzleMoves.
Local Open Scope nat_scope.

Lemma uniqueFrom_spec (l seen : list Cell) :
  NoDup (uniqueFrom seen l)
  /\ forall p, In p (uniqueFrom seen l) <-> In p l /\ ~ In p seen.
Proof.
  revert seen. induction l as [|c l IH]; intros seen; simpl.
  - split; [constructor | tauto].
  - destruct (existsb (cell_eqb c) seen) eqn:E.
    + destruct (IH seen) as [Hnd Hin]. split; [assumption|].
      apply existsb_exists in E. destruct E as [d [Hd Heq]].
      apply cell_eqb_eq in Heq. subst d.
      intros p. rewrite Hin. split; [tauto|].
      intros [[<-|Hp] Hn]; [contradiction | tauto].
    + assert (Hc : ~ In c seen).
      { intros Hc. assert (existsb (cell_eqb c) seen = true); [|congruence].
        apply existsb_exists. exists c. split; [assumption | now apply cell_eqb_eq]. }
      destruct (IH (c :: seen)) as [Hnd Hin]. split.
      * constructor; [|assumption]. rewrite Hin. simpl. tauto.
      * intros p. simpl. rewrite Hin. simpl. split.
        -- intros [<-|[Hp Hn]]; tauto.
        -- intros [[<-|Hp] Hn]; [tauto|].
           destruct (cell_eqb c p) eqn:Ep.
           ++ apply cell_eqb_eq in Ep. tauto.
           ++ right. split; [assumption|]. intros [<-|Hs]; [|tauto].
              assert (cell_eqb c c = true) by now apply cell_eqb_eq. congruence.
Qed.

Lemma existsb_false_filter {A : Type} (f : A -> bool) (l : list A) :
  existsb f l = false -> filter f l = [].
Proof.
  induction l as [|a l IH]; simpl; [reflexivity|].
  intros H. apply orb_false_iff in H. destruct H as [Ha Hl].
  rewrite Ha. now apply IH.
Qed.

Lemma matched_in_scan (g : Grid) (p : Cell) :
  grid6x6 g ->
  In p (flat_map cells (filter (matchb g) (horizontalWindows ++ verticalWindows)))
  <-> matched g p.
Proof.
  intros Hg. rewrite in_flat_map. unfold matched. split.
  - intros [w [Hw Hp]]. apply filter_In in Hw. destruct Hw as [Hw Hm].
    apply windows_are_runs in Hw. exists w. split; [assumption|]. split; [|assumption].
    now apply (sameColor3_monochrome g w Hg Hw).
  - intros [w (Hr & Hm & Hp)]. exists w. split; [|assumption].
    apply filter_In. split; [now apply windows_are_runs|].
    now apply (sameColor3_monochrome g w Hg Hr).
Qed.

Lemma scan_all (g : Grid) :
  grid6x6 g ->
  exists h,
    scan g horizontalWindows ([], false) = Some h
    /\ scan g verticalWindows h
       = Some (flat_map cells (filter (matchb g) (horizontalWindows ++ verticalWindows)),
               existsb (matchb g) (horizontalWindows ++ verticalWindows)).
Proof.
  intros Hg.
  assert (Hdef : forall w, In w (horizontalWindows ++ verticalWindows) ->
                           sameColor3 g w <> None).
  { intros w Hw. apply windows_are_runs in Hw.
    destruct (sameColor3_monochrome g w Hg Hw) as [-> _]. discriminate. }
  eexists. split.
  { apply scan_filter. intros; apply Hdef, in_or_app; auto. }
  rewrite scan_filter by (intros; apply Hdef, in_or_app; auto).
  cbn [fst snd app orb].
  now rewrite <- flat_map_app, <- filter_app, <- existsb_app.
Qed.

(** X26. On any 6 x 6 grid [checkMatches] succeeds.  The cells it
    replaces are exactly the cells that lie in some run of three equal
    colours, each counted once however many runs it lies in; the score
    grows by coinValue times their number and is reported once; every
    other cell keeps its tile; and a grid without a run is left as it is
    with nothing reported. *)
Theorem checkMatches_scores_every_matched_cell
    (s : PuzzleState) (coinValue : Z) (rnd : nat -> Q) (now : Z) :
  grid6x6 (grid s) ->
  exists ms s' log,
    checkMatches s coinValue rnd now = Some (s', log)
    /\ NoDup ms
    /\ (forall p, In p ms <-> matched (grid s) p)
    /\ score s' = (score s + Z.of_nat (List.length ms) * coinValue)%Z
    /\ (ms = [] -> s' = s /\ log = [])
    /\ (ms <> [] -> log = [onScoreChange (score s')])
    /\ grid6x6 (grid s')
    /\ (forall q, ~ matched (grid s) q -> tileAt (grid s') q = tileAt (grid s) q)
    /\ (forall k p, nth_error ms k = Some p ->
          tileAt (grid s') p = Some (newTile p (rnd k) now))
    /\ moves s' = moves s /\ selectedTile s' = selectedTile s.
Proof.
  intros Hg.
  destruct (scan_all (grid s) Hg) as (h & Hh & Hv).
  set (allW := horizontalWindows ++ verticalWindows) in *.
  set (toRemove := flat_map cells (filter (matchb (grid s)) allW)) in *.
  destruct (uniqueFrom_spec toRemove []) as [Hnd Hin].
  assert (Hmem : forall p, In p (unique toRemove) <-> matched (grid s) p).
  { intros p. unfold unique. rewrite Hin. unfold toRemove, allW.
    rewrite (matched_in_scan (grid s) p Hg). simpl. tauto. }
  exists (unique toRemove).
  unfold checkMatches. rewrite Hh. cbn [bind]. rewrite Hv. cbn [bind].
  destruct (existsb (matchb (grid s)) allW) eqn:Ef.
  - (* something matched *)
    eexists. eexists. split; [reflexivity|].
    assert (Hne : unique toRemove <> []).
    { apply existsb_exists in Ef. destruct Ef as [w [Hw Hm]].
      assert (Hc : exists p, In p (cells w)).
      { destruct w as [[a b] c]. exists a. simpl. auto. }
      destruct Hc as [p Hp]. intros E.
      assert (Hp' : In p (unique toRemove)).
      { unfold unique. apply Hin. split; [|simpl; tauto].
        unfold toRemove. apply in_flat_map. exists w. split; [|assumption].
        apply filter_In. auto. }
      rewrite E in Hp'. destruct Hp'. }
    assert (Hins : forall p, In p (unique toRemove) -> exists t, tileAt (grid s) p = Some t).
    { intros p Hp. apply Hmem in Hp. destruct Hp as [w (Hr & _ & Hp)].
      destruct (run_cells_inside w Hr p Hp). now apply tileAt_inside. }
    destruct (replaceAll_spec (unique toRemove) rnd now (grid s) 0 Hnd Hins) as [R1 R2].
    cbn [score grid moves selectedTile].
    split; [assumption|]. split; [assumption|]. split; [reflexivity|].
    split; [intros E; contradiction|]. split; [reflexivity|].
    split; [now apply replaceAll_6x6|].
    split; [intros q Hq; apply R2; now rewrite Hmem|].
    split; [exact R1|]. split; reflexivity.
  - (* nothing matched *)
    assert (Hnil : toRemove = []).
    { unfold toRemove. now rewrite (existsb_false_filter _ _ Ef). }
    exists s, []. split; [reflexivity|].
    rewrite Hnil in *. cbn [unique uniqueFrom List.length] in *.
    split; [constructor|]. split; [exact Hmem|].
    split; [lia|]. split; [auto|]. split; [intros E; now elim E|].
    split; [assumption|]. split; [reflexivity|].
    split; [intros [|k] p E; discriminate|]. split; reflexivity.
Qed.

Lemma checkMatches_scores_every_matched_cell_witness :
  exists ms s' log,
    Puzzle.checkMatches (Puzzle.mkPuzzle Puzzle.sampleGrid 7 None 30) 10 (fun _ => 1 # 2) 1234
    = Some (s', log)
    /\ NoDup ms
    /\ (forall p, In p ms <-> PuzzleMoves.matched Puzzle.sampleGrid p)
    /\ Puzzle.score s' = (7 + Z.of_nat (List.length ms) * 10)%Z.
Proof.
  destruct (checkMatches_scores_every_matched_cell
              (mkPuzzle sampleGrid 7 None 30) 10 (fun _ => 1 # 2) 1234)
    as (ms & s' & log & H1 & H2 & H3 & H4 & _).
  - split; [reflexivity|]. repeat constructor.
  - exists ms, s', log. repeat split; try assumption; apply H3.
Defined.

(** *** The board *)

Lemma pickColor_in_COLORS (r : Q) :
  (0 <= r)%Q -> (r < 1)%Q -> In (pickColor r) COLORS.
Proof.
  intros H0 H1. unfold pickColor. apply nth_In.
  pose proof (Qfloor_scaled r 5 H0 H1 ltac:(lia)) as H.
  change (List.length COLORS) with 5. change (Z.of_nat 5) with 5%Z. lia.
Qed.

Lemma initializeGrid_tileAt (rnd : nat -> Q) (clock : nat -> Z) (p : Cell) :
  inGrid p ->
  tileAt (initializeGrid rnd clock) p
  = Some (newTile p (rnd (fst p * GRID_SIZE + snd p))
                  (clock (fst p * GRID_SIZE + snd p))).
Proof.
  intros [Hr Hc]. destruct p as [r c]. unfold GRID_SIZE in *. simpl in Hr, Hc.
  unfold tileAt, initializeGrid, GRID_SIZE. cbn [fst snd].
  rewrite nth_error_map, nth_error_seq.
  destruct (Nat.ltb_spec r 6) as [_|]; [|lia]. cbn [option_map].
  rewrite nth_error_map, nth_error_seq.
  destruct (Nat.ltb_spec c 6) as [_|]; [|lia]. reflexivity.
Qed.

(** X27. [initializeGrid] builds a 6 x 6 board whose tile at (row, col)
    has the id "row-col-time", the time being the clock reading taken for
    that tile, and, for draws in [0, 1), one of the five colours; the
    move budget is ten per power-up of the level, or 30 when the level has
    no power-up.  [checkMatches] never fails on the board. *)
Theorem initializeGrid_is_a_board
    (level : Levels.Level) (rnd : nat -> Q) (clock : nat -> Z) (coinValue : Z)
    (rnd' : nat -> Q) (now' : Z) :
  grid6x6 (initializeGrid rnd clock)
  /\ (forall p, inGrid p ->
        exists t, tileAt (initializeGrid rnd clock) p = Some t
                  /\ id t = (showNat (fst p) ++ "-" ++ showNat (snd p) ++ "-"
                             ++ showZ (clock (fst p * 6 + snd p)))%string
                  /\ (unitDraws rnd -> In (color t) COLORS))
  /\ ((Levels.powerUps level = 0%Z -> moves (mounted level rnd clock) = 30%Z)
      /\ (Levels.powerUps level <> 0%Z ->
          moves (mounted level rnd clock) = (Levels.powerUps level * 10)%Z))
  /\ (exists r, checkMatches (mounted level rnd clock) coinValue rnd' now' = Some r).
Proof.
  assert (Hg : grid6x6 (initializeGrid rnd clock)).
  { split; [reflexivity|]. unfold initializeGrid.
    apply Forall_forall. intros row Hrow. apply in_map_iff in Hrow.
    destruct Hrow as [r [<- _]]. now rewrite length_map, length_seq. }
  split; [assumption|]. split; [|split].
  - intros p Hp. eexists. split; [now apply initializeGrid_tileAt|].
    split; [reflexivity|]. intros Hu. cbn [color newTile].
    apply pickColor_in_COLORS; apply Hu.
  - unfold mounted, initialMoves. cbn [moves].
    destruct (Z.eqb_spec (Levels.powerUps level * 10) 0); split; intros; lia.
  - destruct (scan_all (initializeGrid rnd clock) Hg) as (h & Hh & Hv).
    unfold checkMatches, mounted. cbn [grid].
    rewrite Hh. cbn [bind]. rewrite Hv. cbn [bind].
    destruct (existsb _ _); eexists; reflexivity.
Qed.

(** *** Swapping *)

Lemma neighbours_isAdjacent (a b : Cell) :
  isAdjacent a b = true <-> neighbours a b.
Proof.
  unfold isAdjacent, neighbours.
  rewrite orb_true_iff, !andb_true_iff, !Z.eqb_eq, !Nat.eqb_eq. split.
  - intros [[H1 H2]|[H1 H2]]; [left | right]; split; auto; lia.
  - intros [[H1 H2]|[H1 H2]]; [left | right]; split; auto; lia.
Qed.

(** X28. Two taps on neighbouring cells of a 6 x 6 board exchange the two
    tiles, leave every other tile in place, use up exactly one move, clear
    the selection and schedule a match check; a second tap on a cell that
    is not a neighbour of the selected one (the selected cell itself
    included) only clears the selection. *)
Theorem two_taps_swap_neighbours (s : PuzzleState) (a b : Cell) :
  grid6x6 (grid s) -> selectedTile s = None -> inGrid a -> inGrid b ->
  exists s1,
    handleTilePress s false a = Some (s1, false)
    /\ selectedTile s1 = Some a /\ grid s1 = grid s /\ moves s1 = moves s
    /\ (neighbours a b ->
        exists s2,
          handleTilePress s1 false b = Some (s2, true)
          /\ tileAt (grid s2) a = tileAt (grid s) b
          /\ tileAt (grid s2) b = tileAt (grid s) a
          /\ (forall q, q <> a -> q <> b -> tileAt (grid s2) q = tileAt (grid s) q)
          /\ grid6x6 (grid s2)
          /\ moves s2 = (moves s - 1)%Z /\ score s2 = score s
          /\ selectedTile s2 = None)
    /\ (~ neighbours a b ->
        handleTilePress s1 false b
        = Some (mkPuzzle (grid s) (score s) None (moves s), false)).
Proof.
  intros Hg Hsel [Ha1 Ha2] [Hb1 Hb2].
  unfold handleTilePress at 1. rewrite Hsel.
  eexists. split; [reflexivity|]. cbn [selectedTile grid moves score].
  split; [reflexivity|]. split; [reflexivity|]. split; [reflexivity|].
  destruct (tileAt_inside (grid s) a Hg Ha1 Ha2) as [ta Hta].
  destruct (tileAt_inside (grid s) b Hg Hb1 Hb2) as [tb Htb].
  split.
  - intros Hn. apply neighbours_isAdjacent in Hn as Hadj.
    assert (Hab : a <> b).
    { intros ->. unfold neighbours in Hn. lia. }
    unfold handleTilePress. cbn [selectedTile grid moves score]. rewrite Hadj.
    unfold swapTiles. rewrite Hta, Htb.
    eexists. split; [reflexivity|]. cbn [grid moves score selectedTile].
    assert (Hb' : tileAt (setTile (grid s) a tb) b = Some tb).
    { rewrite setTile_other by assumption. assumption. }
    split; [|split; [|split; [|split; [|split; [|split]]]]]; try reflexivity.
    + rewrite setTile_other by (intros E; apply Hab; now symmetry).
      rewrite (setTile_same (grid s) a tb ta Hta). now symmetry.
    + rewrite (setTile_same _ b ta tb Hb'). now symmetry.
    + intros q Hqa Hqb.
      rewrite setTile_other by (intros E; apply Hqb; now symmetry).
      apply setTile_other. intros E. apply Hqa. now symmetry.
    + now apply setTile_6x6, setTile_6x6.
  - intros Hn. unfold handleTilePress. cbn [selectedTile grid moves score].
    destruct (isAdjacent a b) eqn:E; [|reflexivity].
    apply neighbours_isAdjacent in E. contradiction.
Qed.

Lemma two_taps_swap_neighbours_witness :
  exists s1,
    PuzzleMoves.handleTilePress (Puzzle.mkPuzzle Puzzle.sampleGrid 0 None 30) false (1, 1)
    = Some (s1, false)
    /\ Puzzle.selectedTile s1 = Some (1, 1)
    /\ Puzzle.grid s1 = Puzzle.sampleGrid
    /\ Puzzle.moves s1 = 30%Z.
Proof.
  destruct (two_taps_swap_neighbours (mkPuzzle sampleGrid 0 None 30) (1, 1) (1, 2))
    as (s1 & H1 & H2 & H3 & H4 & _).
  - split; [reflexivity|]. repeat constructor.
  - reflexivity.
  - split; unfold GRID_SIZE; simpl; lia.
  - split; unfold GRID_SIZE; simpl; lia.
  - exists s1. repeat split; assumption.
Defined.

End PuzzleMovesFacts.

Section LevelsMoreFacts.
Import Levels.
Local Open Scope Z_scope.

Lemma getLevelById_range (i : Z) :
  (1 <= i <= 10 -> exists l, getLevelById i = Some l /\ id l = i /\ In l LEVELS)
  /\ (~ 1 <= i <= 10 -> getLevelById i = None).
Proof.
  split.
  - intros Hi.
    assert (E : i = 1 \/ i = 2 \/ i = 3 \/ i = 4 \/ i = 5 \/ i = 6 \/ i = 7
                \/ i = 8 \/ i = 9 \/ i = 10) by lia.
    repeat (destruct E as [-> | E];
            [eexists; split; [reflexivity|]; split; [reflexivity|]; simpl; tauto|]).
    subst i. eexists; split; [reflexivity|]; split; [reflexivity|]; simpl; tauto.
  - intros Hi. unfold getLevelById, LEVELS. cbn [find id].
    repeat match goal with
           | |- context [?a =? i] => destruct (Z.eqb_spec a i); [lia|]
           end.
    reflexivity.
Qed.

(** X29. The catalogue is keyed by id: [getLevelById] finds a level
    exactly for the ids 1 to 10 and the level found carries the id asked
    for; [getNextLevel] is the lookup of the following id; a level that is
    unlocked is a playable catalogue entry; and completing more levels
    never locks a level again. *)
Theorem unlocking_is_monotone (levelId : Z) (done done' : list Z) :
  ((exists l, getLevelById levelId = Some l) <-> 1 <= levelId <= 10)
  /\ (forall l, getLevelById levelId = Some l -> id l = levelId /\ In l LEVELS)
  /\ getNextLevel levelId = getLevelById (levelId + 1)
  /\ (isLevelUnlocked levelId done = true ->
      isLevelPlayable levelId = true
      /\ exists l, getLevelById levelId = Some l /\ In l getPlayableLevels)
  /\ ((forall x, In x done -> In x done') ->
      isLevelUnlocked levelId done = true -> isLevelUnlocked levelId done' = true).
Proof.
  destruct (getLevelById_range levelId) as [Hin Hout].
  split; [|split; [|split; [|split]]].
  - split.
    + intros [l Hl]. destruct (Z_le_dec 1 levelId) as [H1|H1];
        [destruct (Z_le_dec levelId 10) as [H2|H2]; [lia|]|];
        rewrite Hout in Hl by lia; discriminate.
    + intros Hr. destruct (Hin Hr) as [l [Hl _]]. now exists l.
  - intros l Hl. unfold getLevelById in Hl. apply find_some in Hl.
    destruct Hl as [Hl He]. apply Z.eqb_eq in He. auto.
  - reflexivity.
  - rewrite isLevelUnlocked_char. intros H. apply andb_true_iff in H.
    destruct H as [Hp _]. split; [assumption|].
    unfold isLevelPlayable in Hp.
    destruct (getLevelById levelId) as [l|] eqn:El; [|discriminate].
    exists l. split; [reflexivity|]. unfold getPlayableLevels.
    apply filter_In. split; [|assumption].
    unfold getLevelById in El. now apply find_some in El.
  - intros Hsub. rewrite !isLevelUnlocked_char. intros H.
    apply andb_true_iff in H. destruct H as [Hp Hc].
    apply andb_true_iff. split; [assumption|].
    apply orb_true_iff in Hc. apply orb_true_iff.
    destruct Hc as [Hc|Hc]; [now left | right].
    apply includes_In. apply Hsub. now apply includes_In.
Qed.

End LevelsMoreFacts.

Section AppFacts.
Import App.
Local Open Scope Z_scope.

Lemma completed_unlocked (g : GameState) (levelId : Z) :
  NoDup (unlockedLevels g) ->
  NoDup (unlockedLevels (completed g levelId))
  /\ forall x, In x (unlockedLevels (completed g levelId))
               <-> In x (unlockedLevels g) \/ x = levelId + 1.
Proof.
  intros Hnd. unfold completed. cbn [unlockedLevels].
  destruct (Levels.includes (unlockedLevels g) (levelId + 1)) eqn:E.
  - apply includes_In in E. split; [assumption|].
    intros x. split; [tauto|]. intros [Hx | ->]; assumption.
  - assert (Hn : ~ In (levelId + 1) (unlockedLevels g)).
    { intros Hin. apply includes_In in Hin. congruence. }
    split.
    + apply NoDup_app; [assumption | repeat constructor; simpl; tauto |].
      intros x Hx [<-|[]]. contradiction.
    + intros x. rewrite in_app_iff. simpl. intuition congruence.
Qed.

Lemma play_gameState (a : AppState) (level : Z) :
  gameState (play a level) = completed (gameState a) level
  /\ currentScreen (play a level) = menu.
Proof. split; reflexivity. Qed.

Lemma fold_play (levels : list Z) (a : AppState) :
  NoDup (unlockedLevels (gameState a)) ->
  let a' := fold_left play levels a in
  coins (gameState a') = coins (gameState a) + 10 * sum levels
  /\ NoDup (unlockedLevels (gameState a'))
  /\ (forall x, In x (unlockedLevels (gameState a'))
                <-> In x (unlockedLevels (gameState a))
                    \/ exists l, In l levels /\ x = l + 1)
  /\ highScores (gameState a') = highScores (gameState a).
Proof.
  revert a. induction levels as [|l levels IH]; intros a Hnd; cbn zeta.
  - cbn [fold_left sum fold_right]. split; [lia|]. split; [assumption|].
    split; [|reflexivity]. intros x. split; [tauto|].
    intros [Hx|[l [[] _]]]. assumption.
  - cbn [fold_left].
    destruct (completed_unlocked (gameState a) l Hnd) as [Hnd1 Hin1].
    destruct (play_gameState a l) as [Eg _].
    specialize (IH (play a l)). cbn zeta in IH. rewrite Eg in IH.
    destruct (IH Hnd1) as (Hc & Hn & Hi & Hh).
    split; [|split; [|split]].
    + rewrite Hc. unfold completed. cbn [coins sum fold_right]. fold (sum levels). lia.
    + assumption.
    + intros x. rewrite Hi, Hin1. split.
      * intros [[Hx| ->]|[l' [Hl' ->]]].
        -- now left.
        -- right. exists l. split; [now left | reflexivity].
        -- right. exists l'. split; [now right | reflexivity].
      * intros [Hx|[l' [[<-|Hl'] ->]]].
        -- left. now left.
        -- left. now right.
        -- right. now exists l'.
    + rewrite Hh. reflexivity.
Qed.

(** X30. Completing a level whose save succeeds pays ten coins per level
    number and makes the following level number unlocked, adding it at the
    end of the list only when it is not listed yet; when the save fails the
    game state is unchanged; either way the app returns to the menu and the
    high scores are not touched.  Hence after any series of completed
    levels from a fresh app the coins are ten times the sum of the level
    numbers played, and the unlocked list, free of repetitions, holds 1 and
    the successor of every level played and nothing else. *)
Theorem completing_levels_pays_and_unlocks (a : AppState) (levels : list Z) :
  (let a1 := handleLevelComplete a true in
   coins (gameState a1) = coins (gameState a) + 10 * currentLevelId a
   /\ In (currentLevelId a + 1) (unlockedLevels (gameState a1))
   /\ (In (currentLevelId a + 1) (unlockedLevels (gameState a)) ->
       unlockedLevels (gameState a1) = unlockedLevels (gameState a))
   /\ (~ In (currentLevelId a + 1) (unlockedLevels (gameState a)) ->
       unlockedLevels (gameState a1)
       = unlockedLevels (gameState a) ++ [currentLevelId a + 1])
   /\ highScores (gameState a1) = highScores (gameState a)
   /\ currentScreen a1 = menu)
  /\ (gameState (handleLevelComplete a false) = gameState a
      /\ currentScreen (handleLevelComplete a false) = menu)
  /\ (let a' := fold_left play levels initial in
      coins (gameState a') = 10 * sum levels
      /\ NoDup (unlockedLevels (gameState a'))
      /\ (forall x, In x (unlockedLevels (gameState a'))
                    <-> x = 1 \/ exists l, In l levels /\ x = l + 1)
      /\ highScores (gameState a') = []
      /\ currentScreen a' = currentScreen initial).
Proof.
  cbn zeta. split; [|split].
  - unfold handleLevelComplete, saveGameState, setCurrentScreen, completed.
    cbn [gameState coins unlockedLevels highScores currentScreen currentLevelId].
    destruct (Levels.includes (unlockedLevels (gameState a)) (currentLevelId a + 1)) eqn:E.
    + apply includes_In in E.
      repeat match goal with |- _ /\ _ => split end;
        try reflexivity; try assumption; try lia.
      intros Hn. contradiction.
    + assert (Hn : ~ In (currentLevelId a + 1) (unlockedLevels (gameState a))).
      { intros Hin. apply includes_In in Hin. congruence. }
      repeat match goal with |- _ /\ _ => split end; try reflexivity; try lia.
      * apply in_or_app. right. now left.
      * intros Hin. contradiction.
  - split; reflexivity.
  - destruct (fold_play levels initial) as (Hc & Hn & Hi & Hh).
    { repeat constructor. simpl. tauto. }
    split; [rewrite Hc; reflexivity|]. split; [assumption|].
    split; [|split; [assumption|]].
    + intros x. rewrite Hi. simpl. intuition congruence.
    + clear. assert (G : forall a, currentScreen a = menu ->
                          currentScreen (fold_left play levels a) = menu).
      { induction levels as [|l ls IH]; intros a Ha; [assumption|].
        cbn [fold_left]. apply IH. reflexivity. }
      now apply G.
Qed.

End AppFacts.
